(** * Kakurasu: a shallow embedding of the rules engine (src/index.js)

    The development follows the three classes of the source:
    [KakurasuField] (one cell), [Kakurasu] (the game: board index,
    constraint cache, move history) and [KakurasuLevelGenerator].

    Conventions of the embedding.
    - The game object is a record; its methods are computations in a small
      state-and-exception monad [M]: a method either returns a value with
      the updated object ([Ok]) or raises ([Throw], with the object as it
      was when the exception left the method).  The exceptions of the
      modelled code are the TypeErrors of a property access on [undefined]:
      [getField] on a coordinate without a field, and the generator on a
      selected index that is [undefined].
    - A field key is the string row + "-" + column.  The model keeps the two
      decimal components of such a key as a pair: the first component is the
      text before the separator (what [split("-")[0]] returns), the second
      the text after it.
    - [state.fields] is a JS object whose keys are enumerated in insertion
      order by [Object.keys]; it is an association list with unique keys.
      Field objects are referred to by their key (a field object is stored
      under exactly one key).
    - JS numbers that are indices or counts are [nat] or [Z]; the cursor is
      [option Z] ([None] is [null]); a weighted sum is [option nat] where
      [None] is NaN; generator bounds are rationals. *)

From Stdlib Require Import ZArith QArith Qround Lia Lqa.
From stdpp Require Import base option list gmap.

(** ** Constants *)

Definition STATUS_CLEAR : nat := 0.
Definition STATUS_ACTIVE : nat := 1.
Definition STATUS_FLAGGED : nat := 2.

(** ** Moves *)

Record Move := mkMove {
  row : nat;
  column : nat;
  previousStatus : nat;
  nextStatus : nat
}.

(** The clean history is one array shared by every game that was reset or
    constructed without a history.  No method writes into the array a game
    holds: [_addMoveToHistory] first replaces it by a fresh one
    ([_deleteFutureMoveHistory]) and pushes onto that.  The shared array is
    therefore always empty, and a value is enough. *)
Definition CLEANVALUE_MOVEHISTORY : list Move := [].
Definition CLEANVALUE_CURRENTMOVEINDEX : option Z := None.

(** ** KakurasuField *)

(** The JSON state of a field: [readOnly] and [solution] are optional
    properties that are only ever read through a truthiness test, so an
    absent property is [false]. *)
Record FieldState := mkFieldState {
  status : nat;
  readOnly : bool;
  solution : bool
}.

(** A field object: its state, and the coordinates [getField] writes on
    it ([None] until the first [getField]). *)
Record KakurasuField := mkField {
  state : FieldState;
  field_row : option nat;
  field_column : option nat
}.

(** [new KakurasuField(state)] *)
Definition new_KakurasuField (s : FieldState) : KakurasuField :=
  mkField s None None.

(** the default parameter of the constructor: [{status: STATUS_CLEAR}] *)
Definition default_FieldState : FieldState :=
  mkFieldState STATUS_CLEAR false false.

Definition setStatus (s : nat) (f : KakurasuField) : KakurasuField :=
  mkField (mkFieldState s (readOnly (state f)) (solution (state f)))
          (field_row f) (field_column f).

Definition getStatus (f : KakurasuField) : nat := status (state f).

Definition isClear (f : KakurasuField) : bool :=
  bool_decide (status (state f) = STATUS_CLEAR).
Definition isActive (f : KakurasuField) : bool :=
  bool_decide (status (state f) = STATUS_ACTIVE).
Definition isFlagged (f : KakurasuField) : bool :=
  bool_decide (status (state f) = STATUS_FLAGGED).

Definition setReadOnly (b : bool) (f : KakurasuField) : KakurasuField :=
  mkField (mkFieldState (status (state f)) b (solution (state f)))
          (field_row f) (field_column f).

Definition isReadOnly (f : KakurasuField) : bool := readOnly (state f).

Definition setIsSolution (b : bool) (f : KakurasuField) : KakurasuField :=
  mkField (mkFieldState (status (state f)) (readOnly (state f)) b)
          (field_row f) (field_column f).

Definition isSolution (f : KakurasuField) : bool := solution (state f).

Definition _reset (f : KakurasuField) : KakurasuField :=
  if negb (isReadOnly f) then setStatus STATUS_CLEAR f else f.

Definition getState (f : KakurasuField) : FieldState := state f.

(** ** Field keys and the field object store *)

Definition Key : Type := nat * nat.

(** [row + _FIELD_KEY_SEPERATOR + column] *)
Definition _getFieldKey (row column : nat) : Key := (row, column).

(** [fieldKey.split(_FIELD_KEY_SEPERATOR)] followed by [parseInt] of the
    component at index 0, respectively 1. *)
Definition split_0 (fieldKey : Key) : nat := fieldKey.1.
Definition split_1 (fieldKey : Key) : nat := fieldKey.2.

Section Store.
Context {V : Type}.

(** [o[k]] *)
Fixpoint store_get (k : Key) (o : list (Key * V)) : option V :=
  match o with
  | [] => None
  | (k', v) :: o' => if decide (k = k') then Some v else store_get k o'
  end.

(** [o[k] = v]: an existing key keeps its place in the enumeration
    order, a new key goes last. *)
Fixpoint store_put (k : Key) (v : V) (o : list (Key * V)) : list (Key * V) :=
  match o with
  | [] => [(k, v)]
  | (k', v') :: o' =>
      if decide (k = k') then (k, v) :: o' else (k', v') :: store_put k v o'
  end.

(** [Object.keys(o)] *)
Definition Object_keys (o : list (Key * V)) : list Key := o.*1.
End Store.

(** ** The game object *)

Record Meta := mkMeta {
  amountRows : nat;
  amountColumns : nat;
  contraints_rows : gmap nat (option nat);
  contraints_columns : gmap nat (option nat)
}.

Record Kakurasu := mkKakurasu {
  moveHistory : list Move;
  currentMoveIndex : option Z;
  fields : list (Key * KakurasuField);
  meta : Meta
}.

Definition set_moveHistory (h : list Move) (g : Kakurasu) : Kakurasu :=
  mkKakurasu h (currentMoveIndex g) (fields g) (meta g).
Definition set_currentMoveIndex (c : option Z) (g : Kakurasu) : Kakurasu :=
  mkKakurasu (moveHistory g) c (fields g) (meta g).
Definition set_fields (fs : list (Key * KakurasuField)) (g : Kakurasu) : Kakurasu :=
  mkKakurasu (moveHistory g) (currentMoveIndex g) fs (meta g).
Definition set_meta (m : Meta) (g : Kakurasu) : Kakurasu :=
  mkKakurasu (moveHistory g) (currentMoveIndex g) (fields g) m.

(** ** The method monad: state passing with exceptions *)

Inductive Outcome (A : Type) : Type :=
| Ok (a : A) (g : Kakurasu)
| Throw (g : Kakurasu).
Arguments Ok {A} a g.
Arguments Throw {A} g.

Definition M (A : Type) : Type := Kakurasu → Outcome A.

Definition ret {A} (a : A) : M A := λ g, Ok a g.

Definition bind {A B} (c : M A) (k : A → M B) : M B :=
  λ g, match c g with
       | Ok a g' => k a g'
       | Throw g' => Throw g'
       end.

Notation "x <- c ;; k" := (bind c (λ x, k))
  (at level 100, c at next level, right associativity, only parsing).
Notation "c ;;; k" := (bind c (λ _, k))
  (at level 100, right associativity, only parsing).

Definition gets {A} (h : Kakurasu → A) : M A := λ g, Ok (h g) g.
Definition modify (h : Kakurasu → Kakurasu) : M unit := λ g, Ok tt (h g).
Definition throw {A} : M A := λ g, Throw g.

(** The object a computation leaves behind, whichever way it ended. *)
Definition final {A} (o : Outcome A) : Kakurasu :=
  match o with Ok _ g => g | Throw g => g end.

(** The value a computation returned, if it returned. *)
Definition returned {A} (o : Outcome A) : option A :=
  match o with Ok a _ => Some a | Throw _ => None end.

(** [for (let x of l) body(x)] *)
Fixpoint forEach {A} (l : list A) (body : A → M unit) : M unit :=
  match l with
  | [] => ret tt
  | x :: l' => body x ;;; forEach l' body
  end.

(** *** Field objects by reference *)

Definition FieldRef : Type := Key.

(** Reading through a reference.  A reference handed out by [getField]
    is always bound; an unbound one cannot be dereferenced. *)
Definition deref (field : FieldRef) : M KakurasuField :=
  λ g, match store_get field (fields g) with
       | Some f => Ok f g
       | None => Throw g
       end.

(** Calling a mutating method of the referenced object. *)
Definition call (field : FieldRef) (method : KakurasuField → KakurasuField) : M unit :=
  f <- deref field ;;
  modify (λ g, set_fields (store_put field (method f) (fields g)) g).

(** ** Kakurasu: moves and history *)

Definition getAmountMoves (g : Kakurasu) : nat := length (moveHistory g).

(** [field.row = row; field.column = column] *)
Definition stamp (row column : nat) (f : KakurasuField) : KakurasuField :=
  mkField (state f) (Some row) (Some column).

(** [getField(row, column)]: looks the object up, writes the coordinates
    on it and returns it.  On a coordinate without a field the lookup is
    [undefined] and the assignment [field.row = row] raises. *)
Definition getField (row column : nat) : M FieldRef :=
  let fieldKey := _getFieldKey row column in
  λ g, match store_get fieldKey (fields g) with
       | None => Throw g
       | Some f =>
           Ok fieldKey
              (set_fields (store_put fieldKey (stamp row column f) (fields g)) g)
       end.

Definition _getFieldFromMove (move : Move) : M FieldRef :=
  getField (row move) (column move).

Definition _applyMove (move : Move) : M bool :=
  field <- _getFieldFromMove move ;;
  f <- deref field ;;
  if negb (isReadOnly f)
  then call field (setStatus (nextStatus move)) ;;; ret true
  else ret false.

(** [a.slice(0, end)]: a negative [end] counts from the end of the array. *)
Definition slice_0 {A} (a : list A) (e : Z) : list A :=
  if (e <? 0)%Z
  then take (Z.to_nat (Z.max 0 (Z.of_nat (length a) + e))) a
  else take (Z.to_nat e) a.

Definition _deleteFutureMoveHistory : M unit :=
  currentIndex <- gets currentMoveIndex ;;
  match currentIndex with
  | Some i =>
      modify (λ g, set_moveHistory (slice_0 (moveHistory g) (i + 1)%Z) g)
  | None => modify (set_moveHistory [])
  end.

Definition _calcNextCurrentMoveIndex (diff : Z) (g : Kakurasu) : option Z :=
  match currentMoveIndex g with
  | None =>
      if (0 <? diff)%Z
      then (let diff' := (diff - 1)%Z in
            if (0 <? diff')%Z then Some diff' else Some 0%Z)
      else None
  | Some copy =>
      let copy' := (copy + diff)%Z in
      if (copy' <? 0)%Z then None else Some copy'
  end.

Definition _changeCurrentMoveIndex (diff : Z) : M unit :=
  modify (λ g, set_currentMoveIndex (_calcNextCurrentMoveIndex diff g) g).

Definition _addMoveToHistory (move : Move) : M unit :=
  _deleteFutureMoveHistory ;;;
  modify (λ g, set_moveHistory (moveHistory g ++ [move]) g) ;;;
  _changeCurrentMoveIndex 1.

Definition _makeMove (move : Move) : M bool :=
  moveApplied <- _applyMove move ;;
  (if moveApplied : bool then _addMoveToHistory move else ret tt) ;;;
  ret moveApplied.

Definition _setFieldStatus (row column : nat) (status : nat) : M bool :=
  field <- getField row column ;;
  f <- deref field ;;
  let move := mkMove row column (getStatus f) status in
  _makeMove move.

Definition setFieldActive (row column : nat) : M bool :=
  _setFieldStatus row column STATUS_ACTIVE.
Definition setFieldFlagged (row column : nat) : M bool :=
  _setFieldStatus row column STATUS_FLAGGED.
Definition setFieldClear (row column : nat) : M bool :=
  _setFieldStatus row column STATUS_CLEAR.

Definition changeActiveStatus (row column : nat) : M bool :=
  field <- getField row column ;;
  f <- deref field ;;
  if isClear f then setFieldActive row column else setFieldClear row column.

Definition changeFlagStatus (row column : nat) : M bool :=
  field <- getField row column ;;
  f <- deref field ;;
  if isClear f then setFieldFlagged row column else setFieldClear row column.

(** [this.state.moveHistory[moveIndex]], copied when it is there.  The
    index [null] and negative indices name no element. *)
Definition getMoveFromHistoryAsCopy (moveIndex : option Z) (g : Kakurasu) : option Move :=
  match moveIndex with
  | None => None
  | Some i => if (i <? 0)%Z then None else moveHistory g !! Z.to_nat i
  end.

Definition isPossibleToRedoMove (g : Kakurasu) : bool :=
  bool_decide (is_Some (getMoveFromHistoryAsCopy (_calcNextCurrentMoveIndex 1 g) g)).

(** [redoMove()].  Inside the branch the move is read a second time; were
    it [undefined] there, [_applyMove] would raise on [move.row], after the
    cursor has advanced. *)
Definition redoMove : M bool :=
  possible <- gets isPossibleToRedoMove ;;
  if possible : bool then
    moveToBeRedone <- gets (λ g, getMoveFromHistoryAsCopy (_calcNextCurrentMoveIndex 1 g) g) ;;
    _changeCurrentMoveIndex 1 ;;;
    match moveToBeRedone with
    | Some moveToBeRedone => _applyMove moveToBeRedone
    | None => throw
    end
  else ret false.

Definition isPossibleToUndoMove (g : Kakurasu) : bool :=
  bool_decide (is_Some (getMoveFromHistoryAsCopy (_calcNextCurrentMoveIndex 0 g) g)).

(** [undoMove()]: the copy of the move gets its two statuses exchanged,
    the cursor goes back by one, then the exchanged move is applied.  Were
    the move [undefined] inside the branch, reading [nextStatus] would
    raise before anything is changed. *)
Definition undoMove : M bool :=
  possible <- gets isPossibleToUndoMove ;;
  if possible : bool then
    moveToBeUndone <- gets (λ g, getMoveFromHistoryAsCopy (_calcNextCurrentMoveIndex 0 g) g) ;;
    match moveToBeUndone with
    | Some moveToBeUndone =>
        let helperNextStatus := nextStatus moveToBeUndone in
        let moveToBeUndone :=
          mkMove (row moveToBeUndone) (column moveToBeUndone)
                 helperNextStatus (previousStatus moveToBeUndone) in
        _changeCurrentMoveIndex (-1) ;;;
        _applyMove moveToBeUndone
    | None => throw
    end
  else ret false.

(** [resetGame()] *)
Definition resetGame : M unit :=
  fieldKeys <- gets (λ g, Object_keys (fields g)) ;;
  forEach fieldKeys (λ fieldKey, call fieldKey _reset) ;;;
  modify (set_moveHistory CLEANVALUE_MOVEHISTORY) ;;;
  modify (set_currentMoveIndex CLEANVALUE_CURRENTMOVEINDEX).

(** ** Kakurasu: board index and constraint cache *)

Definition getAmountRows (g : Kakurasu) : nat := amountRows (meta g).
Definition getAmountColumns (g : Kakurasu) : nat := amountColumns (meta g).

Definition _getAmountRowColumns (forRow : bool) (g : Kakurasu) : nat :=
  if forRow then getAmountRows g else getAmountColumns g.

(** [index + 1]; an undefined index gives NaN. *)
Definition getWeight (index : option nat) : option nat :=
  (λ i, i + 1) <$> index.

(** JS [+] on numbers: NaN is absorbing. *)
Definition number_add (a b : option nat) : option nat :=
  match a, b with
  | Some x, Some y => Some (x + y)
  | _, _ => None
  end.

(** JS [===] between a cached constraint ([None]: undefined, [Some None]:
    NaN) and a sum. *)
Definition strict_equal (a : option (option nat)) (b : option nat) : bool :=
  match a, b with
  | Some (Some x), Some y => bool_decide (x = y)
  | _, _ => false
  end.

Fixpoint mapM {A B} (body : A → M B) (l : list A) : M (list B) :=
  match l with
  | [] => ret []
  | x :: l' => y <- body x ;; ys <- mapM body l' ;; ret (y :: ys)
  end.

Fixpoint foldM {A B} (body : B → A → M B) (acc : B) (l : list A) : M B :=
  match l with
  | [] => ret acc
  | x :: l' => acc' <- body acc x ;; foldM body acc' l'
  end.

Definition _getFieldsInRowColumn (forRow : bool) (index : nat) : M (list FieldRef) :=
  length <- gets (_getAmountRowColumns forRow) ;;
  mapM (λ i,
          let row := if forRow then index else i in
          let column := if forRow then i else index in
          getField row column)
       (seq 0 length).

Definition getFieldsInRow (row : nat) : M (list FieldRef) :=
  _getFieldsInRowColumn true row.
Definition getFieldsInColumn (column : nat) : M (list FieldRef) :=
  _getFieldsInRowColumn false column.

Definition _getWeightForField (forRow : bool) (field : FieldRef) : M (option nat) :=
  f <- deref field ;;
  let weightIndex := if forRow then field_column f else field_row f in
  ret (getWeight weightIndex).

Definition _getRowColumnSumValue (forRow : bool) (index : nat) : M (option nat) :=
  fields <- _getFieldsInRowColumn forRow index ;;
  foldM (λ fieldsValue field,
           weight <- _getWeightForField forRow field ;;
           f <- deref field ;;
           if isActive f then ret (number_add fieldsValue weight)
           else ret fieldsValue)
        (Some 0) fields.

Definition _getConstraintValue (forRow : bool) (index : nat) (g : Kakurasu)
  : option (option nat) :=
  (if forRow then contraints_rows (meta g) else contraints_columns (meta g)) !! index.

Definition getConstraintValueForRow (row : nat) (g : Kakurasu) :=
  _getConstraintValue true row g.
Definition getConstraintValueForColumn (column : nat) (g : Kakurasu) :=
  _getConstraintValue false column g.

Definition _isRowColumnConstraintSatisfied (forRow : bool) (index : nat) : M bool :=
  solutionValue <- gets (_getConstraintValue forRow index) ;;
  fieldsValue <- _getRowColumnSumValue forRow index ;;
  ret (strict_equal solutionValue fieldsValue).

Definition isRowConstraintSatisfied (row : nat) : M bool :=
  _isRowColumnConstraintSatisfied true row.
Definition isColumnConstraintSatisfied (column : nat) : M bool :=
  _isRowColumnConstraintSatisfied false column.

(** The loop of [_areAllRowColumnContraintsSatisfied]: it returns [false]
    at the first index whose check fails.  The check is called with the
    literal [true], whatever [forRow] is. *)
Fixpoint _areAll_loop (indices : list nat) : M bool :=
  match indices with
  | [] => ret true
  | i :: rest =>
      constraintSatisfied <- _isRowColumnConstraintSatisfied true i ;;
      if negb constraintSatisfied then ret false else _areAll_loop rest
  end.

Definition _areAllRowColumnContraintsSatisfied (forRow : bool) : M bool :=
  length <- gets (_getAmountRowColumns forRow) ;;
  _areAll_loop (seq 0 length).

Definition isGameWon : M bool :=
  allRowsSatisfied <- _areAllRowColumnContraintsSatisfied true ;;
  if negb allRowsSatisfied then ret false
  else
    allColumnsSatisfied <- _areAllRowColumnContraintsSatisfied false ;;
    if negb allColumnsSatisfied then ret false
    else ret (allRowsSatisfied && allColumnsSatisfied).

(** *** Loading the meta information *)

(** [!h] for a value that is [null] or a number *)
Definition falsy (h : option nat) : bool :=
  match h with
  | None => true
  | Some n => bool_decide (n = 0)
  end.

(** [h < n] for a value that is [null] or a number ([null < n] is
    [0 < n]) *)
Definition less_than (h : option nat) (n : nat) : bool :=
  match h with
  | None => bool_decide (0 < n)
  | Some m => bool_decide (m < n)
  end.

(** One iteration of the scan over the field keys; the pair is
    [(highestRowKey, highestColumnKey)]. *)
Definition highest_step (h : option nat * option nat) (fieldKey : Key)
  : option nat * option nat :=
  let '(highestRowKey, highestColumnKey) := h in
  let column := split_0 fieldKey in
  let row := split_1 fieldKey in
  let highestColumnKey :=
    if falsy highestColumnKey || less_than highestColumnKey column
    then Some column else highestColumnKey in
  let highestRowKey :=
    if falsy highestRowKey || less_than highestRowKey column
    then Some row else highestRowKey in
  (highestRowKey, highestColumnKey).

Definition highest_keys (fieldKeys : list Key) : option nat * option nat :=
  foldl highest_step (None, None) fieldKeys.

Definition _loadFiledMetaInformationsAmountRowsAndColumns : M unit :=
  fieldKeys <- gets (λ g, Object_keys (fields g)) ;;
  let '(highestRowKey, highestColumnKey) := highest_keys fieldKeys in
  modify (λ g,
    set_meta
      (mkMeta
         (match highestRowKey with Some h => h + 1 | None => 0 end)
         (match highestColumnKey with Some h => h + 1 | None => 0 end)
         (contraints_rows (meta g)) (contraints_columns (meta g))) g).

Definition set_contraint (forRow : bool) (index : nat) (v : option nat)
  (m : Meta) : Meta :=
  if forRow
  then mkMeta (amountRows m) (amountColumns m)
              (<[index := v]> (contraints_rows m)) (contraints_columns m)
  else mkMeta (amountRows m) (amountColumns m)
              (contraints_rows m) (<[index := v]> (contraints_columns m)).

Definition _loadFieldMetaInformationsContraintsForFields
  (forRow : bool) (index : nat) : M unit :=
  fields <- _getFieldsInRowColumn forRow index ;;
  solutionValue <-
    foldM (λ solutionValue field,
             weight <- _getWeightForField forRow field ;;
             f <- deref field ;;
             if isSolution f then ret (number_add solutionValue weight)
             else ret solutionValue)
          (Some 0) fields ;;
  modify (λ g, set_meta (set_contraint forRow index solutionValue (meta g)) g).

Definition _loadFieldMetaInformationsConstraintsForRowColumn (forRow : bool) : M unit :=
  length <- gets (λ g, if forRow then getAmountRows g else getAmountColumns g) ;;
  forEach (seq 0 length)
          (λ i, _loadFieldMetaInformationsContraintsForFields forRow i).

Definition _loadFieldMetaInformationsContraints : M unit :=
  modify (λ g, set_meta (mkMeta (amountRows (meta g)) (amountColumns (meta g)) ∅ ∅) g) ;;;
  _loadFieldMetaInformationsConstraintsForRowColumn true ;;;
  _loadFieldMetaInformationsConstraintsForRowColumn false.

(** [this.meta = {}]: no amounts, no constraints yet. *)
Definition empty_meta : Meta := mkMeta 0 0 ∅ ∅.

Definition _loadFieldMetaInformations : M unit :=
  modify (set_meta empty_meta) ;;;
  _loadFiledMetaInformationsAmountRowsAndColumns ;;;
  _loadFieldMetaInformationsContraints.

(** [_fieldsAsJSON(fields)]: every field's state, under the same keys in
    the same order. *)
Definition _fieldsAsJSON (fields : list (Key * KakurasuField))
  : list (Key * FieldState) :=
  foldl (λ fieldsCopy fieldKey,
           match store_get fieldKey fields with
           | Some field => store_put fieldKey (getState field) fieldsCopy
           | None => fieldsCopy
           end)
        [] (Object_keys fields).

(** ** KakurasuLevelGenerator *)

(** The configuration object as the caller passes it: every property is
    optional.  ([difficulty] is defaulted and never read; it is left out.) *)
Record ConfigIn := mkConfigIn {
  in_rows : option nat;
  in_columns : option nat;
  in_amountMinimumInRow : option Q;
  in_amountMaximumInRow : option Q;
  in_amountMinimumInColumn : option Q;
  in_amountMaximumInColumn : option Q
}.

(** The configuration object after [generateLevel] has filled in and
    corrected its properties. *)
Record Config := mkConfig {
  rows : nat;
  columns : nat;
  amountMinimumInRow : Q;
  amountMaximumInRow : Q;
  amountMinimumInColumn : Q;
  amountMaximumInColumn : Q
}.

(** [x || d] on an optional count: absent and [0] are falsy. *)
Definition or_nat (x : option nat) (d : nat) : nat :=
  match x with
  | Some n => if bool_decide (n = 0) then d else n
  | None => d
  end.

(** [x || d] on an optional number: absent and [0] are falsy. *)
Definition or_Q (x : option Q) (d : Q) : Q :=
  match x with
  | Some q => if Qeq_bool q 0 then d else q
  | None => d
  end.

(** [a < b] on numbers *)
Definition Qltb (a b : Q) : bool :=
  (Qnum a * QDen b <? Qnum b * QDen a)%Z.

Definition nat_to_Q (n : nat) : Q := inject_Z (Z.of_nat n).

(** The first half of [generateLevel]: defaults, then the corrections, in
    the order of the source. *)
Definition normalizeConfig (config : ConfigIn) : Config :=
  let rows := or_nat (in_rows config) 5 in
  let columns := or_nat (in_columns config) rows in
  let amountMinimumInRow := or_Q (in_amountMinimumInRow config) 1 in
  let amountMaximumInRow := or_Q (in_amountMaximumInRow config) (nat_to_Q rows / 2) in
  let amountMinimumInColumn := or_Q (in_amountMinimumInColumn config) 1 in
  let amountMaximumInColumn := or_Q (in_amountMaximumInColumn config) (nat_to_Q columns / 2) in

  let amountMinimumInRow :=
    if Qltb amountMinimumInRow 0 then 0%Q else amountMinimumInRow in
  let amountMinimumInRow :=
    if Qltb (nat_to_Q rows) amountMinimumInRow then nat_to_Q rows else amountMinimumInRow in
  let amountMaximumInRow :=
    if Qltb (nat_to_Q rows) amountMaximumInRow then nat_to_Q rows else amountMaximumInRow in
  let amountMaximumInRow :=
    if Qltb amountMaximumInRow 0 then 0%Q else amountMaximumInRow in
  let amountMaximumInRow :=
    if Qltb amountMaximumInRow amountMinimumInRow then amountMinimumInRow else amountMaximumInRow in

  let amountMinimumInColumn :=
    if Qltb amountMinimumInColumn 0 then 0%Q else amountMinimumInColumn in
  let amountMinimumInColumn :=
    if Qltb (nat_to_Q columns) amountMinimumInColumn then nat_to_Q columns else amountMinimumInColumn in
  let amountMaximumInColumn :=
    if Qltb (nat_to_Q columns) amountMaximumInColumn then nat_to_Q columns else amountMaximumInColumn in
  let amountMaximumInColumn :=
    if Qltb amountMaximumInColumn 0 then 0%Q else amountMaximumInColumn in
  let amountMaximumInColumn :=
    if Qltb amountMaximumInColumn amountMinimumInColumn then amountMinimumInColumn else amountMaximumInColumn in
  mkConfig rows columns amountMinimumInRow amountMaximumInRow
           amountMinimumInColumn amountMaximumInColumn.

(** *** The random source

    [Math.random()] returns a number in the half-open interval from 0 to 1.
    A draw is the fraction [numer / (numer + slack + 1)], which is in that
    interval by construction; the generator only ever uses a draw as
    [Math.floor(Math.random() * n)] with an integer [n].  The source of
    draws is a tape read from left to right. *)
Record Draw := mkDraw { numer : nat; slack : nat }.

Definition floor_random_times (d : Draw) (n : Z) : Z :=
  (Z.of_nat (numer d) * n / Z.of_nat (numer d + slack d + 1))%Z.

Definition Tape : Type := nat → Draw.

(** The generator's computations read the tape at a position and may raise
    ([None]). *)
Definition Gen (A : Type) : Type := Tape → nat → option (A * nat).

Definition gret {A} (a : A) : Gen A := λ _ pos, Some (a, pos).
Definition gbind {A B} (c : Gen A) (k : A → Gen B) : Gen B :=
  λ tape pos, match c tape pos with
              | Some (a, pos') => k a tape pos'
              | None => None
              end.
Definition gthrow {A} : Gen A := λ _ _, None.
(** [Math.floor(Math.random() * n)] *)
Definition random_below (n : Z) : Gen Z :=
  λ tape pos, Some (floor_random_times (tape pos) n, S pos).

Notation "x <~ c ;; k" := (gbind c (λ x, k))
  (at level 100, c at next level, right associativity, only parsing).

Fixpoint gfoldM {A B} (body : B → A → Gen B) (acc : B) (l : list A) : Gen B :=
  match l with
  | [] => gret acc
  | x :: l' => acc' <~ body acc x ;; gfoldM body acc' l'
  end.

Definition _getRandomInt (min max : Q) : Gen Z :=
  let min := Qceiling min in
  let max := Qfloor max in
  r <~ random_below (max - min + 1)%Z ;;
  gret (r + min)%Z.

(** [_shuffle(a)]: for [i] from [a.length - 1] down to [1], exchange
    [a[i]] with [a[j]] for a random [j] between [0] and [i].  Both indices
    are inside the array. *)
Definition swap (i j : nat) (a : list nat) : list nat :=
  match a !! i, a !! j with
  | Some x, Some y => <[j := x]> (<[i := y]> a)
  | _, _ => a
  end.

Definition _shuffle (a : list nat) : Gen (list nat) :=
  gfoldM (λ a i,
            j <~ random_below (Z.of_nat i + 1)%Z ;;
            gret (swap i (Z.to_nat j) a))
         a (reverse (seq 1 (length a - 1))).

(** The selected entries are [shuffledArray[0..amountToSelect-1]]; an
    index past the end of the array reads [undefined] ([None]). *)
Definition _selectRandomAmountIndexes (maxAmount : nat)
  (amountMinimalSelectedIndex amountMaximalSelectedIndex : Q)
  : Gen (list (option nat)) :=
  amountToSelect <~ _getRandomInt amountMinimalSelectedIndex amountMaximalSelectedIndex ;;
  let indexArray := seq 0 maxAmount in
  shuffledArray <~ _shuffle indexArray ;;
  gret ((λ i, shuffledArray !! i) <$> seq 0 (Z.to_nat amountToSelect)).

Definition _initEmptyField (rows columns : nat) : list (Key * KakurasuField) :=
  foldl (λ fields y,
           let row := y in
           foldl (λ fields x,
                    let column := x in
                    let fieldKey := _getFieldKey row column in
                    store_put fieldKey (new_KakurasuField default_FieldState) fields)
                 fields (seq 0 columns))
        [] (seq 0 rows).

(** Marking one selected index; an [undefined] index, or a key without a
    field, makes [field.setIsSolution] raise. *)
Definition mark_solution (forRow : bool) (outerIndex : nat)
  (fields : list (Key * KakurasuField)) (solutionIndex : option nat)
  : Gen (list (Key * KakurasuField)) :=
  match solutionIndex with
  | None => gthrow
  | Some solutionIndex =>
      let row := if forRow then outerIndex else solutionIndex in
      let column := if forRow then solutionIndex else outerIndex in
      let fieldKey := _getFieldKey row column in
      match store_get fieldKey fields with
      | Some field => gret (store_put fieldKey (setIsSolution true field) fields)
      | None => gthrow
      end
  end.

Definition _setSolutionFieldsForRowColumn (forRow : bool)
  (fields : list (Key * KakurasuField)) (config : Config)
  : Gen (list (Key * KakurasuField)) :=
  let outerLength := if forRow then rows config else columns config in
  gfoldM (λ fields outerIndex,
            solutionIndexes <~
              (if forRow
               then _selectRandomAmountIndexes (columns config)
                      (amountMinimumInColumn config) (amountMaximumInColumn config)
               else _selectRandomAmountIndexes (rows config)
                      (amountMinimumInRow config) (amountMaximumInRow config)) ;;
            gfoldM (mark_solution forRow outerIndex) fields solutionIndexes)
         fields (seq 0 outerLength).

Definition generateLevel (config : ConfigIn) : Gen (list (Key * FieldState)) :=
  let config := normalizeConfig config in
  let fields := _initEmptyField (rows config) (columns config) in
  fields <~ _setSolutionFieldsForRowColumn true fields config ;;
  fields <~ _setSolutionFieldsForRowColumn false fields config ;;
  gret (_fieldsAsJSON fields).

(** [generateLevel()] without an argument: [config = config || {}] *)
Definition empty_config : ConfigIn := mkConfigIn None None None None None None.

(** ** The constructor *)

(** The structural snapshot handed to the constructor.  An absent
    [currentMoveIndex] and [null] are both [None]. *)
Record Snapshot := mkSnapshot {
  s_moveHistory : option (list Move);
  s_currentMoveIndex : option Z;
  s_fields : option (list (Key * FieldState))
}.

(** [c || CLEANVALUE_CURRENTMOVEINDEX] *)
Definition or_null (c : option Z) : option Z :=
  match c with
  | Some i => if bool_decide (i = 0%Z) then CLEANVALUE_CURRENTMOVEINDEX else Some i
  | None => CLEANVALUE_CURRENTMOVEINDEX
  end.

(** [!c] for a cursor *)
Definition no_index (c : option Z) : bool :=
  match c with
  | None => true
  | Some i => bool_decide (i = 0%Z)
  end.

(** [this.state = {}] and no meta information *)
Definition blank : Kakurasu := mkKakurasu [] None [] empty_meta.

(** The second half of the constructor: the field objects and the meta
    information.  When the snapshot has no fields the generator is run on
    the default configuration, reading the given tape; an exception of the
    generator leaves the constructor. *)
Definition constructor_fields (st : Snapshot) (tape : Tape) : M unit :=
  fieldsJSON <-
    match s_fields st with
    | Some fieldsJSON => ret fieldsJSON
    | None =>
        match generateLevel empty_config tape 0 with
        | Some (fieldsJSON, _) => ret fieldsJSON
        | None => throw
        end
    end ;;
  modify (set_fields []) ;;;
  forEach (Object_keys fieldsJSON)
          (λ fieldKey,
             match store_get fieldKey fieldsJSON with
             | Some fieldJSON =>
                 modify (λ g, set_fields
                                (store_put fieldKey (new_KakurasuField fieldJSON) (fields g)) g)
             | None => throw
             end) ;;;
  _loadFieldMetaInformations.

(** [new Kakurasu(state)] as a method on the blank object: first the move
    history and the cursor, then the fields. *)
Definition constructor (st : Snapshot) (tape : Tape) : M unit :=
  modify (set_moveHistory (default CLEANVALUE_MOVEHISTORY (s_moveHistory st))) ;;;
  modify (set_currentMoveIndex (or_null (s_currentMoveIndex st))) ;;;
  c <- gets currentMoveIndex ;;
  len <- gets (λ g, length (moveHistory g)) ;;
  (if no_index c && bool_decide (0 < len)
   then modify (set_currentMoveIndex (Some (Z.of_nat len - 1)%Z))
   else ret tt) ;;;
  constructor_fields st tape.

Definition new_Kakurasu (st : Snapshot) (tape : Tape) : Outcome unit :=
  constructor st tape blank.


(** ** Further methods of Kakurasu *)

(** [getFieldOfCurrentMove()]: the field of the move at the cursor, or
    [null]. *)
Definition getFieldOfCurrentMove : M (option FieldRef) :=
  currentMove <- gets (λ g, getMoveFromHistoryAsCopy (_calcNextCurrentMoveIndex 0 g) g) ;;
  match currentMove with
  | Some currentMove =>
      field <- _getFieldFromMove currentMove ;;
      ret (Some field)
  | None => ret None
  end.

(** [asJSON()]: the move history, the cursor and the state of every field.
    The meta information is not part of the exported state.  (The exported
    field states are the objects the game holds, not copies; the model
    exports their values.) *)
Definition asJSON (g : Kakurasu) : Snapshot :=
  mkSnapshot (Some (moveHistory g)) (currentMoveIndex g)
             (Some (_fieldsAsJSON (fields g))).

(** *** The highest constraint

    The values compared here are [null] (the initial maximum), [undefined]
    (an index without a cached constraint) or a number, possibly NaN. *)
Inductive JsValue :=
| js_null
| js_undefined
| js_number (n : option nat).

(** The numeric value a relational comparison gives its operand: [null] is
    0, [undefined] is NaN. *)
Definition to_number (v : JsValue) : option nat :=
  match v with
  | js_null => Some 0
  | js_undefined => None
  | js_number n => n
  end.

(** [a < b]; false as soon as one side is NaN. *)
Definition js_lt (a b : JsValue) : bool :=
  match to_number a, to_number b with
  | Some x, Some y => bool_decide (x < y)
  | _, _ => false
  end.

Definition is_null (v : JsValue) : bool :=
  match v with js_null => true | _ => false end.

(** A cached constraint as a JS value. *)
Definition constraint_value (v : option (option nat)) : JsValue :=
  match v with
  | Some n => js_number n
  | None => js_undefined
  end.

Definition getHighestConstraintForColumnRow (forRow : bool) (g : Kakurasu) : JsValue :=
  let length := _getAmountRowColumns forRow g in
  foldl (λ maxValue i,
           let value :=
             constraint_value (if forRow then getConstraintValueForRow i g
                               else getConstraintValueForColumn i g) in
           if is_null maxValue || js_lt maxValue value then value else maxValue)
        js_null (seq 0 length).

Definition getHighestConstraintValue (g : Kakurasu) : JsValue :=
  let highestRowConstraint := getHighestConstraintForColumnRow true g in
  let highestColumnConstraint := getHighestConstraintForColumnRow false g in
  if js_lt highestColumnConstraint highestRowConstraint
  then highestRowConstraint else highestColumnConstraint.
(** * Notions used in the statements *)

(** The object stored under the key of a move after the move was applied
    to the field [f]. *)
Definition moved (row column s : nat) (f : KakurasuField) : KakurasuField :=
  setStatus s (stamp row column f).

(** [keeps proj c]: the component [proj] of the object is the same after
    [c] as before, whether [c] returns or raises. *)
Definition keeps {A X} (proj : Kakurasu → X) (c : M A) : Prop :=
  ∀ g, proj (final (c g)) = proj g.

(** The move history together with the cursor. *)
Definition history (g : Kakurasu) : list Move * option Z :=
  (moveHistory g, currentMoveIndex g).

(** The moves kept when a new move is recorded. *)
Definition kept_history (g : Kakurasu) : list Move :=
  match currentMoveIndex g with
  | Some i => slice_0 (moveHistory g) (i + 1)%Z
  | None => []
  end.

(** The inverse of a move: previous and next status exchanged. *)
Definition inverse (m : Move) : Move :=
  mkMove (row m) (column m) (nextStatus m) (previousStatus m).


(** The three status-setting moves of the public interface. *)
Inductive FieldCommand := SetFieldActive | SetFieldFlagged | SetFieldClear.

Definition setField (cmd : FieldCommand) : nat → nat → M bool :=
  match cmd with
  | SetFieldActive => setFieldActive
  | SetFieldFlagged => setFieldFlagged
  | SetFieldClear => setFieldClear
  end.

Definition status_of (cmd : FieldCommand) : nat :=
  match cmd with
  | SetFieldActive => STATUS_ACTIVE
  | SetFieldFlagged => STATUS_FLAGGED
  | SetFieldClear => STATUS_CLEAR
  end.

(** The cursor is Empty or a non-negative index. *)
Definition cursor_nonneg (g : Kakurasu) : Prop :=
  match currentMoveIndex g with
  | Some i => (0 ≤ i)%Z
  | None => True
  end.

(** The cursor is Empty or an index into the move history. *)
Definition cursor_consistent (g : Kakurasu) : Prop :=
  match currentMoveIndex g with
  | Some i => (0 ≤ i < Z.of_nat (length (moveHistory g)))%Z
  | None => True
  end.

(** *** Sample boards *)

Definition cell (s : nat) (ro sol : bool) : FieldState := mkFieldState s ro sol.

(** The 2 x 2 grid with solution mask (0,0), (1,1); every field Clear. *)
Definition fields_2x2 : list (Key * FieldState) :=
  [ (_getFieldKey 0 0, cell STATUS_CLEAR false true);
    (_getFieldKey 0 1, cell STATUS_CLEAR false false);
    (_getFieldKey 1 0, cell STATUS_CLEAR false false);
    (_getFieldKey 1 1, cell STATUS_CLEAR false true) ].

(** The same grid with the field (0,1) given as a read-only Flagged
    field. *)
Definition fields_2x2_given : list (Key * FieldState) :=
  [ (_getFieldKey 0 0, cell STATUS_CLEAR false true);
    (_getFieldKey 0 1, cell STATUS_FLAGGED true false);
    (_getFieldKey 1 0, cell STATUS_CLEAR false false);
    (_getFieldKey 1 1, cell STATUS_CLEAR false true) ].

(** A source of draws; it is not read when the snapshot has fields. *)
Definition tape_zero : Tape := λ _, mkDraw 0 0.

Definition game_2x2 : Kakurasu :=
  final (new_Kakurasu (mkSnapshot None None (Some fields_2x2)) tape_zero).

Definition game_2x2_given : Kakurasu :=
  final (new_Kakurasu (mkSnapshot None None (Some fields_2x2_given)) tape_zero).

(** The coordinate has a field that is not read-only. *)
Definition is_movable (fs : list (Key * KakurasuField)) (row column : nat) : bool :=
  match store_get (_getFieldKey row column) fs with
  | Some f => negb (isReadOnly f)
  | None => false
  end.

(** The scenario of the branch rule: two moves, one undo, a third move. *)
Definition two_moves_undo_third
  (cmd1 : FieldCommand) (row1 column1 : nat)
  (cmd2 : FieldCommand) (row2 column2 : nat)
  (cmd3 : FieldCommand) (row3 column3 : nat) : M bool :=
  setField cmd1 row1 column1 ;;;
  setField cmd2 row2 column2 ;;;
  undoMove ;;;
  setField cmd3 row3 column3.

(** The game after one move on the sample board. *)
Definition game_2x2_moved : Kakurasu := final (setFieldActive 0 0 game_2x2).

(** The public operations that change the game. *)
Inductive Command :=
| SetField (cmd : FieldCommand) (row column : nat)
| ChangeActiveStatus (row column : nat)
| ChangeFlagStatus (row column : nat)
| UndoMove
| RedoMove
| ResetGame.

(** The object after a command, whether the method returned or raised. *)
Definition execute (c : Command) (g : Kakurasu) : Kakurasu :=
  match c with
  | SetField cmd row column => final (setField cmd row column g)
  | ChangeActiveStatus row column => final (changeActiveStatus row column g)
  | ChangeFlagStatus row column => final (changeFlagStatus row column g)
  | UndoMove => final (undoMove g)
  | RedoMove => final (redoMove g)
  | ResetGame => final (resetGame g)
  end.

(** [f1] is what [resetGame] makes of the field [f]. *)
Definition is_reset_of (f f1 : KakurasuField) : Prop :=
  getStatus f1 = (if isReadOnly f then getStatus f else STATUS_CLEAR)
  ∧ isReadOnly f1 = isReadOnly f
  ∧ isSolution f1 = isSolution f.

(** The field objects after the loop of [resetGame] over the keys [ks]. *)
Definition reset_keys (ks : list Key) (fs : list (Key * KakurasuField))
  : list (Key * KakurasuField) :=
  foldl (λ fs k, match store_get k fs with
                 | Some f => store_put k (_reset f) fs
                 | None => fs
                 end) fs ks.

(** A method preserves the consistency of cursor and history, whether it
    returns or raises. *)
Definition preserves_consistency {A} (c : M A) : Prop :=
  ∀ g, cursor_consistent g → cursor_consistent (final (c g)).

(** The cursor as the interface description reads it off a snapshot:
    [null] is the Empty cursor, any other value is the committed index. *)
Definition cursor_as_documented (st : Snapshot) : option Z :=
  s_currentMoveIndex st.

(** A snapshot as [asJSON()] exports it after one move that was undone:
    the history holds the move, the cursor is [null], every field is
    Clear. *)
Definition snapshot_undone : Snapshot :=
  mkSnapshot (Some [mkMove 0 0 STATUS_CLEAR STATUS_ACTIVE]) None (Some fields_2x2).

(** A snapshot after two moves of which the second was undone: the cursor
    is the index 0. *)
Definition snapshot_at_zero : Snapshot :=
  mkSnapshot (Some [mkMove 0 0 STATUS_CLEAR STATUS_ACTIVE;
                    mkMove 1 1 STATUS_CLEAR STATUS_ACTIVE])
             (Some 0%Z)
             (Some [ (_getFieldKey 0 0, cell STATUS_ACTIVE false true);
                     (_getFieldKey 0 1, cell STATUS_CLEAR false false);
                     (_getFieldKey 1 0, cell STATUS_CLEAR false false);
                     (_getFieldKey 1 1, cell STATUS_CLEAR false true) ]).

(** A 3 x 3 grid whose only solution field is (0,2): the row targets are
    3, 0, 0 and the column targets 0, 0, 1. *)
Definition fields_3x3 : list (Key * FieldState) :=
  [ (_getFieldKey 0 0, cell STATUS_CLEAR false false);
    (_getFieldKey 0 1, cell STATUS_CLEAR false false);
    (_getFieldKey 0 2, cell STATUS_CLEAR false true);
    (_getFieldKey 1 0, cell STATUS_CLEAR false false);
    (_getFieldKey 1 1, cell STATUS_CLEAR false false);
    (_getFieldKey 1 2, cell STATUS_CLEAR false false);
    (_getFieldKey 2 0, cell STATUS_CLEAR false false);
    (_getFieldKey 2 1, cell STATUS_CLEAR false false);
    (_getFieldKey 2 2, cell STATUS_CLEAR false false) ].

Definition game_3x3 : Kakurasu :=
  final (new_Kakurasu (mkSnapshot None None (Some fields_3x3)) tape_zero).

(** The player activates (0,0) and (0,1): row 0 sums to 1 + 2 = 3, but the
    active fields are not the solution. *)
Definition game_3x3_played : Kakurasu :=
  final ((setFieldActive 0 0 ;;; setFieldActive 0 1) game_3x3).

(** The win condition as documented: every row and every column of the
    loaded grid is satisfied. *)
Definition all_constraints_satisfied (g : Kakurasu) : bool :=
  forallb (λ i, bool_decide (returned (isRowConstraintSatisfied i g) = Some true))
          (seq 0 (getAmountRows g))
  && forallb (λ i, bool_decide (returned (isColumnConstraintSatisfied i g) = Some true))
             (seq 0 (getAmountColumns g)).

(** Generator configurations *)
Definition config_2x3 : ConfigIn := mkConfigIn (Some 2) (Some 3) None None None None.
Definition config_3x2 : ConfigIn := mkConfigIn (Some 3) (Some 2) None None None None.
Definition config_zero_minimum : ConfigIn :=
  mkConfigIn (Some 5) None (Some 0%Q) None None None.
Definition config_zero_maximum : ConfigIn :=
  mkConfigIn (Some 5) None None (Some 0%Q) None None.

(** The weighted sum of the solution fields of row [r] over the columns
    [0 .. columns-1] of a field object. *)
Definition solution_sum_row (fs : list (Key * FieldState)) (r columns : nat) : nat :=
  foldr (λ c acc,
           match store_get (_getFieldKey r c) fs with
           | Some f => if solution f then (c + 1) + acc else acc
           | None => acc
           end) 0 (seq 0 columns).

(** The keys of an [rows] x [columns] grid in the order [_initEmptyField]
    creates them: row by row. *)
Definition grid_keys (rows columns : nat) : list Key :=
  concat ((λ r, (λ c, _getFieldKey r c) <$> seq 0 columns) <$> seq 0 rows).

(** A snapshot is well formed when its cursor, if it has one, is an index
    into its move history. *)
Definition snapshot_cursor_ok (st : Snapshot) : Prop :=
  match s_currentMoveIndex st with
  | Some i => (0 ≤ i < Z.of_nat (length (default [] (s_moveHistory st))))%Z
  | None => True
  end.

(** The games a player can reach: constructed from a well-formed snapshot
    (or generated), then changed by any sequence of commands. *)
Inductive reachable : Kakurasu → Prop :=
| reachable_new st tape g :
    snapshot_cursor_ok st → new_Kakurasu st tape = Ok tt g → reachable g
| reachable_execute c g :
    reachable g → reachable (execute c g).

(** * Notions used in the further properties *)

(** [steady R c]: the object after [c] is [R]-related to the object before,
    whether [c] returns or raises. *)
Definition steady {A} (R : relation Kakurasu) (c : M A) : Prop :=
  ∀ g, R g (final (c g)).

(** Two field objects with the same state (status and flags). *)
Definition same_state (f f' : KakurasuField) : Prop := state f' = state f.

(** Two field objects with the same [readOnly] and [solution] flags. *)
Definition same_flags (f f' : KakurasuField) : Prop :=
  isReadOnly f' = isReadOnly f ∧ isSolution f' = isSolution f.

(** The same coordinates have fields, and the fields at each coordinate
    are related by [ok]. *)
Definition fields_related (ok : KakurasuField → KakurasuField → Prop)
  (fs fs' : list (Key * KakurasuField)) : Prop :=
  Object_keys fs' = Object_keys fs
  ∧ ∀ k, option_Forall2 ok (store_get k fs) (store_get k fs').

(** [g'] differs from [g] at most in the coordinates written on the field
    objects. *)
Definition only_stamps (g g' : Kakurasu) : Prop :=
  moveHistory g' = moveHistory g
  ∧ currentMoveIndex g' = currentMoveIndex g
  ∧ meta g' = meta g
  ∧ fields_related same_state (fields g) (fields g').

(** [g'] is a state of play of the puzzle of [g]: the same constraint
    cache, the same coordinates, the same solution mask and read-only
    flags. *)
Definition same_puzzle (g g' : Kakurasu) : Prop :=
  meta g' = meta g
  ∧ fields_related same_flags (fields g) (fields g').

(** The key of the [i]-th field of row, respectively column, [index]. *)
Definition line_key (forRow : bool) (index i : nat) : Key :=
  if forRow then _getFieldKey index i else _getFieldKey i index.

(** The sum of the weights [i + 1] of the fields [i < n] of a line that
    satisfy [pred]. *)
Definition weighted_sum (pred : KakurasuField → bool) (forRow : bool)
  (index n : nat) (fs : list (Key * KakurasuField)) : nat :=
  sum_list_with
    (λ i, match store_get (line_key forRow index i) fs with
          | Some f => if pred f then i + 1 else 0
          | None => 0
          end)
    (seq 0 n).

(** Every field of the line [index], as far as the method walks it, is
    there. *)
Definition line_complete (forRow : bool) (index : nat) (g : Kakurasu) : Prop :=
  ∀ i, i < _getAmountRowColumns forRow g →
       is_Some (store_get (line_key forRow index i) (fields g)).

(** The methods that only ask. *)
Inductive Query :=
| AskField (row column : nat)
| AskFieldsInRow (row : nat)
| AskFieldsInColumn (column : nat)
| AskRowConstraintSatisfied (row : nat)
| AskColumnConstraintSatisfied (column : nat)
| AskGameWon
| AskFieldOfCurrentMove.

(** The object after a query, whether the method returned or raised. *)
Definition after_query (q : Query) (g : Kakurasu) : Kakurasu :=
  match q with
  | AskField row column => final (getField row column g)
  | AskFieldsInRow row => final (getFieldsInRow row g)
  | AskFieldsInColumn column => final (getFieldsInColumn column g)
  | AskRowConstraintSatisfied row => final (isRowConstraintSatisfied row g)
  | AskColumnConstraintSatisfied column => final (isColumnConstraintSatisfied column g)
  | AskGameWon => final (isGameWon g)
  | AskFieldOfCurrentMove => final (getFieldOfCurrentMove g)
  end.

(** The field object at [k] carries the coordinates of [k]. *)
Definition stamped (g : Kakurasu) (k : Key) : Prop :=
  ∃ f, store_get k (fields g) = Some f
       ∧ field_row f = Some k.1 ∧ field_column f = Some k.2.

(** The check of row [i] as the code performs it: the cached row target
    against the weights of the Active fields among the first [amountRows]
    fields of the row. *)
Definition row_check (g : Kakurasu) (i : nat) : bool :=
  strict_equal (getConstraintValueForRow i g)
               (Some (weighted_sum isActive true i (getAmountRows g) (fields g))).

(** The check of column [i], likewise. *)
Definition column_check (g : Kakurasu) (i : nat) : bool :=
  strict_equal (getConstraintValueForColumn i g)
               (Some (weighted_sum isActive false i (getAmountColumns g) (fields g))).

(** The constraint map of one kind. *)
Definition contraints_of (forRow : bool) (m : Meta) : gmap nat (option nat) :=
  if forRow then contraints_rows m else contraints_columns m.

(** Every coordinate of the square of side [amountRows] has a field. *)
Definition square_complete (g : Kakurasu) : Prop :=
  ∀ r c, r < getAmountRows g → c < getAmountRows g →
         is_Some (store_get (_getFieldKey r c) (fields g)).

(** Every cached target is the weighted sum of the solution fields of its
    line, as far as the loader walks the line. *)
Definition cache_correct (g : Kakurasu) : Prop :=
  (∀ r, r < getAmountRows g →
        getConstraintValueForRow r g
        = Some (Some (weighted_sum isSolution true r (getAmountRows g) (fields g))))
  ∧ (∀ c, c < getAmountColumns g →
          getConstraintValueForColumn c g
          = Some (Some (weighted_sum isSolution false c (getAmountColumns g) (fields g)))).

(** What the loader establishes when it returns. *)
Definition well_loaded (g : Kakurasu) : Prop :=
  getAmountRows g = getAmountColumns g
  ∧ square_complete g
  ∧ cache_correct g.

(** Row [r] is solved: the weights of its solution fields and of its
    Active fields sum to the same. *)
Definition row_solved (g : Kakurasu) (r : nat) : bool :=
  bool_decide (weighted_sum isSolution true r (getAmountRows g) (fields g)
               = weighted_sum isActive true r (getAmountRows g) (fields g)).

(** Column [c] is solved, likewise. *)
Definition column_solved (g : Kakurasu) (c : nat) : bool :=
  bool_decide (weighted_sum isSolution false c (getAmountColumns g) (fields g)
               = weighted_sum isActive false c (getAmountColumns g) (fields g)).

(** The targets of all rows, respectively columns, of a well-loaded game:
    the weighted sums of the solution fields. *)
Definition targets (forRow : bool) (g : Kakurasu) : list nat :=
  (λ i, weighted_sum isSolution forRow i (_getAmountRowColumns forRow g) (fields g))
    <$> seq 0 (_getAmountRowColumns forRow g).

(** The status of the field at a coordinate, when there is one. *)
Definition status_at (g : Kakurasu) (row column : nat) : option nat :=
  getStatus <$> store_get (_getFieldKey row column) (fields g).

(** The status a toggle asks for: [on] from Clear, Clear from anything
    else. *)
Definition toggled (on : nat) (f : KakurasuField) : nat :=
  if isClear f then on else STATUS_CLEAR.

(** The coordinate a command addresses in the game [g]: the one given to
    a move or a toggle, the one of the move at the cursor for an undo, the
    one of the move after the cursor for a redo.  A reset addresses every
    field. *)
Definition target (c : Command) (g : Kakurasu) : option Key :=
  match c with
  | SetField _ row column => Some (_getFieldKey row column)
  | ChangeActiveStatus row column => Some (_getFieldKey row column)
  | ChangeFlagStatus row column => Some (_getFieldKey row column)
  | UndoMove =>
      (λ m, _getFieldKey (row m) (column m))
        <$> getMoveFromHistoryAsCopy (_calcNextCurrentMoveIndex 0 g) g
  | RedoMove =>
      (λ m, _getFieldKey (row m) (column m))
        <$> getMoveFromHistoryAsCopy (_calcNextCurrentMoveIndex 1 g) g
  | ResetGame => None
  end.

(** The number of solution fields among the first [n] fields of a line of
    a grid; [sol] reads the solution flag of an entry. *)
Definition solutions_in_line {V} (sol : V → bool) (forRow : bool)
  (index n : nat) (fs : list (Key * V)) : nat :=
  length (filter (λ i, sol <$> store_get (line_key forRow index i) fs = Some true)
                 (seq 0 n)).

(** [f'] is [f] with, at most, the solution flag set. *)
Definition marks_only (f f' : KakurasuField) : Prop :=
  getStatus f' = getStatus f
  ∧ isReadOnly f' = isReadOnly f
  ∧ (isSolution f = true → isSolution f' = true).

(** The amounts of rows and columns the loader derives from the field
    keys. *)
Definition amounts_of (fieldKeys : list Key) : nat * nat :=
  (match (highest_keys fieldKeys).1 with Some h => h + 1 | None => 0 end,
   match (highest_keys fieldKeys).2 with Some h => h + 1 | None => 0 end).

(** The fields the loader walks are there: the square of side
    [amountRows] and the square of side [amountColumns]. *)
Definition loadable (fieldKeys : list Key) : Prop :=
  ∀ n, (n = (amounts_of fieldKeys).1 ∨ n = (amounts_of fieldKeys).2) →
       ∀ r c, r < n → c < n → _getFieldKey r c ∈ fieldKeys.

(** The part of one iteration of the key scan that concerns
    [highestRowKey]. *)
Definition row_step (h : option nat) (fieldKey : Key) : option nat :=
  if falsy h || less_than h (split_0 fieldKey) then Some (split_1 fieldKey) else h.

(** The game after a sequence of commands. *)
Definition run (cs : list Command) (g : Kakurasu) : Kakurasu :=
  foldl (λ g c, execute c g) g cs.

(** The 2 x 2 sample game with exactly its solution fields Active. *)
Definition game_2x2_solved : Kakurasu :=
  run [SetField SetFieldActive 0 0; SetField SetFieldActive 1 1] game_2x2.

(** [k] times [undoMove()], whatever each call returns. *)
Definition undo_times (k : nat) (g : Kakurasu) : Kakurasu :=
  Nat.iter k (λ g, final (undoMove g)) g.

(** The command of a status-setting move. *)
Definition move_command (m : FieldCommand * nat * nat) : Command :=
  SetField m.1.1 m.1.2 m.2.

(** Two games that differ at most in the moves after the cursor and in the
    coordinates written on the field objects. *)
Definition agree (g g' : Kakurasu) : Prop :=
  currentMoveIndex g' = currentMoveIndex g
  ∧ meta g' = meta g
  ∧ fields_related same_state (fields g) (fields g')
  ∧ ∀ i j, currentMoveIndex g = Some i → (0 ≤ j ≤ i)%Z →
           moveHistory g' !! Z.to_nat j = moveHistory g !! Z.to_nat j.
(** * Properties *)

(** ** The field object store *)

Section StoreFacts.
Context {V : Type}.
Implicit Types (k : Key) (v : V) (o : list (Key * V)).

Lemma store_get_put_eq k v o : store_get k (store_put k v o) = Some v.
Proof.
  induction o as [|[k' v'] o IH]; simpl.
  - by rewrite decide_True.
  - destruct (decide (k = k')) as [->|Hne]; simpl.
    + by rewrite decide_True.
    + by rewrite decide_False.
Qed.

Lemma store_get_put_ne k k' v o :
  k ≠ k' → store_get k' (store_put k v o) = store_get k' o.
Proof.
  intros Hne. induction o as [|[k0 v0] o IH]; simpl.
  - by rewrite decide_False.
  - destruct (decide (k = k0)) as [->|Hk]; simpl.
    + by rewrite !decide_False.
    + destruct (decide (k' = k0)); [done | apply IH].
Qed.

Lemma store_put_put k v v' o :
  store_put k v (store_put k v' o) = store_put k v o.
Proof.
  induction o as [|[k0 v0] o IH]; simpl.
  - by rewrite decide_True.
  - destruct (decide (k = k0)) as [->|Hk]; simpl.
    + by rewrite decide_True.
    + rewrite decide_False by done. by rewrite IH.
Qed.

Lemma store_put_same k v o : store_get k o = Some v → store_put k v o = o.
Proof.
  induction o as [|[k0 v0] o IH]; simpl; [done|].
  destruct (decide (k = k0)) as [->|Hk]; [congruence|].
  intros H. by rewrite IH.
Qed.

Lemma store_put_keys k v v0 o :
  store_get k o = Some v0 → Object_keys (store_put k v o) = Object_keys o.
Proof.
  unfold Object_keys.
  induction o as [|[k0 v1] o IH]; csimpl; [done|].
  destruct (decide (k = k0)) as [->|Hk]; csimpl; [done|].
  intros H. by rewrite IH.
Qed.

Lemma store_get_keys k o : is_Some (store_get k o) ↔ k ∈ Object_keys o.
Proof.
  unfold Object_keys.
  induction o as [|[k0 v1] o IH]; csimpl.
  - split; [by intros [? ?] | by intros ?%elem_of_nil].
  - rewrite elem_of_cons. destruct (decide (k = k0)) as [->|Hk].
    + split; [by left | by eauto].
    + rewrite IH. split; [by right | by intros [?|?]].
Qed.
End StoreFacts.

(** ** Fields *)

Lemma _reset_status f :
  status (state (_reset f)) = if readOnly (state f) then status (state f) else STATUS_CLEAR.
Proof. unfold _reset, isReadOnly. destruct (readOnly (state f)); reflexivity. Qed.

Lemma _reset_readOnly f : readOnly (state (_reset f)) = readOnly (state f).
Proof. unfold _reset, isReadOnly. destruct (readOnly (state f)) eqn:E; simpl; congruence. Qed.

Lemma _reset_solution f : solution (state (_reset f)) = solution (state f).
Proof. unfold _reset, isReadOnly. destruct (readOnly (state f)); reflexivity. Qed.

Lemma _reset_stamps f :
  field_row (_reset f) = field_row f ∧ field_column (_reset f) = field_column f.
Proof. unfold _reset, isReadOnly. destruct (readOnly (state f)); split; reflexivity. Qed.

Lemma _reset_idempotent f : _reset (_reset f) = _reset f.
Proof.
  unfold _reset, isReadOnly.
  destruct (readOnly (state f)) eqn:E; simpl; rewrite E; reflexivity.
Qed.

(** ** Applying a move *)

Lemma deref_put k f g :
  deref k (set_fields (store_put k f (fields g)) g)
  = Ok f (set_fields (store_put k f (fields g)) g).
Proof. unfold deref; simpl. by rewrite store_get_put_eq. Qed.

Lemma _applyMove_bound move f g :
  store_get (_getFieldKey (row move) (column move)) (fields g) = Some f →
  _applyMove move g =
    if isReadOnly f
    then Ok false (set_fields (store_put (_getFieldKey (row move) (column move))
                     (stamp (row move) (column move) f) (fields g)) g)
    else Ok true (set_fields (store_put (_getFieldKey (row move) (column move))
                    (moved (row move) (column move) (nextStatus move) f) (fields g)) g).
Proof.
  intros Hf. unfold _applyMove, _getFieldFromMove, bind at 1, getField.
  rewrite Hf. unfold bind at 1. rewrite deref_put.
  change (isReadOnly (stamp (row move) (column move) f)) with (isReadOnly f).
  destruct (isReadOnly f); simpl; [done|].
  unfold bind, call, bind. rewrite deref_put. simpl.
  unfold ret, set_fields; simpl. by rewrite store_put_put.
Qed.

Lemma _applyMove_unbound move g :
  store_get (_getFieldKey (row move) (column move)) (fields g) = None →
  _applyMove move g = Throw g.
Proof.
  intros Hf. unfold _applyMove, _getFieldFromMove, bind, getField. by rewrite Hf.
Qed.

(** ** What a method leaves alone *)

Section Keeps.
Context {X : Type} (proj : Kakurasu → X).

Lemma keeps_ret {A} (a : A) : keeps proj (ret a).
Proof. done. Qed.

Lemma keeps_throw {A} : keeps proj (@throw A).
Proof. done. Qed.

Lemma keeps_gets {A} (h : Kakurasu → A) : keeps proj (gets h).
Proof. done. Qed.

Lemma keeps_bind {A B} (c : M A) (k : A → M B) :
  keeps proj c → (∀ a, keeps proj (k a)) → keeps proj (bind c k).
Proof.
  intros Hc Hk g. unfold bind. specialize (Hc g).
  destruct (c g) as [a g'|g']; simpl in *; [|done].
  by rewrite Hk.
Qed.

Lemma keeps_if {A} (b : bool) (c1 c2 : M A) :
  keeps proj c1 → keeps proj c2 → keeps proj (if b then c1 else c2).
Proof. by destruct b. Qed.

Lemma keeps_modify (h : Kakurasu → Kakurasu) :
  (∀ g, proj (h g) = proj g) → keeps proj (modify h).
Proof. intros H g. apply H. Qed.

Lemma keeps_forEach {A} (l : list A) (body : A → M unit) :
  (∀ x, keeps proj (body x)) → keeps proj (forEach l body).
Proof.
  intros Hb. induction l as [|x l IH]; simpl.
  - apply keeps_ret.
  - apply keeps_bind; [apply Hb | done].
Qed.

Lemma keeps_mapM {A B} (body : A → M B) (l : list A) :
  (∀ x, keeps proj (body x)) → keeps proj (mapM body l).
Proof.
  intros Hb. induction l as [|x l IH]; simpl.
  - apply keeps_ret.
  - apply keeps_bind; [apply Hb | intros y].
    apply keeps_bind; [done | intros ys; apply keeps_ret].
Qed.

Lemma keeps_foldM {A B} (body : B → A → M B) (acc : B) (l : list A) :
  (∀ b x, keeps proj (body b x)) → keeps proj (foldM body acc l).
Proof.
  intros Hb. revert acc. induction l as [|x l IH]; intros acc; simpl.
  - apply keeps_ret.
  - apply keeps_bind; [apply Hb | done].
Qed.

(** Methods that only touch the field objects. *)
Hypothesis proj_fields : ∀ fs g, proj (set_fields fs g) = proj g.

Lemma keeps_getField row column : keeps proj (getField row column).
Proof.
  intros g. unfold getField.
  destruct (store_get _ _); simpl; [apply proj_fields | done].
Qed.

Lemma keeps_deref field : keeps proj (deref field).
Proof. intros g. unfold deref. by destruct (store_get _ _). Qed.

Lemma keeps_call field method : keeps proj (call field method).
Proof.
  apply keeps_bind; [apply keeps_deref | intros f].
  apply keeps_modify. intros g. apply proj_fields.
Qed.

Lemma keeps__applyMove move : keeps proj (_applyMove move).
Proof.
  apply keeps_bind; [apply keeps_getField | intros field].
  apply keeps_bind; [apply keeps_deref | intros f].
  apply keeps_if; [|apply keeps_ret].
  apply keeps_bind; [apply keeps_call | intros _; apply keeps_ret].
Qed.

Lemma keeps__getFieldsInRowColumn forRow index :
  keeps proj (_getFieldsInRowColumn forRow index).
Proof.
  apply keeps_bind; [apply keeps_gets | intros n].
  apply keeps_mapM. intros i. apply keeps_getField.
Qed.

Lemma keeps__getWeightForField forRow field :
  keeps proj (_getWeightForField forRow field).
Proof.
  apply keeps_bind; [apply keeps_deref | intros f; apply keeps_ret].
Qed.

Lemma keeps__getRowColumnSumValue forRow index :
  keeps proj (_getRowColumnSumValue forRow index).
Proof.
  apply keeps_bind; [apply keeps__getFieldsInRowColumn | intros fs].
  apply keeps_foldM. intros acc field.
  apply keeps_bind; [apply keeps__getWeightForField | intros w].
  apply keeps_bind; [apply keeps_deref | intros f].
  apply keeps_if; apply keeps_ret.
Qed.
End Keeps.

(** ** The history state machine *)

Lemma _addMoveToHistory_eq move g :
  _addMoveToHistory move g =
    Ok tt (mkKakurasu (kept_history g ++ [move]) (_calcNextCurrentMoveIndex 1 g)
                      (fields g) (meta g)).
Proof.
  unfold _addMoveToHistory, _deleteFutureMoveHistory, kept_history.
  unfold bind, gets, _changeCurrentMoveIndex, _calcNextCurrentMoveIndex.
  destruct g as [h [i|] fs m]; reflexivity.
Qed.

Lemma stamp_stamp row column f :
  stamp row column (stamp row column f) = stamp row column f.
Proof. done. Qed.

(** [_setFieldStatus] on a coordinate that has a field. *)
Lemma _setFieldStatus_bound row column s f g :
  store_get (_getFieldKey row column) (fields g) = Some f →
  _setFieldStatus row column s g =
    if isReadOnly f
    then Ok false (set_fields (store_put (_getFieldKey row column)
                     (stamp row column f) (fields g)) g)
    else Ok true (mkKakurasu
                    (kept_history g ++ [mkMove row column (getStatus f) s])
                    (_calcNextCurrentMoveIndex 1 g)
                    (store_put (_getFieldKey row column) (moved row column s f) (fields g))
                    (meta g)).
Proof.
  intros Hf. unfold _setFieldStatus, bind at 1, getField. rewrite Hf.
  unfold bind at 1. rewrite deref_put.
  unfold _makeMove, bind at 1.
  rewrite (_applyMove_bound _ (stamp row column f)); simpl;
    [|by rewrite store_get_put_eq].
  change (isReadOnly (stamp row column f)) with (isReadOnly f).
  destruct (isReadOnly f); simpl.
  - unfold bind, ret; simpl. by rewrite store_put_put.
  - unfold bind. rewrite _addMoveToHistory_eq. unfold ret; simpl.
    by rewrite store_put_put.
Qed.

Lemma _setFieldStatus_unbound row column s g :
  store_get (_getFieldKey row column) (fields g) = None →
  _setFieldStatus row column s g = Throw g.
Proof. intros Hf. unfold _setFieldStatus, bind, getField. by rewrite Hf. Qed.

Lemma undoMove_eq g :
  undoMove g =
    match getMoveFromHistoryAsCopy (_calcNextCurrentMoveIndex 0 g) g with
    | Some m =>
        _applyMove (inverse m)
          (set_currentMoveIndex (_calcNextCurrentMoveIndex (-1) g) g)
    | None => Ok false g
    end.
Proof.
  unfold undoMove, bind at 1, gets at 1, isPossibleToUndoMove.
  destruct (getMoveFromHistoryAsCopy _ g) as [m|] eqn:E.
  - rewrite bool_decide_true by eauto.
    unfold bind at 1, gets. rewrite E. reflexivity.
  - rewrite bool_decide_false; [done|]. by intros [? ?].
Qed.

Lemma redoMove_eq g :
  redoMove g =
    match getMoveFromHistoryAsCopy (_calcNextCurrentMoveIndex 1 g) g with
    | Some m =>
        _applyMove m (set_currentMoveIndex (_calcNextCurrentMoveIndex 1 g) g)
    | None => Ok false g
    end.
Proof.
  unfold redoMove, bind at 1, gets at 1, isPossibleToRedoMove.
  destruct (getMoveFromHistoryAsCopy _ g) as [m|] eqn:E.
  - rewrite bool_decide_true by eauto.
    unfold bind at 1, gets. rewrite E. reflexivity.
  - rewrite bool_decide_false; [done|]. by intros [? ?].
Qed.

Lemma setField_eq cmd row column :
  setField cmd row column = _setFieldStatus row column (status_of cmd).
Proof. by destruct cmd. Qed.

(** ** Rejected moves *)

(** C6. Applying a move through [setFieldActive], [setFieldFlagged] or
    [setFieldClear] to a coordinate that has a field returns; it returns
    [false] if and only if the field is read-only, and then neither the move
    history nor the cursor has changed. *)
Theorem move_rejected_iff_readOnly cmd row column g f :
  store_get (_getFieldKey row column) (fields g) = Some f →
  ∃ applied g',
    setField cmd row column g = Ok applied g'
    ∧ (applied = false ↔ isReadOnly f = true)
    ∧ (applied = false →
       moveHistory g' = moveHistory g ∧ currentMoveIndex g' = currentMoveIndex g).
Proof.
  intros Hf. rewrite setField_eq, (_setFieldStatus_bound _ _ _ f) by done.
  destruct (isReadOnly f); eexists _, _; (split; [reflexivity|]); split;
    try done.
Qed.

Lemma move_rejected_iff_readOnly_witness :
  store_get (_getFieldKey 0 1) (fields game_2x2_given)
    = Some (stamp 0 1 (new_KakurasuField (cell STATUS_FLAGGED true false)))
  ∧ ∃ applied g',
      setField SetFieldActive 0 1 game_2x2_given = Ok applied g'
      ∧ (applied = false
         ↔ isReadOnly (stamp 0 1 (new_KakurasuField (cell STATUS_FLAGGED true false)))
           = true)
      ∧ (applied = false →
         moveHistory g' = moveHistory game_2x2_given
         ∧ currentMoveIndex g' = currentMoveIndex game_2x2_given).
Proof.
  split; [reflexivity|].
  apply (move_rejected_iff_readOnly SetFieldActive 0 1 game_2x2_given
           (stamp 0 1 (new_KakurasuField (cell STATUS_FLAGGED true false)))).
  reflexivity.
Defined.

(** ** Undo and redo without an eligible move *)

(** C7. When [isPossibleToUndoMove()] is false, [undoMove()] returns
    [false] and the game object is unchanged; likewise [redoMove()] when
    [isPossibleToRedoMove()] is false. *)
Theorem undo_redo_noop g :
  (isPossibleToUndoMove g = false → undoMove g = Ok false g)
  ∧ (isPossibleToRedoMove g = false → redoMove g = Ok false g).
Proof.
  split; intros H.
  - rewrite undoMove_eq. unfold isPossibleToUndoMove in H.
    destruct (getMoveFromHistoryAsCopy _ g); [|done].
    rewrite bool_decide_true in H by eauto. done.
  - rewrite redoMove_eq. unfold isPossibleToRedoMove in H.
    destruct (getMoveFromHistoryAsCopy _ g); [|done].
    rewrite bool_decide_true in H by eauto. done.
Qed.

Lemma undo_redo_noop_witness :
  (isPossibleToUndoMove game_2x2 = false ∧ undoMove game_2x2 = Ok false game_2x2)
  ∧ (isPossibleToRedoMove game_2x2 = false ∧ redoMove game_2x2 = Ok false game_2x2).
Proof.
  split; (split; [reflexivity|]).
  - apply (proj1 (undo_redo_noop game_2x2)). reflexivity.
  - apply (proj2 (undo_redo_noop game_2x2)). reflexivity.
Defined.
Lemma slice_0_nonneg {A} (a : list A) (e : Z) :
  (0 ≤ e)%Z → slice_0 a e = take (Z.to_nat e) a.
Proof. intros H. unfold slice_0. destruct (Z.ltb_spec e 0); [lia | done]. Qed.

Lemma moved_moved row column s s' f :
  moved row column s (moved row column s' f) = moved row column s f.
Proof. done. Qed.

Lemma is_movable_Some fs row column :
  is_movable fs row column = true →
  ∃ f, store_get (_getFieldKey row column) fs = Some f ∧ isReadOnly f = false.
Proof.
  unfold is_movable. destruct (store_get _ fs) as [f|]; [|done].
  intros H. exists f. split; [done|]. by destruct (isReadOnly f).
Qed.

Lemma is_movable_put fs k f f' row column :
  store_get k fs = Some f → isReadOnly f' = isReadOnly f →
  is_movable (store_put k f' fs) row column = is_movable fs row column.
Proof.
  intros Hf Hro. unfold is_movable.
  destruct (decide (k = _getFieldKey row column)) as [<-|Hne].
  - by rewrite store_get_put_eq, Hf, Hro.
  - by rewrite store_get_put_ne.
Qed.

(** A move on a movable field: the explicit successor object. *)
Lemma setField_movable cmd row column g :
  is_movable (fields g) row column = true →
  ∃ f, store_get (_getFieldKey row column) (fields g) = Some f
       ∧ isReadOnly f = false
       ∧ setField cmd row column g =
           Ok true (mkKakurasu
                      (kept_history g ++ [mkMove row column (getStatus f) (status_of cmd)])
                      (_calcNextCurrentMoveIndex 1 g)
                      (store_put (_getFieldKey row column)
                         (moved row column (status_of cmd) f) (fields g))
                      (meta g)).
Proof.
  intros (f & Hf & Hro)%is_movable_Some. exists f. split; [done|]. split; [done|].
  by rewrite setField_eq, (_setFieldStatus_bound _ _ _ f), Hro.
Qed.

Lemma setField_true_inv cmd row column g g1 :
  setField cmd row column g = Ok true g1 →
  is_movable (fields g) row column = true.
Proof.
  rewrite setField_eq. unfold is_movable.
  destruct (store_get (_getFieldKey row column) (fields g)) as [f|] eqn:Hf.
  - rewrite (_setFieldStatus_bound _ _ _ f) by done.
    by destruct (isReadOnly f).
  - by rewrite _setFieldStatus_unbound.
Qed.

(** Undo at a cursor that names a move on a movable field. *)
Lemma undoMove_at g i m f :
  currentMoveIndex g = Some i → (0 ≤ i)%Z →
  moveHistory g !! Z.to_nat i = Some m →
  store_get (_getFieldKey (row m) (column m)) (fields g) = Some f →
  isReadOnly f = false →
  undoMove g =
    Ok true (mkKakurasu (moveHistory g)
               (if (i - 1 <? 0)%Z then None else Some (i - 1)%Z)
               (store_put (_getFieldKey (row m) (column m))
                  (moved (row m) (column m) (previousStatus m) f) (fields g))
               (meta g)).
Proof.
  intros Hc Hi Hm Hf Hro. rewrite undoMove_eq.
  unfold _calcNextCurrentMoveIndex. rewrite Hc.
  replace (i + 0)%Z with i by lia.
  destruct (Z.ltb_spec i 0); [lia|]. unfold getMoveFromHistoryAsCopy.
  destruct (Z.ltb_spec i 0); [lia|]. rewrite Hm.
  rewrite (_applyMove_bound _ f) by done. simpl. rewrite Hro.
  replace (i + -1)%Z with (i - 1)%Z by lia. reflexivity.
Qed.

(** Redo when the position after the cursor names a move on a movable
    field. *)
Lemma redoMove_at g j m f :
  _calcNextCurrentMoveIndex 1 g = Some j → (0 ≤ j)%Z →
  moveHistory g !! Z.to_nat j = Some m →
  store_get (_getFieldKey (row m) (column m)) (fields g) = Some f →
  isReadOnly f = false →
  redoMove g =
    Ok true (mkKakurasu (moveHistory g) (Some j)
               (store_put (_getFieldKey (row m) (column m))
                  (moved (row m) (column m) (nextStatus m) f) (fields g))
               (meta g)).
Proof.
  intros Hc Hj Hm Hf Hro. rewrite redoMove_eq, Hc.
  unfold getMoveFromHistoryAsCopy.
  destruct (Z.ltb_spec j 0); [lia|]. rewrite Hm.
  rewrite (_applyMove_bound _ f) by done. simpl. by rewrite Hro.
Qed.

Lemma undoMove_none g i :
  currentMoveIndex g = Some i → (0 ≤ i)%Z →
  moveHistory g !! Z.to_nat i = None → undoMove g = Ok false g.
Proof.
  intros Hc Hi Hm. rewrite undoMove_eq.
  unfold _calcNextCurrentMoveIndex. rewrite Hc.
  replace (i + 0)%Z with i by lia.
  destruct (Z.ltb_spec i 0); [lia|]. unfold getMoveFromHistoryAsCopy.
  destruct (Z.ltb_spec i 0); [lia|]. by rewrite Hm.
Qed.

Lemma redoMove_none g i :
  currentMoveIndex g = Some i → (0 ≤ i)%Z →
  moveHistory g !! Z.to_nat (i + 1) = None → redoMove g = Ok false g.
Proof.
  intros Hc Hi Hm. rewrite redoMove_eq.
  unfold _calcNextCurrentMoveIndex. rewrite Hc.
  destruct (Z.ltb_spec (i + 1) 0); [lia|]. unfold getMoveFromHistoryAsCopy.
  destruct (Z.ltb_spec (i + 1) 0); [lia|]. by rewrite Hm.
Qed.

(** ** Undo then redo *)

(** C5. From a game whose cursor is Empty or a non-negative index (every
    reachable game is such, [reachable_cursor_nonneg] below), let a move be
    applied successfully through
    [setFieldActive], [setFieldFlagged] or [setFieldClear].  Then
    [undoMove()] followed by [redoMove()] both return, and afterwards the
    status of the affected field and the cursor are what they were right
    after the move; in fact the whole game object is. *)
Theorem undo_redo_roundtrip cmd row column g g1 :
  cursor_nonneg g →
  setField cmd row column g = Ok true g1 →
  ∃ undone g2 redone g3,
    undoMove g1 = Ok undone g2
    ∧ redoMove g2 = Ok redone g3
    ∧ getStatus <$> store_get (_getFieldKey row column) (fields g3)
      = getStatus <$> store_get (_getFieldKey row column) (fields g1)
    ∧ currentMoveIndex g3 = currentMoveIndex g1
    ∧ g3 = g1.
Proof.
  intros Hc Hm. pose proof (setField_true_inv _ _ _ _ _ Hm) as Hmv.
  destruct (setField_movable cmd row column g Hmv) as (f & Hf & Hro & Heq).
  rewrite Heq in Hm. injection Hm as <-.
  set (m := mkMove row column (getStatus f) (status_of cmd)).
  set (k := _getFieldKey row column).
  set (g1 := mkKakurasu _ _ _ _).
  assert (Hk : store_get k (fields g1) = Some (moved row column (status_of cmd) f))
    by apply store_get_put_eq.
  destruct (currentMoveIndex g) as [i|] eqn:Hi.
  - (* the cursor was at index i *)
    unfold cursor_nonneg in Hc. rewrite Hi in Hc.
    assert (Hc1 : currentMoveIndex g1 = Some (i + 1)%Z).
    { simpl. unfold _calcNextCurrentMoveIndex. rewrite Hi.
      destruct (Z.ltb_spec (i + 1) 0); [lia | done]. }
    assert (Hh1 : moveHistory g1 = take (Z.to_nat (i + 1)) (moveHistory g) ++ [m]).
    { simpl. unfold kept_history. rewrite Hi, slice_0_nonneg by lia. done. }
    destruct (decide (Z.to_nat (i + 1) ≤ length (moveHistory g))) as [Hle|Hgt].
    + (* the new move sits at the cursor *)
      assert (Hm1 : moveHistory g1 !! Z.to_nat (i + 1) = Some m).
      { rewrite Hh1, lookup_app_r by (rewrite length_take; lia).
        rewrite length_take. by replace (_ - _) with 0 by lia. }
      rewrite (undoMove_at g1 (i + 1) m _ Hc1 ltac:(lia) Hm1 Hk Hro).
      eexists true, _, true, g1. split; [reflexivity|]. split; [|done].
      rewrite (redoMove_at _ (i + 1) m (moved row column (previousStatus m)
                 (moved row column (status_of cmd) f))); simpl.
      * unfold k. rewrite !store_put_put, <- Hc1. reflexivity.
      * unfold _calcNextCurrentMoveIndex; simpl.
        destruct (Z.ltb_spec (i + 1 - 1) 0); [lia|].
        destruct (Z.ltb_spec (i + 1 - 1 + 1) 0); [lia|]. f_equal; lia.
      * lia.
      * exact Hm1.
      * apply store_get_put_eq.
      * exact Hro.
    + (* the cursor pointed past the end: nothing to undo or redo *)
      assert (Hlen : length (moveHistory g1) = S (length (moveHistory g))).
      { rewrite Hh1, length_app, length_take. simpl. lia. }
      exists false, g1, false, g1.
      rewrite (undoMove_none g1 (i + 1)), (redoMove_none g1 (i + 1));
        try done; try lia; apply lookup_ge_None; lia.
  - (* the cursor was Empty *)
    assert (Hc1 : currentMoveIndex g1 = Some 0%Z) by (simpl; unfold _calcNextCurrentMoveIndex; by rewrite Hi).
    assert (Hm1 : moveHistory g1 !! Z.to_nat 0 = Some m)
      by (simpl; unfold kept_history; by rewrite Hi).
    rewrite (undoMove_at g1 0 m _ Hc1 ltac:(lia) Hm1 Hk Hro).
    eexists true, _, true, g1. split; [reflexivity|]. split; [|done].
    rewrite (redoMove_at _ 0 m (moved row column (previousStatus m)
               (moved row column (status_of cmd) f))); simpl.
    + unfold k. rewrite !store_put_put, <- Hc1. reflexivity.
    + done.
    + lia.
    + exact Hm1.
    + apply store_get_put_eq.
    + exact Hro.
Qed.

Lemma undo_redo_roundtrip_witness :
  cursor_nonneg game_2x2
  ∧ setField SetFieldActive 0 0 game_2x2
    = Ok true (final (setFieldActive 0 0 game_2x2))
  ∧ ∃ undone g2 redone g3,
      undoMove (final (setFieldActive 0 0 game_2x2)) = Ok undone g2
      ∧ redoMove g2 = Ok redone g3
      ∧ getStatus <$> store_get (_getFieldKey 0 0) (fields g3)
        = getStatus <$> store_get (_getFieldKey 0 0)
                          (fields (final (setFieldActive 0 0 game_2x2)))
      ∧ currentMoveIndex g3 = currentMoveIndex (final (setFieldActive 0 0 game_2x2))
      ∧ g3 = final (setFieldActive 0 0 game_2x2).
Proof.
  split; [exact I|]. split; [reflexivity|].
  apply (undo_redo_roundtrip SetFieldActive 0 0 game_2x2).
  - exact I.
  - reflexivity.
Defined.

(** ** Recording a move after an undo *)

Lemma new_move_general cmd row column g :
  cursor_nonneg g →
  is_movable (fields g) row column = true →
  ∃ f g',
    store_get (_getFieldKey row column) (fields g) = Some f
    ∧ setField cmd row column g = Ok true g'
    ∧ moveHistory g' =
        match currentMoveIndex g with
        | Some i => take (Z.to_nat i + 1) (moveHistory g)
        | None => []
        end ++ [mkMove row column (getStatus f) (status_of cmd)]
    ∧ currentMoveIndex g' =
        Some (match currentMoveIndex g with Some i => i + 1 | None => 0 end)%Z.
Proof.
  intros Hc Hmv.
  destruct (setField_movable cmd row column g Hmv) as (f & Hf & Hro & Heq).
  eexists f, _. split; [done|]. split; [exact Heq|]. simpl.
  unfold kept_history, _calcNextCurrentMoveIndex, cursor_nonneg in *.
  destruct (currentMoveIndex g) as [i|]; [|done].
  rewrite slice_0_nonneg by lia.
  replace (Z.to_nat (i + 1)) with (Z.to_nat i + 1) by lia.
  split; [done|]. by destruct (Z.ltb_spec (i + 1) 0); [lia|].
Qed.

Lemma branch_scenario cmd1 row1 column1 cmd2 row2 column2 cmd3 row3 column3 g :
  currentMoveIndex g = None →
  is_movable (fields g) row1 column1 = true →
  is_movable (fields g) row2 column2 = true →
  is_movable (fields g) row3 column3 = true →
  ∃ g',
    two_moves_undo_third cmd1 row1 column1 cmd2 row2 column2 cmd3 row3 column3 g
      = Ok true g'
    ∧ isPossibleToRedoMove g' = false
    ∧ getAmountMoves g' = 2.
Proof.
  intros Hc H1 H2 H3. destruct g as [h c fs mt]. simpl in *. subst c.
  unfold two_moves_undo_third.
  (* first move *)
  destruct (setField_movable cmd1 row1 column1 (mkKakurasu h None fs mt) H1)
    as (f1 & Hf1 & Hro1 & E1).
  unfold bind at 1. rewrite E1. clear E1. simpl in Hf1.
  unfold kept_history, _calcNextCurrentMoveIndex; simpl.
  set (g1 := mkKakurasu _ _ _ _).
  (* second move *)
  assert (H2a : is_movable (fields g1) row2 column2 = true)
    by (simpl; by erewrite is_movable_put).
  assert (H3a : is_movable (fields g1) row3 column3 = true)
    by (simpl; by erewrite is_movable_put).
  destruct (setField_movable cmd2 row2 column2 g1 H2a) as (f2 & Hf2 & Hro2 & E2).
  unfold bind at 1. rewrite E2. clear E2.
  unfold kept_history, _calcNextCurrentMoveIndex; simpl.
  set (g2 := mkKakurasu _ _ _ _).
  assert (H3b : is_movable (fields g2) row3 column3 = true)
    by (simpl; by erewrite is_movable_put).
  (* undo *)
  unfold bind at 1.
  rewrite (undoMove_at g2 1 (mkMove row2 column2 (getStatus f2) (status_of cmd2))
             (moved row2 column2 (status_of cmd2) f2));
    [ | reflexivity | lia | reflexivity | apply store_get_put_eq | exact Hro2 ].
  simpl.
  set (g3 := mkKakurasu _ _ _ _).
  (* third move *)
  assert (H3c : is_movable (fields g3) row3 column3 = true).
  { simpl. erewrite is_movable_put; [exact H3b | apply store_get_put_eq | done]. }
  destruct (setField_movable cmd3 row3 column3 g3 H3c) as (f3 & Hf3 & Hro3 & E3).
  rewrite E3. eexists. split; [reflexivity|]. split; reflexivity.
Qed.

(** C4. Recording a new move truncates the history to the moves up to and
    including the cursor position (to nothing when the cursor is Empty),
    appends the new move and advances the cursor by one (from Empty to
    index 0).  Concretely, in a game whose cursor is Empty, after a move, a
    second move, [undoMove()] and a third move, [isPossibleToRedoMove()] is
    false and the history has length 2. *)
Theorem new_move_discards_redoable :
  (∀ cmd row column g,
     cursor_nonneg g →
     is_movable (fields g) row column = true →
     ∃ f g',
       store_get (_getFieldKey row column) (fields g) = Some f
       ∧ setField cmd row column g = Ok true g'
       ∧ moveHistory g' =
           match currentMoveIndex g with
           | Some i => take (Z.to_nat i + 1) (moveHistory g)
           | None => []
           end ++ [mkMove row column (getStatus f) (status_of cmd)]
       ∧ currentMoveIndex g' =
           Some (match currentMoveIndex g with Some i => i + 1 | None => 0 end)%Z)
  ∧ (∀ cmd1 row1 column1 cmd2 row2 column2 cmd3 row3 column3 g,
       currentMoveIndex g = None →
       is_movable (fields g) row1 column1 = true →
       is_movable (fields g) row2 column2 = true →
       is_movable (fields g) row3 column3 = true →
       ∃ g',
         two_moves_undo_third cmd1 row1 column1 cmd2 row2 column2 cmd3 row3 column3 g
           = Ok true g'
         ∧ isPossibleToRedoMove g' = false
         ∧ getAmountMoves g' = 2).
Proof.
  split.
  - intros. by apply new_move_general.
  - intros. by apply branch_scenario.
Qed.

Lemma new_move_discards_redoable_witness :
  (cursor_nonneg game_2x2_moved
   ∧ is_movable (fields game_2x2_moved) 1 1 = true
   ∧ ∃ f g',
       store_get (_getFieldKey 1 1) (fields game_2x2_moved) = Some f
       ∧ setField SetFieldActive 1 1 game_2x2_moved = Ok true g'
       ∧ moveHistory g' =
           take (Z.to_nat 0 + 1) (moveHistory game_2x2_moved)
           ++ [mkMove 1 1 (getStatus f) STATUS_ACTIVE]
       ∧ currentMoveIndex g' = Some (0 + 1)%Z)
  ∧ (currentMoveIndex game_2x2 = None
     ∧ is_movable (fields game_2x2) 0 0 = true
     ∧ is_movable (fields game_2x2) 1 1 = true
     ∧ is_movable (fields game_2x2) 0 1 = true
     ∧ ∃ g',
         two_moves_undo_third SetFieldActive 0 0 SetFieldActive 1 1
                              SetFieldFlagged 0 1 game_2x2 = Ok true g'
         ∧ isPossibleToRedoMove g' = false
         ∧ getAmountMoves g' = 2).
Proof.
  split.
  - split; [vm_compute; discriminate|]. split; [reflexivity|].
    apply (proj1 new_move_discards_redoable SetFieldActive 1 1 game_2x2_moved).
    + vm_compute; discriminate.
    + reflexivity.
  - do 4 (split; [reflexivity|]).
    apply (proj2 new_move_discards_redoable
             SetFieldActive 0 0 SetFieldActive 1 1 SetFieldFlagged 0 1 game_2x2);
      reflexivity.
Defined.

(** ** resetGame *)

Lemma call_bound k method g f :
  store_get k (fields g) = Some f →
  call k method g = Ok tt (set_fields (store_put k (method f) (fields g)) g).
Proof. intros Hf. unfold call, bind, deref. by rewrite Hf. Qed.

Lemma reset_keys_cons k ks fs :
  reset_keys (k :: ks) fs
  = reset_keys ks (match store_get k fs with
                   | Some f => store_put k (_reset f) fs
                   | None => fs
                   end).
Proof. done. Qed.

Lemma forEach_call_reset ks g :
  (∀ k, k ∈ ks → is_Some (store_get k (fields g))) →
  forEach ks (λ fieldKey, call fieldKey _reset) g
  = Ok tt (set_fields (reset_keys ks (fields g)) g).
Proof.
  revert g. induction ks as [|k ks IH]; intros g Hks.
  - by destruct g.
  - destruct (Hks k) as [f Hf]; [by left|]. cbn [forEach].
    unfold bind. rewrite (call_bound _ _ _ f Hf), IH.
    + rewrite reset_keys_cons, Hf. reflexivity.
    + intros k' Hk'; simpl.
      destruct (decide (k = k')) as [<-|Hne].
      * rewrite store_get_put_eq. eauto.
      * rewrite store_get_put_ne by done. apply Hks. by right.
Qed.

Lemma reset_keys_keys ks fs :
  Object_keys (reset_keys ks fs) = Object_keys fs.
Proof.
  revert fs. induction ks as [|k ks IH]; intros fs; [done|].
  rewrite reset_keys_cons.
  destruct (store_get k fs) as [f|] eqn:Hf; [|apply IH].
  rewrite IH. by eapply store_put_keys.
Qed.

Lemma reset_keys_lookup ks fs k :
  store_get k (reset_keys ks fs)
  = if decide (k ∈ ks) then _reset <$> store_get k fs else store_get k fs.
Proof.
  revert fs. induction ks as [|k0 ks IH]; intros fs.
  - by rewrite decide_False by apply not_elem_of_nil.
  - rewrite reset_keys_cons.
    destruct (store_get k0 fs) as [f0|] eqn:Hf0.
    + rewrite IH. destruct (decide (k = k0)) as [->|Hne].
      * rewrite store_get_put_eq, Hf0. simpl.
        rewrite (decide_True (P := k0 ∈ k0 :: ks)) by by left.
        destruct (decide (k0 ∈ ks)); [|done]. simpl. by rewrite _reset_idempotent.
      * rewrite store_get_put_ne by done.
        destruct (decide (k ∈ ks)) as [Hin|Hnin].
        -- by rewrite decide_True by by right.
        -- rewrite decide_False; [done|]. by intros [?|?]%elem_of_cons.
    + rewrite IH. destruct (decide (k = k0)) as [->|Hne].
      * rewrite Hf0. by repeat case_decide.
      * destruct (decide (k ∈ ks)) as [Hin|Hnin].
        -- by rewrite decide_True by by right.
        -- rewrite decide_False; [done|]. by intros [?|?]%elem_of_cons.
Qed.

Lemma reset_all_lookup fs k :
  store_get k (reset_keys (Object_keys fs) fs) = _reset <$> store_get k fs.
Proof.
  rewrite reset_keys_lookup. case_decide as Hin; [done|].
  destruct (store_get k fs) eqn:Hk; [|done].
  exfalso. apply Hin, store_get_keys. by rewrite Hk.
Qed.

(** Resetting fields that are all fixed points of [_reset] changes
    nothing. *)
Lemma reset_keys_fixed ks fs :
  (∀ k f, store_get k fs = Some f → _reset f = f) → reset_keys ks fs = fs.
Proof.
  intros Hfix. induction ks as [|k ks IH]; [done|].
  rewrite reset_keys_cons.
  destruct (store_get k fs) as [f|] eqn:Hf; [|done].
  rewrite (Hfix k f Hf), store_put_same by done. done.
Qed.

Lemma resetGame_eq g :
  resetGame g =
    Ok tt (mkKakurasu CLEANVALUE_MOVEHISTORY CLEANVALUE_CURRENTMOVEINDEX
             (reset_keys (Object_keys (fields g)) (fields g)) (meta g)).
Proof.
  unfold resetGame, bind at 1, gets. unfold bind at 1.
  rewrite forEach_call_reset; [done|].
  intros k Hk. by apply store_get_keys.
Qed.

Lemma is_reset_of__reset f : is_reset_of f (_reset f).
Proof.
  unfold is_reset_of, getStatus, isReadOnly, isSolution.
  by rewrite _reset_status, _reset_readOnly, _reset_solution.
Qed.

(** C8. [resetGame()] returns; afterwards the same coordinates have fields,
    every field that is not read-only is Clear, every read-only field has
    the status it had, the [readOnly] and [solution] flags are what they
    were, the move history is empty and the cursor is Empty.  A second
    [resetGame()] leaves this object exactly as it is. *)
Theorem resetGame_clears_and_is_idempotent g :
  ∃ g1,
    resetGame g = Ok tt g1
    ∧ Object_keys (fields g1) = Object_keys (fields g)
    ∧ (∀ k, option_Forall2 is_reset_of (store_get k (fields g)) (store_get k (fields g1)))
    ∧ moveHistory g1 = []
    ∧ currentMoveIndex g1 = None
    ∧ resetGame g1 = Ok tt g1.
Proof.
  eexists. split; [apply resetGame_eq|]. simpl.
  split; [apply reset_keys_keys|].
  split.
  { intros k. rewrite reset_all_lookup.
    destruct (store_get k (fields g)); constructor. apply is_reset_of__reset. }
  split; [done|]. split; [done|].
  rewrite resetGame_eq; simpl. rewrite reset_keys_keys.
  rewrite (reset_keys_fixed _ (reset_keys _ _)); [done|].
  intros k f. rewrite reset_all_lookup.
  destruct (store_get k (fields g)); simpl; [|done].
  intros [= <-]. apply _reset_idempotent.
Qed.

(** ** The cursor stays inside the history *)

Lemma history_set_fields fs g : history (set_fields fs g) = history g.
Proof. done. Qed.

Lemma cursor_consistent_history g g' :
  history g' = history g → cursor_consistent g → cursor_consistent g'.
Proof.
  unfold history, cursor_consistent. intros [= Hh Hc]. by rewrite Hh, Hc.
Qed.

Lemma keeps_preserves {A} (c : M A) : keeps history c → preserves_consistency c.
Proof. intros Hk g. apply cursor_consistent_history, Hk. Qed.

Lemma preserves_bind {A B} (c : M A) (k : A → M B) :
  preserves_consistency c → (∀ a, preserves_consistency (k a)) →
  preserves_consistency (bind c k).
Proof.
  intros Hc Hk g Hg. unfold bind. specialize (Hc g Hg).
  destruct (c g) as [a g'|g']; simpl in *; [by apply Hk | done].
Qed.

Lemma setField_consistent cmd row column g g' :
  cursor_consistent g →
  setField cmd row column g = Ok true g' →
  currentMoveIndex g' = Some (Z.of_nat (length (moveHistory g')) - 1)%Z.
Proof.
  intros Hg Hm. pose proof (setField_true_inv _ _ _ _ _ Hm) as Hmv.
  destruct (setField_movable cmd row column g Hmv) as (f & Hf & Hro & Heq).
  rewrite Heq in Hm. injection Hm as <-. simpl.
  unfold cursor_consistent, kept_history, _calcNextCurrentMoveIndex in *.
  destruct (currentMoveIndex g) as [i|]; [|done].
  rewrite slice_0_nonneg by lia.
  destruct (Z.ltb_spec (i + 1) 0); [lia|].
  rewrite length_app, length_take; simpl. f_equal. lia.
Qed.

Lemma preserves_setField cmd row column :
  preserves_consistency (setField cmd row column).
Proof.
  intros g Hg.
  destruct (setField cmd row column g) as [[] g'|g'] eqn:E; simpl.
  - pose proof (setField_consistent _ _ _ _ _ Hg E) as Hc.
    unfold cursor_consistent. rewrite Hc.
    assert (0 < length (moveHistory g')); [|lia].
    pose proof (setField_true_inv _ _ _ _ _ E) as Hmv.
    destruct (setField_movable cmd row column g Hmv) as (f & Hf & Hro & Heq).
    rewrite Heq in E. injection E as <-. simpl. rewrite length_app; simpl. lia.
  - (* rejected: only a field object got its coordinates *)
    revert E. rewrite setField_eq.
    destruct (store_get (_getFieldKey row column) (fields g)) as [f|] eqn:Hf.
    + rewrite (_setFieldStatus_bound _ _ _ f) by done.
      destruct (isReadOnly f); [|done]. by intros [= <-].
    + by rewrite _setFieldStatus_unbound.
  - revert E. rewrite setField_eq.
    destruct (store_get (_getFieldKey row column) (fields g)) as [f|] eqn:Hf.
    + rewrite (_setFieldStatus_bound _ _ _ f) by done. by destruct (isReadOnly f).
    + rewrite _setFieldStatus_unbound by done. by intros [= <-].
Qed.

Lemma preserves_changeActiveStatus row column :
  preserves_consistency (changeActiveStatus row column).
Proof.
  apply preserves_bind; [apply keeps_preserves, keeps_getField, history_set_fields|].
  intros field.
  apply preserves_bind; [apply keeps_preserves, keeps_deref|]. intros f.
  destruct (isClear f).
  - apply (preserves_setField SetFieldActive).
  - apply (preserves_setField SetFieldClear).
Qed.

Lemma preserves_changeFlagStatus row column :
  preserves_consistency (changeFlagStatus row column).
Proof.
  apply preserves_bind; [apply keeps_preserves, keeps_getField, history_set_fields|].
  intros field.
  apply preserves_bind; [apply keeps_preserves, keeps_deref|]. intros f.
  destruct (isClear f).
  - apply (preserves_setField SetFieldFlagged).
  - apply (preserves_setField SetFieldClear).
Qed.

Lemma preserves_undoMove : preserves_consistency undoMove.
Proof.
  intros g Hg. rewrite undoMove_eq.
  destruct (getMoveFromHistoryAsCopy _ g) as [m|]; [|done].
  eapply cursor_consistent_history;
    [apply (keeps__applyMove history history_set_fields)|].
  unfold cursor_consistent, _calcNextCurrentMoveIndex in *; simpl.
  destruct (currentMoveIndex g) as [i|]; [|done].
  destruct (Z.ltb_spec (i + -1) 0); [done | lia].
Qed.

Lemma preserves_redoMove : preserves_consistency redoMove.
Proof.
  intros g Hg. rewrite redoMove_eq.
  destruct (getMoveFromHistoryAsCopy _ g) as [m|] eqn:Hm; [|done].
  eapply cursor_consistent_history;
    [apply (keeps__applyMove history history_set_fields)|].
  unfold cursor_consistent; simpl.
  unfold getMoveFromHistoryAsCopy in Hm.
  destruct (_calcNextCurrentMoveIndex 1 g) as [j|]; [|done].
  destruct (Z.ltb_spec j 0); [done|].
  apply lookup_lt_Some in Hm. lia.
Qed.

Lemma preserves_resetGame : preserves_consistency resetGame.
Proof. intros g _. by rewrite resetGame_eq. Qed.

(** C10. Every public operation that changes the game, i.e. the three
    status-setting moves, the two toggles, [undoMove], [redoMove] and
    [resetGame], preserves the consistency of cursor and history: the cursor
    is Empty or an index [i] with [0 <= i < moveHistory.length].  This holds
    also when the method raises.  After a successful status-setting move the
    cursor is [moveHistory.length - 1]. *)
Theorem cursor_history_invariant c g :
  cursor_consistent g →
  cursor_consistent (execute c g)
  ∧ ∀ cmd row column g',
      setField cmd row column g = Ok true g' →
      currentMoveIndex g' = Some (Z.of_nat (length (moveHistory g')) - 1)%Z.
Proof.
  intros Hg. split.
  - destruct c; simpl.
    + by apply preserves_setField.
    + by apply preserves_changeActiveStatus.
    + by apply preserves_changeFlagStatus.
    + by apply preserves_undoMove.
    + by apply preserves_redoMove.
    + by apply preserves_resetGame.
  - intros cmd row column g'. by apply setField_consistent.
Qed.

Lemma cursor_history_invariant_witness :
  cursor_consistent game_2x2_moved
  ∧ cursor_consistent (execute (SetField SetFieldFlagged 1 0) game_2x2_moved)
  ∧ (setField SetFieldFlagged 1 0 game_2x2_moved
       = Ok true (final (setFieldFlagged 1 0 game_2x2_moved))
     ∧ currentMoveIndex (final (setFieldFlagged 1 0 game_2x2_moved))
       = Some (Z.of_nat (length (moveHistory (final (setFieldFlagged 1 0 game_2x2_moved)))) - 1)%Z).
Proof.
  assert (H : cursor_consistent game_2x2_moved) by (vm_compute; split; discriminate || reflexivity).
  split; [exact H|].
  destruct (cursor_history_invariant (SetField SetFieldFlagged 1 0) game_2x2_moved H)
    as [H1 H2].
  split; [exact H1|]. split; [reflexivity|].
  apply (H2 SetFieldFlagged 1 0). reflexivity.
Defined.

(** ** The constructor *)

Section KeepsLoad.
Context {X : Type} (proj : Kakurasu → X).
Hypothesis proj_fields : ∀ fs g, proj (set_fields fs g) = proj g.

(** Loading the constraints rewrites the two constraint maps only. *)
Hypothesis proj_contraints :
  ∀ g rs cs,
    proj (set_meta (mkMeta (amountRows (meta g)) (amountColumns (meta g)) rs cs) g)
    = proj g.

Lemma keeps__loadContraintsForFields forRow index :
  keeps proj (_loadFieldMetaInformationsContraintsForFields forRow index).
Proof.
  apply keeps_bind; [by apply keeps__getFieldsInRowColumn | intros fs].
  apply keeps_bind.
  - apply keeps_foldM. intros acc field.
    apply keeps_bind; [by apply keeps__getWeightForField | intros w].
    apply keeps_bind; [by apply keeps_deref | intros f].
    apply keeps_if; apply keeps_ret.
  - intros v. apply keeps_modify. intros g. unfold set_contraint.
    destruct forRow; apply proj_contraints.
Qed.

Lemma keeps__loadContraintsForRowColumn forRow :
  keeps proj (_loadFieldMetaInformationsConstraintsForRowColumn forRow).
Proof.
  apply keeps_bind; [apply keeps_gets | intros n].
  apply keeps_forEach. intros i. apply keeps__loadContraintsForFields.
Qed.

Lemma keeps__loadContraints : keeps proj _loadFieldMetaInformationsContraints.
Proof.
  apply keeps_bind; [apply keeps_modify; intros g; apply proj_contraints | intros _].
  apply keeps_bind; [apply keeps__loadContraintsForRowColumn | intros _].
  apply keeps__loadContraintsForRowColumn.
Qed.

(** The rest of the loader writes the meta information as a whole. *)
Hypothesis proj_meta : ∀ m g, proj (set_meta m g) = proj g.

Lemma keeps__loadAmounts : keeps proj _loadFiledMetaInformationsAmountRowsAndColumns.
Proof.
  apply keeps_bind; [apply keeps_gets | intros ks].
  destruct (highest_keys ks). apply keeps_modify. intros g. apply proj_meta.
Qed.

Lemma keeps__loadFieldMetaInformations : keeps proj _loadFieldMetaInformations.
Proof.
  apply keeps_bind; [apply keeps_modify; intros g; apply proj_meta | intros _].
  apply keeps_bind; [apply keeps__loadAmounts | intros _].
  apply keeps__loadContraints.
Qed.

(** The part of the constructor that builds the field objects and the
    meta information. *)
Lemma keeps_constructor_fields (st : Snapshot) (tape : Tape) :
  keeps proj (constructor_fields st tape).
Proof.
  apply keeps_bind.
  { destruct (s_fields st); [apply keeps_ret|].
    destruct (generateLevel _ _ _) as [[? ?]|]; [apply keeps_ret | apply keeps_throw]. }
  intros fieldsJSON.
  apply keeps_bind; [apply keeps_modify; intros g; apply proj_fields | intros _].
  apply keeps_bind; [|intros _; apply keeps__loadFieldMetaInformations].
  apply keeps_forEach. intros k.
  destruct (store_get k fieldsJSON); [|apply keeps_throw].
  apply keeps_modify. intros g. apply proj_fields.
Qed.
End KeepsLoad.

(** The history and the cursor of the constructed object, in full. *)
Lemma constructor_history st tape :
  history (final (new_Kakurasu st tape)) =
    (default [] (s_moveHistory st),
     if no_index (or_null (s_currentMoveIndex st))
        && bool_decide (0 < length (default [] (s_moveHistory st)))
     then Some (Z.of_nat (length (default [] (s_moveHistory st))) - 1)%Z
     else or_null (s_currentMoveIndex st)).
Proof.
  unfold new_Kakurasu, constructor.
  unfold bind at 1, modify at 1. unfold bind at 1, modify at 1.
  unfold bind at 1, gets at 1. unfold bind at 1, gets at 1.
  unfold bind at 1. simpl. unfold CLEANVALUE_MOVEHISTORY.
  destruct (no_index (or_null (s_currentMoveIndex st))
            && bool_decide (0 < length (default [] (s_moveHistory st)))); simpl.
  - by rewrite (keeps_constructor_fields history).
  - by rewrite (keeps_constructor_fields history).
Qed.

(** C3 (as amended). At construction from a snapshot, a [currentMoveIndex]
    of [null] is read as the Empty cursor when the snapshot's move history
    is empty, and as the index of the last move when the history has moves;
    a supplied index other than 0 is read as the committed cursor index. *)
Theorem constructor_reads_cursor st tape :
  (s_currentMoveIndex st = None →
   currentMoveIndex (final (new_Kakurasu st tape)) =
     if bool_decide (length (default [] (s_moveHistory st)) = 0) then None
     else Some (Z.of_nat (length (default [] (s_moveHistory st))) - 1)%Z)
  ∧ (∀ i, s_currentMoveIndex st = Some i → i ≠ 0%Z →
          currentMoveIndex (final (new_Kakurasu st tape)) = Some i).
Proof.
  pose proof (constructor_history st tape) as H.
  unfold history in H. injection H as _ ->. split.
  - intros ->. simpl. by repeat case_bool_decide; try lia.
  - intros i -> Hi. unfold or_null, no_index.
    rewrite bool_decide_false by done. simpl. by rewrite bool_decide_false.
Qed.

Lemma constructor_reads_cursor_witness :
  (s_currentMoveIndex snapshot_undone = None
   ∧ currentMoveIndex (final (new_Kakurasu snapshot_undone tape_zero)) = Some (1 - 1)%Z)
  ∧ (s_currentMoveIndex (mkSnapshot (Some [mkMove 0 0 0 1]) (Some 5%Z) (Some fields_2x2))
       = Some 5%Z
     ∧ 5%Z ≠ 0%Z
     ∧ currentMoveIndex
         (final (new_Kakurasu
                   (mkSnapshot (Some [mkMove 0 0 0 1]) (Some 5%Z) (Some fields_2x2))
                   tape_zero)) = Some 5%Z).
Proof.
  split.
  - split; [reflexivity|].
    apply (proj1 (constructor_reads_cursor snapshot_undone tape_zero)). reflexivity.
  - split; [reflexivity|]. split; [discriminate|].
    apply (proj2 (constructor_reads_cursor
                    (mkSnapshot (Some [mkMove 0 0 0 1]) (Some 5%Z) (Some fields_2x2))
                    tape_zero) 5%Z); [reflexivity | discriminate].
Defined.

(** C3 as stated fails: the constructor does not read [null] as the Empty
    cursor.  The snapshot of a game whose only move was undone is loaded
    with the cursor on that move. *)
Lemma constructor_null_is_not_empty :
  cursor_as_documented snapshot_undone = None
  ∧ currentMoveIndex (final (new_Kakurasu snapshot_undone tape_zero))
    ≠ cursor_as_documented snapshot_undone.
Proof. split; [reflexivity | discriminate]. Qed.

(** The supplied index 0 is taken for an absent cursor as well: the
    constructed game is positioned on the last move. *)
Lemma constructor_zero_cursor :
  s_currentMoveIndex snapshot_at_zero = Some 0%Z
  ∧ currentMoveIndex (final (new_Kakurasu snapshot_at_zero tape_zero)) = Some 1%Z.
Proof. split; reflexivity. Qed.

(** ** The win condition *)

(** C1 (the code departs from it). On the 3 x 3 board whose only solution
    field is (0,2), with (0,0) and (0,1) Active, every row sum equals its
    target but column 0 sums to 1 against the target 0; [isGameWon()]
    returns [true] all the same, because its column pass repeats the row
    checks. *)
Theorem isGameWon_ignores_columns :
  returned (isGameWon game_3x3_played) = Some true
  ∧ all_constraints_satisfied game_3x3_played = false
  ∧ returned (isColumnConstraintSatisfied 0 game_3x3_played) = Some false
  ∧ getConstraintValueForColumn 0 game_3x3_played = Some (Some 0)
  ∧ returned (_getRowColumnSumValue false 0 game_3x3_played) = Some (Some 1).
Proof. vm_compute. repeat split; reflexivity. Qed.

(** ** Generated grids *)

(** C2 (the code departs from it). For a grid generated with 2 rows and 3
    columns the constructed game reports 2 columns, and the target cached
    for row 1 leaves out the solution field in column 2. *)
Theorem generated_2x3_reports_2_columns :
  ∃ fieldsJSON pos g,
    generateLevel config_2x3 tape_zero 0 = Some (fieldsJSON, pos)
    ∧ Object_keys fieldsJSON
      = [_getFieldKey 0 0; _getFieldKey 0 1; _getFieldKey 0 2;
         _getFieldKey 1 0; _getFieldKey 1 1; _getFieldKey 1 2]
    ∧ new_Kakurasu (mkSnapshot None None (Some fieldsJSON)) tape_zero = Ok tt g
    ∧ getAmountRows g = 2
    ∧ getAmountColumns g = 2
    ∧ solution_sum_row fieldsJSON 1 3 = 6
    ∧ getConstraintValueForRow 1 g = Some (Some 3).
Proof. vm_compute. eexists _, _, _. repeat split; reflexivity. Qed.

(** With 3 rows and 2 columns the constructor raises: the loader takes the
    grid to have 3 columns and reads a field that is not there. *)
Lemma generated_3x2_constructor_raises :
  ∃ fieldsJSON pos,
    generateLevel config_3x2 tape_zero 0 = Some (fieldsJSON, pos)
    ∧ returned (new_Kakurasu (mkSnapshot None None (Some fieldsJSON)) tape_zero) = None.
Proof. vm_compute. eexists _, _. split; reflexivity. Qed.

(** ** Generator configuration *)

(** C9 (the code departs from it). A configured minimum of 0 is not kept:
    it is taken for an absent value and replaced by the default 1.  A
    configured maximum of 0 is replaced by the default [rows / 2]. *)
Theorem configured_zero_is_replaced :
  in_amountMinimumInRow config_zero_minimum = Some 0%Q
  ∧ (amountMinimumInRow (normalizeConfig config_zero_minimum) == 1)%Q
  ∧ ¬ (amountMinimumInRow (normalizeConfig config_zero_minimum) == 0)%Q
  ∧ in_amountMaximumInRow config_zero_maximum = Some 0%Q
  ∧ (amountMaximumInRow (normalizeConfig config_zero_maximum) == 5 # 2)%Q.
Proof. vm_compute. repeat split; try reflexivity. discriminate. Qed.

(** The parts of the normalization that hold for every configuration. *)

Lemma Qltb_spec (a b : Q) : reflect (a < b)%Q (Qltb a b).
Proof. unfold Qlt, Qltb. apply Z.ltb_spec0. Qed.

Lemma nat_to_Q_nonneg (n : nat) : (0 <= nat_to_Q n)%Q.
Proof. unfold nat_to_Q, Qle; simpl. lia. Qed.

(** After the normalization every bound lies between 0 and the number of
    rows, respectively columns, and no maximum is below its minimum. *)
Lemma normalizeConfig_bounds (config : ConfigIn) :
  let c := normalizeConfig config in
  (0 <= amountMinimumInRow c)%Q
  ∧ (amountMinimumInRow c <= amountMaximumInRow c)%Q
  ∧ (amountMaximumInRow c <= nat_to_Q (rows c))%Q
  ∧ (0 <= amountMinimumInColumn c)%Q
  ∧ (amountMinimumInColumn c <= amountMaximumInColumn c)%Q
  ∧ (amountMaximumInColumn c <= nat_to_Q (columns c))%Q.
Proof.
  unfold normalizeConfig. cbv zeta. simpl.
  set (r := or_nat (in_rows config) 5).
  set (cs := or_nat (in_columns config) r).
  pose proof (nat_to_Q_nonneg r) as Hr.
  pose proof (nat_to_Q_nonneg cs) as Hcs.
  repeat match goal with
         | |- context [Qltb ?a ?b] => destruct (Qltb_spec a b)
         end; repeat split; lra.
Qed.

(** When both bounds are configured with values other than 0 and the
    minimum exceeds the maximum, the normalized maximum is the normalized
    minimum. *)
Lemma normalizeConfig_raises_maximum (config : ConfigIn) (lo hi : Q) :
  in_amountMinimumInRow config = Some lo →
  in_amountMaximumInRow config = Some hi →
  ¬ (lo == 0)%Q → ¬ (hi == 0)%Q → (hi < lo)%Q →
  (amountMaximumInRow (normalizeConfig config)
   == amountMinimumInRow (normalizeConfig config))%Q.
Proof.
  intros Hlo Hhi Hlo0 Hhi0 Hlt.
  unfold normalizeConfig. cbv zeta. simpl. rewrite Hlo, Hhi. unfold or_Q.
  destruct (Qeq_bool lo 0) eqn:E1; [by apply Qeq_bool_iff in E1|].
  destruct (Qeq_bool hi 0) eqn:E2; [by apply Qeq_bool_iff in E2|].
  set (r := or_nat (in_rows config) 5).
  pose proof (nat_to_Q_nonneg r) as Hr.
  repeat match goal with
         | |- context [Qltb ?a ?b] => destruct (Qltb_spec a b)
         end; lra.
Qed.

(** ** The keys of a generated grid *)

Section StoreKeys.
Context {V : Type}.
Implicit Types (k : Key) (v : V) (o : list (Key * V)).

Lemma store_put_fresh k v o :
  k ∉ Object_keys o → Object_keys (store_put k v o) = Object_keys o ++ [k].
Proof.
  unfold Object_keys. induction o as [|[k0 v0] o IH]; csimpl; [done|].
  intros Hk. apply not_elem_of_cons in Hk as [Hne Hk].
  rewrite decide_False by done. csimpl. by rewrite IH.
Qed.

Lemma store_put_keys_bound k v o :
  k ∈ Object_keys o → Object_keys (store_put k v o) = Object_keys o.
Proof.
  intros [v0 Hv0]%store_get_keys. by eapply store_put_keys.
Qed.

(** Writing the keys [ks], none of them there yet, one after the other. *)
Lemma keys_foldl_put (value : Key → V) ks o :
  NoDup ks → (∀ k, k ∈ ks → k ∉ Object_keys o) →
  Object_keys (foldl (λ o k, store_put k (value k) o) o ks) = Object_keys o ++ ks.
Proof.
  revert o. induction ks as [|k ks IH]; intros o Hnd Hfresh; simpl.
  - by rewrite app_nil_r.
  - apply NoDup_cons in Hnd as [Hk Hnd].
    rewrite IH; [|done|].
    + rewrite store_put_fresh by (apply Hfresh; by left).
      by rewrite <- app_assoc.
    + intros k' Hk'. rewrite store_put_fresh by (apply Hfresh; by left).
      rewrite elem_of_app, list_elem_of_singleton.
      intros [Hin | ->]; [|done]. eapply Hfresh; [|done]. by right.
Qed.
End StoreKeys.

Lemma grid_keys_S rows columns :
  grid_keys (S rows) columns
  = grid_keys rows columns ++ ((λ c, _getFieldKey rows c) <$> seq 0 columns).
Proof.
  unfold grid_keys. rewrite seq_S, fmap_app, concat_app. simpl.
  by rewrite app_nil_r.
Qed.

Lemma elem_of_grid_keys rows columns r c :
  _getFieldKey r c ∈ grid_keys rows columns ↔ r < rows ∧ c < columns.
Proof.
  induction rows as [|rows IH].
  - split; [by intros ?%elem_of_nil | lia].
  - rewrite grid_keys_S, elem_of_app, IH, list_elem_of_fmap.
    split.
    + intros [[? ?] | (c' & [= -> ->] & Hc)]; [lia|].
      apply elem_of_seq in Hc. lia.
    + intros [Hr Hc]. destruct (decide (r = rows)) as [->|]; [|left; lia].
      right. exists c. split; [done|]. apply elem_of_seq. lia.
Qed.

Lemma NoDup_grid_keys rows columns : NoDup (grid_keys rows columns).
Proof.
  induction rows as [|rows IH]; [constructor|].
  rewrite grid_keys_S. apply NoDup_app. split; [done|]. split.
  - intros [r c] Hin (c' & [= -> ->] & Hc)%list_elem_of_fmap.
    apply elem_of_grid_keys in Hin. lia.
  - apply NoDup_fmap_2; [|apply NoDup_seq]. by intros c1 c2 [= ->].
Qed.

Lemma _initEmptyField_keys rows columns :
  Object_keys (_initEmptyField rows columns) = grid_keys rows columns.
Proof.
  unfold _initEmptyField. induction rows as [|rows IH]; [done|].
  rewrite seq_S, foldl_app, grid_keys_S. simpl.
  rewrite <- IH.
  set (fs := foldl _ [] (seq 0 rows)) in *.
  rewrite <- (foldl_fmap (λ fs k, store_put k (new_KakurasuField default_FieldState) fs)
                fs (seq 0 columns) (λ x, _getFieldKey rows x)).
  apply (keys_foldl_put (λ _, new_KakurasuField default_FieldState)).
  - apply NoDup_fmap_2; [|apply NoDup_seq]. by intros c1 c2 [= ->].
  - intros [r c] (c' & [= -> ->] & Hc)%list_elem_of_fmap. rewrite IH.
    rewrite elem_of_grid_keys. lia.
Qed.

Lemma _fieldsAsJSON_keys fs :
  NoDup (Object_keys fs) → Object_keys (_fieldsAsJSON fs) = Object_keys fs.
Proof.
  intros Hnd. unfold _fieldsAsJSON.
  assert (Hgen : ∀ ks acc,
    (∀ k, k ∈ ks → is_Some (store_get k fs)) →
    foldl (λ fieldsCopy fieldKey,
             match store_get fieldKey fs with
             | Some field => store_put fieldKey (getState field) fieldsCopy
             | None => fieldsCopy
             end) acc ks
    = foldl (λ o k, store_put k (default default_FieldState (getState <$> store_get k fs)) o)
            acc ks).
  { induction ks as [|k ks IH]; intros acc Hks; [done|]. simpl.
    destruct (Hks k) as [f Hf]; [by left|]. rewrite Hf. simpl.
    apply IH. intros k' Hk'. apply Hks. by right. }
  rewrite Hgen by (intros k Hk; by apply store_get_keys).
  rewrite (keys_foldl_put (λ k, default default_FieldState (getState <$> store_get k fs)));
    [done | done | intros k _; apply not_elem_of_nil].
Qed.

(** A generator loop keeps what each of its iterations keeps. *)
Lemma gfoldM_invariant {A B} (P : B → Prop) (body : B → A → Gen B) l :
  (∀ acc x tape pos acc' pos',
     P acc → body acc x tape pos = Some (acc', pos') → P acc') →
  ∀ acc tape pos acc' pos',
    P acc → gfoldM body acc l tape pos = Some (acc', pos') → P acc'.
Proof.
  intros Hbody. induction l as [|x l IH]; intros acc tape pos acc' pos' Hacc; simpl.
  - unfold gret. by intros [= <- _].
  - unfold gbind. destruct (body acc x tape pos) as [[acc1 pos1]|] eqn:E; [|done].
    intros H. eapply IH; [|exact H]. eapply Hbody; [exact Hacc | exact E].
Qed.

Lemma mark_solution_keys forRow outerIndex fs solutionIndex tape pos fs' pos' :
  mark_solution forRow outerIndex fs solutionIndex tape pos = Some (fs', pos') →
  Object_keys fs' = Object_keys fs.
Proof.
  unfold mark_solution. destruct solutionIndex as [i|]; [|done].
  destruct (store_get _ fs) as [f|] eqn:Hf; [|done].
  unfold gret. intros [= <- _]. by eapply store_put_keys.
Qed.

Lemma _setSolutionFieldsForRowColumn_keys forRow fs config tape pos fs' pos' :
  _setSolutionFieldsForRowColumn forRow fs config tape pos = Some (fs', pos') →
  Object_keys fs' = Object_keys fs.
Proof.
  unfold _setSolutionFieldsForRowColumn.
  apply (gfoldM_invariant (λ x, Object_keys x = Object_keys fs)); [|done].
  intros acc outerIndex tape1 pos1 acc1 pos2 Hacc. unfold gbind.
  destruct (if forRow then _ else _) as [[solutionIndexes pos3]|]; [|done].
  apply (gfoldM_invariant (λ x, Object_keys x = Object_keys fs)); [|done].
  intros acc2 i tape2 pos4 acc3 pos5 Hacc2 Hm.
  by rewrite (mark_solution_keys _ _ _ _ _ _ _ _ Hm).
Qed.

(** Whatever the draws, a generated level has a field for every
    coordinate of the configured grid, in row-major order. *)
Lemma generateLevel_keys config tape pos fieldsJSON pos' :
  generateLevel config tape pos = Some (fieldsJSON, pos') →
  Object_keys fieldsJSON
  = grid_keys (rows (normalizeConfig config)) (columns (normalizeConfig config)).
Proof.
  unfold generateLevel. cbv zeta. unfold gbind.
  destruct (_setSolutionFieldsForRowColumn true _ _ _ _) as [[fs1 pos1]|] eqn:E1; [|done].
  destruct (_setSolutionFieldsForRowColumn false _ _ _ _) as [[fs2 pos2]|] eqn:E2; [|done].
  unfold gret. intros [= <- _].
  apply _setSolutionFieldsForRowColumn_keys in E1, E2.
  rewrite _fieldsAsJSON_keys; rewrite E2, E1, _initEmptyField_keys;
    [done | apply NoDup_grid_keys].
Qed.

(** The loop of the constructor over the keys of the snapshot's fields. *)
Lemma constructor_loop_keys (fieldsJSON : list (Key * FieldState)) g :
  NoDup (Object_keys fieldsJSON) →
  ∃ g',
    forEach (Object_keys fieldsJSON)
      (λ fieldKey,
         match store_get fieldKey fieldsJSON with
         | Some fieldJSON =>
             modify (λ g, set_fields
                            (store_put fieldKey (new_KakurasuField fieldJSON) (fields g)) g)
         | None => throw
         end) (set_fields [] g) = Ok tt g'
    ∧ Object_keys (fields g') = Object_keys fieldsJSON
    ∧ meta g' = meta g.
Proof.
  intros Hnd.
  assert (Hgen : ∀ ks g0,
    (∀ k, k ∈ ks → is_Some (store_get k fieldsJSON)) →
    forEach ks
      (λ fieldKey,
         match store_get fieldKey fieldsJSON with
         | Some fieldJSON =>
             modify (λ g, set_fields
                            (store_put fieldKey (new_KakurasuField fieldJSON) (fields g)) g)
         | None => throw
         end) g0
    = Ok tt (set_fields
               (foldl (λ o k, store_put k
                         (new_KakurasuField
                            (default default_FieldState (store_get k fieldsJSON))) o)
                      (fields g0) ks) g0)).
  { induction ks as [|k ks IH]; intros g0 Hks.
    - by destruct g0.
    - cbn [forEach]. destruct (Hks k) as [f Hf]; [by left|].
      unfold bind. rewrite Hf. unfold modify. rewrite IH.
      + simpl. by rewrite Hf.
      + intros k' Hk'. apply Hks. by right. }
  eexists. split; [apply Hgen; intros k Hk; by apply store_get_keys|].
  simpl. split; [|done].
  rewrite (keys_foldl_put
             (λ k, new_KakurasuField (default default_FieldState (store_get k fieldsJSON))));
    [done | done | intros k _; apply not_elem_of_nil].
Qed.

(** The scan of the keys: the "column" maximum is the largest first
    component. *)
Lemma highest_keys_column ks hr hc :
  (foldl highest_step (hr, hc) ks).2
  = foldl (λ h k, Some (match h with Some m => m `max` split_0 k | None => split_0 k end))
          hc ks.
Proof.
  revert hr hc. induction ks as [|k ks IH]; intros hr hc; [done|].
  cbn [foldl]. destruct (highest_step (hr, hc) k) as [hr' hc'] eqn:E.
  rewrite IH. f_equal. unfold highest_step in E. injection E as _ <-.
  unfold falsy, less_than. destruct hc as [m|]; simpl; [|done].
  repeat case_bool_decide; simpl; f_equal; lia.
Qed.

Lemma highest_column_grid rows columns :
  0 < columns →
  (highest_keys (grid_keys rows columns)).2
  = match rows with 0 => None | S r => Some r end.
Proof.
  intros Hc. unfold highest_keys. rewrite highest_keys_column.
  induction rows as [|rows IH]; [done|].
  rewrite grid_keys_S, foldl_app, IH.
  destruct columns as [|columns]; [lia|].
  change (seq 0 (S columns)) with (0 :: seq 1 columns). csimpl.
  assert (Hrow : ∀ l, foldl (λ h k, Some (match h with
                                          | Some m => m `max` split_0 k
                                          | None => split_0 k
                                          end))
                        (Some rows) ((λ c, _getFieldKey rows c) <$> l) = Some rows).
  { induction l as [|c l IHl]; [done|]. csimpl.
    unfold split_0 at 2; simpl. by rewrite Nat.max_id. }
  destruct rows as [|r]; simpl.
  - apply Hrow.
  - unfold split_0 at 2; simpl.
    replace (r `max` S r) with (S r) by lia. apply Hrow.
Qed.

Lemma constructor_eq st tape g :
  ∃ g0, constructor st tape g = constructor_fields st tape g0.
Proof.
  unfold constructor.
  unfold bind at 1, modify at 1. unfold bind at 1, modify at 1.
  unfold bind at 1, gets at 1. unfold bind at 1, gets at 1.
  unfold bind at 1.
  destruct (no_index _ && bool_decide _); simpl; eauto.
Qed.

Lemma _loadFieldMetaInformations_amountColumns g :
  getAmountColumns (final (_loadFieldMetaInformations g))
  = match (highest_keys (Object_keys (fields g))).2 with
    | Some h => h + 1
    | None => 0
    end.
Proof.
  unfold _loadFieldMetaInformations.
  unfold bind at 1, modify at 1. unfold bind at 1.
  unfold _loadFiledMetaInformationsAmountRowsAndColumns, bind at 1, gets at 1.
  simpl. destruct (highest_keys (Object_keys (fields g))) as [hr hc]. simpl.
  by rewrite (keeps__loadContraints getAmountColumns).
Qed.

Lemma normalizeConfig_positive config :
  0 < rows (normalizeConfig config) ∧ 0 < columns (normalizeConfig config).
Proof.
  unfold normalizeConfig; cbv zeta; simpl.
  assert (H : ∀ x d, 0 < d → 0 < or_nat x d).
  { intros [n|] d Hd; simpl; [|done]. case_bool_decide; lia. }
  assert (0 < or_nat (in_rows config) 5) by (apply H; lia).
  split; [done | by apply H].
Qed.

(** For every configuration and every sequence of draws: the game
    constructed from a generated level reports the configured number of
    rows as its number of columns. *)
Lemma generated_grid_reports_rows_as_columns
  config tape pos fieldsJSON pos' h c tape' :
  generateLevel config tape pos = Some (fieldsJSON, pos') →
  getAmountColumns (final (new_Kakurasu (mkSnapshot h c (Some fieldsJSON)) tape'))
  = rows (normalizeConfig config).
Proof.
  intros Hgen. pose proof (generateLevel_keys _ _ _ _ _ Hgen) as Hkeys.
  destruct (normalizeConfig_positive config) as [Hr Hc].
  unfold new_Kakurasu.
  destruct (constructor_eq (mkSnapshot h c (Some fieldsJSON)) tape' blank) as [g0 ->].
  unfold constructor_fields; simpl.
  unfold bind at 1, ret at 1. unfold bind at 1, modify at 1.
  destruct (constructor_loop_keys fieldsJSON g0) as (g1 & E & Hk1 & _).
  { rewrite Hkeys. apply NoDup_grid_keys. }
  unfold bind at 1. rewrite E.
  rewrite _loadFieldMetaInformations_amountColumns, Hk1, Hkeys.
  rewrite highest_column_grid by done.
  change (or_nat (in_rows config) 5) with (rows (normalizeConfig config)).
  revert Hr. destruct (rows (normalizeConfig config)); simpl; lia.
Qed.

(** ** Reachable games *)

Lemma cursor_consistent_nonneg g : cursor_consistent g → cursor_nonneg g.
Proof.
  unfold cursor_consistent, cursor_nonneg.
  destruct (currentMoveIndex g); [lia | done].
Qed.

Lemma preserves_execute c g : cursor_consistent g → cursor_consistent (execute c g).
Proof.
  intros Hg. destruct c; simpl.
  - by apply preserves_setField.
  - by apply preserves_changeActiveStatus.
  - by apply preserves_changeFlagStatus.
  - by apply preserves_undoMove.
  - by apply preserves_redoMove.
  - by apply preserves_resetGame.
Qed.

Lemma constructor_consistent st tape :
  snapshot_cursor_ok st → cursor_consistent (final (new_Kakurasu st tape)).
Proof.
  intros Hst. pose proof (constructor_history st tape) as H.
  unfold history in H. injection H as Hh Hc.
  unfold cursor_consistent. rewrite Hh, Hc. unfold snapshot_cursor_ok in Hst.
  set (n := length (default [] (s_moveHistory st))) in *.
  destruct (s_currentMoveIndex st) as [i|]; unfold or_null, no_index.
  - destruct (decide (i = 0%Z)) as [->|Hi].
    + rewrite bool_decide_true by done. simpl.
      rewrite bool_decide_true by lia. simpl. lia.
    + rewrite !bool_decide_false by done. simpl. lia.
  - simpl. case_bool_decide; [lia | done].
Qed.

(** In every reachable game the cursor is Empty or an index into the move
    history. *)
Lemma reachable_cursor_consistent g : reachable g → cursor_consistent g.
Proof.
  induction 1 as [st tape g Hst Hnew | c g _ IH].
  - pose proof (constructor_consistent st tape Hst) as H. by rewrite Hnew in H.
  - by apply preserves_execute.
Qed.

Lemma reachable_cursor_nonneg g : reachable g → cursor_nonneg g.
Proof. intros H. by apply cursor_consistent_nonneg, reachable_cursor_consistent. Qed.

(** The sample games are reachable. *)
Lemma reachable_game_2x2 : reachable game_2x2.
Proof.
  apply (reachable_new (mkSnapshot None None (Some fields_2x2)) tape_zero);
    [exact I | vm_compute; reflexivity].
Qed.

(** ** The scenario of the interface description *)

(** On the 2 x 2 board with solution mask (0,0), (1,1) the row and column
    targets are 1 and 2; with (0,0) and (1,1) Active the game is won, with
    only (0,0) Active row 0 is satisfied, row 1 is not, and the game is not
    won. *)
Example scenario_2x2 :
  getConstraintValueForRow 0 game_2x2 = Some (Some 1)
  ∧ getConstraintValueForRow 1 game_2x2 = Some (Some 2)
  ∧ getConstraintValueForColumn 0 game_2x2 = Some (Some 1)
  ∧ getConstraintValueForColumn 1 game_2x2 = Some (Some 2)
  ∧ returned ((setFieldActive 0 0 ;;; setFieldActive 1 1 ;;; isGameWon) game_2x2)
    = Some true
  ∧ returned ((setFieldActive 0 0 ;;; isRowConstraintSatisfied 0) game_2x2) = Some true
  ∧ returned ((setFieldActive 0 0 ;;; isRowConstraintSatisfied 1) game_2x2) = Some false
  ∧ returned ((setFieldActive 0 0 ;;; isGameWon) game_2x2) = Some false.
Proof. vm_compute. repeat split; reflexivity. Qed.

(** * Further properties *)

(** ** What the methods leave alone, in general *)

Section Steady.
Context (R : relation Kakurasu) `{!PreOrder R}.

Lemma steady_ret {A} (a : A) : steady R (ret a).
Proof. intros g. reflexivity. Qed.

Lemma steady_throw {A} : steady R (@throw A).
Proof. intros g. reflexivity. Qed.

Lemma steady_gets {A} (h : Kakurasu → A) : steady R (gets h).
Proof. intros g. reflexivity. Qed.

Lemma steady_bind {A B} (c : M A) (k : A → M B) :
  steady R c → (∀ a, steady R (k a)) → steady R (bind c k).
Proof.
  intros Hc Hk g. unfold bind. specialize (Hc g).
  destruct (c g) as [a g'|g']; simpl in *; [|done].
  etrans; [exact Hc | apply Hk].
Qed.

Lemma steady_if {A} (b : bool) (c1 c2 : M A) :
  steady R c1 → steady R c2 → steady R (if b then c1 else c2).
Proof. by destruct b. Qed.

Lemma steady_modify (h : Kakurasu → Kakurasu) :
  (∀ g, R g (h g)) → steady R (modify h).
Proof. intros H g. apply H. Qed.

Lemma steady_forEach {A} (l : list A) (body : A → M unit) :
  (∀ x, steady R (body x)) → steady R (forEach l body).
Proof.
  intros Hb. induction l as [|x l IH]; simpl.
  - apply steady_ret.
  - apply steady_bind; [apply Hb | done].
Qed.

Lemma steady_mapM {A B} (body : A → M B) (l : list A) :
  (∀ x, steady R (body x)) → steady R (mapM body l).
Proof.
  intros Hb. induction l as [|x l IH]; simpl.
  - apply steady_ret.
  - apply steady_bind; [apply Hb | intros y].
    apply steady_bind; [done | intros ys; apply steady_ret].
Qed.

Lemma steady_foldM {A B} (body : B → A → M B) (acc : B) (l : list A) :
  (∀ b x, steady R (body b x)) → steady R (foldM body acc l).
Proof.
  intros Hb. revert acc. induction l as [|x l IH]; intros acc; simpl.
  - apply steady_ret.
  - apply steady_bind; [apply Hb | done].
Qed.

(** *** Methods that write on field objects *)

Context (ok : KakurasuField → KakurasuField → Prop).
Hypothesis R_touch :
  ∀ g k f f', store_get k (fields g) = Some f → ok f f' →
              R g (set_fields (store_put k f' (fields g)) g).
Hypothesis ok_stamp : ∀ row column f, ok f (stamp row column f).

Lemma steady_getField row column : steady R (getField row column).
Proof.
  intros g. unfold getField.
  destruct (store_get _ _) as [f|] eqn:Hf; simpl; [|reflexivity].
  by apply (R_touch _ _ f).
Qed.

Lemma steady_deref field : steady R (deref field).
Proof. intros g. unfold deref. destruct (store_get _ _); reflexivity. Qed.

Lemma steady_call field method :
  (∀ f, ok f (method f)) → steady R (call field method).
Proof.
  intros Hm g. unfold call, bind, deref.
  destruct (store_get _ _) as [f|] eqn:Hf; simpl; [|reflexivity].
  by apply (R_touch _ _ f).
Qed.

Lemma steady__getFieldsInRowColumn forRow index :
  steady R (_getFieldsInRowColumn forRow index).
Proof.
  apply steady_bind; [apply steady_gets | intros n].
  apply steady_mapM. intros i. apply steady_getField.
Qed.

Lemma steady__getRowColumnSumValue forRow index :
  steady R (_getRowColumnSumValue forRow index).
Proof.
  apply steady_bind; [apply steady__getFieldsInRowColumn | intros fs].
  apply steady_foldM. intros acc field.
  apply steady_bind; [|intros w].
  { apply steady_bind; [apply steady_deref | intros f; apply steady_ret]. }
  apply steady_bind; [apply steady_deref | intros f].
  apply steady_if; apply steady_ret.
Qed.

Lemma steady__isRowColumnConstraintSatisfied forRow index :
  steady R (_isRowColumnConstraintSatisfied forRow index).
Proof.
  apply steady_bind; [apply steady_gets | intros v].
  apply steady_bind; [apply steady__getRowColumnSumValue | intros s].
  apply steady_ret.
Qed.

Lemma steady__areAll_loop indices : steady R (_areAll_loop indices).
Proof.
  induction indices as [|i rest IH]; simpl; [apply steady_ret|].
  apply steady_bind; [apply steady__isRowColumnConstraintSatisfied | intros b].
  apply steady_if; [apply steady_ret | done].
Qed.

Lemma steady_isGameWon : steady R isGameWon.
Proof.
  apply steady_bind; [|intros b1].
  { apply steady_bind; [apply steady_gets | intros n; apply steady__areAll_loop]. }
  apply steady_if; [apply steady_ret|].
  apply steady_bind; [|intros b2].
  { apply steady_bind; [apply steady_gets | intros n; apply steady__areAll_loop]. }
  apply steady_if; apply steady_ret.
Qed.

Lemma steady_getFieldOfCurrentMove : steady R getFieldOfCurrentMove.
Proof.
  apply steady_bind; [apply steady_gets | intros [m|]]; [|apply steady_ret].
  apply steady_bind; [apply steady_getField | intros f; apply steady_ret].
Qed.

(** *** Methods that change a status or the history *)

Hypothesis ok_setStatus : ∀ s f, ok f (setStatus s f).
Hypothesis R_history : ∀ g h c, R g (mkKakurasu h c (fields g) (meta g)).

Lemma steady__applyMove move : steady R (_applyMove move).
Proof.
  apply steady_bind; [apply steady_getField | intros field].
  apply steady_bind; [apply steady_deref | intros f].
  apply steady_if; [|apply steady_ret].
  apply steady_bind; [by apply steady_call | intros _; apply steady_ret].
Qed.

Lemma steady__changeCurrentMoveIndex diff : steady R (_changeCurrentMoveIndex diff).
Proof. apply steady_modify. intros g. apply R_history. Qed.

Lemma steady__addMoveToHistory move : steady R (_addMoveToHistory move).
Proof.
  apply steady_bind; [|intros _].
  { apply steady_bind; [apply steady_gets | intros [i|]];
      apply steady_modify; intros g; apply R_history. }
  apply steady_bind; [|intros _; apply steady__changeCurrentMoveIndex].
  apply steady_modify. intros g. apply R_history.
Qed.

Lemma steady__setFieldStatus row column s : steady R (_setFieldStatus row column s).
Proof.
  apply steady_bind; [apply steady_getField | intros field].
  apply steady_bind; [apply steady_deref | intros f].
  apply steady_bind; [apply steady__applyMove | intros b].
  apply steady_bind; [|intros _; apply steady_ret].
  apply steady_if; [apply steady__addMoveToHistory | apply steady_ret].
Qed.

Lemma steady_changeActiveStatus row column : steady R (changeActiveStatus row column).
Proof.
  apply steady_bind; [apply steady_getField | intros field].
  apply steady_bind; [apply steady_deref | intros f].
  apply steady_if; apply steady__setFieldStatus.
Qed.

Lemma steady_changeFlagStatus row column : steady R (changeFlagStatus row column).
Proof.
  apply steady_bind; [apply steady_getField | intros field].
  apply steady_bind; [apply steady_deref | intros f].
  apply steady_if; apply steady__setFieldStatus.
Qed.

Lemma steady_undoMove : steady R undoMove.
Proof.
  apply steady_bind; [apply steady_gets | intros b].
  apply steady_if; [|apply steady_ret].
  apply steady_bind; [apply steady_gets | intros [m|]]; [|apply steady_throw].
  apply steady_bind; [apply steady__changeCurrentMoveIndex | intros _].
  apply steady__applyMove.
Qed.

Lemma steady_redoMove : steady R redoMove.
Proof.
  apply steady_bind; [apply steady_gets | intros b].
  apply steady_if; [|apply steady_ret].
  apply steady_bind; [apply steady_gets | intros m].
  apply steady_bind; [apply steady__changeCurrentMoveIndex | intros _].
  destruct m; [apply steady__applyMove | apply steady_throw].
Qed.

Hypothesis ok__reset : ∀ f, ok f (_reset f).

Lemma steady_resetGame : steady R resetGame.
Proof.
  apply steady_bind; [apply steady_gets | intros ks].
  apply steady_bind; [|intros _].
  { apply steady_forEach. intros k. by apply steady_call. }
  apply steady_bind; [|intros _]; apply steady_modify; intros g; apply R_history.
Qed.

Lemma steady_execute c g : R g (execute c g).
Proof.
  destruct c as [[] row column| | | | |]; simpl.
  - apply steady__setFieldStatus.
  - apply steady__setFieldStatus.
  - apply steady__setFieldStatus.
  - apply steady_changeActiveStatus.
  - apply steady_changeFlagStatus.
  - apply steady_undoMove.
  - apply steady_redoMove.
  - apply steady_resetGame.
Qed.
End Steady.

(** ** Relations between game objects *)

Global Instance same_state_preorder : PreOrder same_state.
Proof.
  split; [by intros f | intros f1 f2 f3 H1 H2]. unfold same_state in *. congruence.
Qed.

Global Instance same_flags_preorder : PreOrder same_flags.
Proof.
  split; [by intros f | intros f1 f2 f3 [H1 H1'] [H2 H2']].
  unfold same_flags. split; congruence.
Qed.

Global Instance fields_related_preorder ok `{!PreOrder ok} :
  PreOrder (fields_related ok).
Proof.
  split.
  - intros fs. split; [done | intros k; reflexivity].
  - intros fs1 fs2 fs3 [Hk1 H1] [Hk2 H2]. split; [congruence|].
    intros k. etrans; [apply H1 | apply H2].
Qed.

Global Instance only_stamps_preorder : PreOrder only_stamps.
Proof.
  split.
  - intros g. repeat split; reflexivity.
  - intros g1 g2 g3 (Hh1 & Hc1 & Hm1 & Hf1) (Hh2 & Hc2 & Hm2 & Hf2).
    repeat split; try congruence; etrans; first [apply Hf1 | apply Hf2].
Qed.

Global Instance same_puzzle_preorder : PreOrder same_puzzle.
Proof.
  split.
  - intros g. split; reflexivity.
  - intros g1 g2 g3 (Hm1 & Hf1) (Hm2 & Hf2).
    split; [congruence | by etrans].
Qed.

Lemma fields_related_put ok `{!PreOrder ok} fs k f f' :
  store_get k fs = Some f → ok f f' → fields_related ok fs (store_put k f' fs).
Proof.
  intros Hf Hok. split; [by eapply store_put_keys|].
  intros k'. destruct (decide (k = k')) as [<-|Hne].
  - rewrite store_get_put_eq, Hf. by constructor.
  - rewrite store_get_put_ne by done. reflexivity.
Qed.

Lemma same_state_flags f f' : same_state f f' → same_flags f f'.
Proof. unfold same_state, same_flags, isReadOnly, isSolution. by intros ->. Qed.

Lemma only_stamps_same_puzzle g g' : only_stamps g g' → same_puzzle g g'.
Proof.
  intros (_ & _ & Hm & Hk & Hf). split; [done|]. split; [done|].
  intros k. destruct (Hf k); constructor. by apply same_state_flags.
Qed.

(** ** Queries change nothing but the coordinates written on fields *)

(** X1. [getField], [getFieldsInRow], [getFieldsInColumn],
    [isRowConstraintSatisfied], [isColumnConstraintSatisfied], [isGameWon]
    and [getFieldOfCurrentMove] leave the move history, the cursor, the
    constraint cache, the set of coordinates and the state (status,
    read-only flag, solution flag) of every field as they were, also when
    they raise. *)
Theorem queries_change_nothing q g : only_stamps g (after_query q g).
Proof.
  assert (Htouch : ∀ g k f f', store_get k (fields g) = Some f → same_state f f' →
                     only_stamps g (set_fields (store_put k f' (fields g)) g)).
  { intros g0 k f f' Hf Hok. do 3 (split; [done|]). simpl.
    by apply (fields_related_put same_state _ _ f). }
  assert (Hstamp : ∀ row column f, same_state f (stamp row column f)) by done.
  destruct q; simpl.
  - by apply (steady_getField only_stamps same_state).
  - by apply (steady__getFieldsInRowColumn only_stamps same_state).
  - by apply (steady__getFieldsInRowColumn only_stamps same_state).
  - by apply (steady__isRowColumnConstraintSatisfied only_stamps same_state).
  - by apply (steady__isRowColumnConstraintSatisfied only_stamps same_state).
  - by apply (steady_isGameWon only_stamps same_state).
  - by apply (steady_getFieldOfCurrentMove only_stamps same_state).
Qed.

(** ** Commands never change the puzzle *)

Lemma execute_same_puzzle c g : same_puzzle g (execute c g).
Proof.
  apply (steady_execute same_puzzle same_flags).
  - intros g0 k f f' Hf Hok. split; [done|]. simpl.
    by apply (fields_related_put same_flags _ _ f).
  - done.
  - done.
  - intros g0 h c0. split; [done | reflexivity].
  - intros f. split.
    + apply _reset_readOnly.
    + apply _reset_solution.
Qed.

(** X2. No command (status-setting move, toggle, undo, redo, reset)
    changes the constraint cache, the amounts of rows and columns, the set of
    coordinates, or the solution flag or read-only flag of any field, also
    when it raises. *)
Theorem commands_keep_puzzle c g : same_puzzle g (execute c g).
Proof. apply execute_same_puzzle. Qed.

(** ** Walking a row or a column *)

Lemma getField_line_key (forRow : bool) (index i : nat) :
  getField (if forRow then index else i) (if forRow then i else index)
  = getField (line_key forRow index i).1 (line_key forRow index i).2.
Proof. by destruct forRow. Qed.

Lemma getField_bound k f g :
  store_get k (fields g) = Some f →
  getField k.1 k.2 g = Ok k (set_fields (store_put k (stamp k.1 k.2 f) (fields g)) g).
Proof. destruct k as [r c]. intros Hf. unfold getField, _getFieldKey; simpl. by rewrite Hf. Qed.

Lemma getField_unbound k g :
  store_get k (fields g) = None → getField k.1 k.2 g = Throw g.
Proof. destruct k as [r c]. intros Hf. unfold getField, _getFieldKey; simpl. by rewrite Hf. Qed.

Lemma only_stamps_put_stamp g k f :
  store_get k (fields g) = Some f →
  only_stamps g (set_fields (store_put k (stamp k.1 k.2 f) (fields g)) g).
Proof.
  intros Hf. do 3 (split; [done|]). simpl.
  by apply (fields_related_put same_state _ _ f).
Qed.

Lemma only_stamps_bound g g' k :
  only_stamps g g' → is_Some (store_get k (fields g)) → is_Some (store_get k (fields g')).
Proof.
  intros (_ & _ & _ & _ & Hf) [f Hk]. specialize (Hf k). rewrite Hk in Hf.
  inversion Hf. eauto.
Qed.

Lemma only_stamps_unbound g g' k :
  only_stamps g g' → store_get k (fields g) = None → store_get k (fields g') = None.
Proof.
  intros (_ & _ & _ & _ & Hf) Hk. specialize (Hf k). rewrite Hk in Hf.
  by inversion Hf.
Qed.

Lemma stamped_put_stamp g k f k' :
  store_get k (fields g) = Some f →
  (k' = k ∨ stamped g k') →
  stamped (set_fields (store_put k (stamp k.1 k.2 f) (fields g)) g) k'.
Proof.
  intros Hf Hk'. unfold stamped; simpl.
  destruct (decide (k = k')) as [<-|Hne].
  - rewrite store_get_put_eq. eauto.
  - rewrite store_get_put_ne by done. destruct Hk' as [->|H]; [done | exact H].
Qed.

(** Fetching the fields of a line one after the other. *)
Lemma mapM_getField_line forRow index (l : list nat) g :
  (∀ i, i ∈ l → is_Some (store_get (line_key forRow index i) (fields g))) →
  ∃ g',
    mapM (λ i, getField (if forRow then index else i) (if forRow then i else index)) l g
    = Ok (line_key forRow index <$> l) g'
    ∧ only_stamps g g'
    ∧ (∀ i, i ∈ l → stamped g' (line_key forRow index i))
    ∧ (∀ k, stamped g k → stamped g' k).
Proof.
  revert g. induction l as [|i l IH]; intros g Hl.
  - exists g. split; [done|]. split; [reflexivity|]. split; [|done].
    by intros i ?%elem_of_nil.
  - destruct (Hl i) as [f Hf]; [by left|].
    cbn [mapM]. unfold bind at 1.
    rewrite getField_line_key, (getField_bound _ f) by done.
    set (g1 := set_fields _ g).
    assert (H1 : only_stamps g g1) by by apply only_stamps_put_stamp.
    destruct (IH g1) as (g' & E & H2 & Hst & Hkeep).
    { intros j Hj. eapply only_stamps_bound; [exact H1|]. apply Hl. by right. }
    exists g'. unfold bind at 1. rewrite E. split; [done|].
    split; [by etrans|]. split.
    + intros j [->|Hj]%elem_of_cons; [|by apply Hst].
      apply Hkeep. apply stamped_put_stamp; [done | by left].
    + intros k Hk. apply Hkeep. apply stamped_put_stamp; [done | by right].
Qed.

Lemma mapM_getField_line_missing forRow index (l : list nat) g i :
  i ∈ l → store_get (line_key forRow index i) (fields g) = None →
  returned (mapM (λ i, getField (if forRow then index else i)
                                (if forRow then i else index)) l g) = None.
Proof.
  revert g. induction l as [|j l IH]; intros g Hi Hnone; [by apply elem_of_nil in Hi|].
  cbn [mapM]. unfold bind at 1. rewrite getField_line_key.
  destruct (store_get (line_key forRow index j) (fields g)) as [f|] eqn:Hf.
  - rewrite (getField_bound _ f) by done.
    apply elem_of_cons in Hi as [->|Hi]; [congruence|].
    set (g1 := set_fields _ g).
    specialize (IH g1 Hi).
    unfold bind at 1. destruct (mapM _ l g1) as [ys g2|g2] eqn:E; [|done].
    assert (Hn : store_get (line_key forRow index i) (fields g1) = None).
    { eapply only_stamps_unbound; [|exact Hnone]. by apply only_stamps_put_stamp. }
    by specialize (IH Hn).
  - by rewrite getField_unbound.
Qed.

(** One iteration of the summing loop on a field that carries its
    coordinates. *)
Lemma sum_step (pred : KakurasuField → bool) forRow index i g acc :
  stamped g (line_key forRow index i) →
  (weight <- _getWeightForField forRow (line_key forRow index i) ;;
   f <- deref (line_key forRow index i) ;;
   if pred f then ret (number_add (Some acc) weight) else ret (Some acc)) g
  = Ok (Some (acc + match store_get (line_key forRow index i) (fields g) with
                    | Some f => if pred f then i + 1 else 0
                    | None => 0
                    end)) g.
Proof.
  intros (f & Hf & Hr & Hc).
  unfold bind at 1, _getWeightForField, bind at 1, deref. rewrite Hf.
  unfold ret at 1. unfold bind at 1. rewrite Hf.
  assert (Hw : getWeight (if forRow then field_column f else field_row f) = Some (i + 1)).
  { destruct forRow; simpl in *; by rewrite ?Hr, ?Hc. }
  rewrite Hw. destruct (pred f); unfold ret; simpl; do 2 f_equal; lia.
Qed.

(** The summing loop over fields that carry their coordinates. *)
Lemma sum_loop (pred : KakurasuField → bool) forRow index (l : list nat) g acc :
  (∀ i, i ∈ l → stamped g (line_key forRow index i)) →
  foldM (λ value field,
           weight <- _getWeightForField forRow field ;;
           f <- deref field ;;
           if pred f then ret (number_add value weight) else ret value)
        (Some acc) (line_key forRow index <$> l) g
  = Ok (Some (acc + sum_list_with
                      (λ i, match store_get (line_key forRow index i) (fields g) with
                            | Some f => if pred f then i + 1 else 0
                            | None => 0
                            end) l)) g.
Proof.
  revert acc. induction l as [|i l IH]; intros acc Hl.
  - simpl. unfold ret. do 2 f_equal. lia.
  - rewrite fmap_cons. cbn [foldM]. unfold bind at 1.
    rewrite (sum_step pred) by (apply Hl; by left).
    rewrite IH by (intros j Hj; apply Hl; by right).
    simpl. do 2 f_equal. lia.
Qed.

Lemma weighted_sum_related (pred : KakurasuField → bool) forRow index n fs fs' :
  (∀ f f', same_state f f' → pred f' = pred f) →
  fields_related same_state fs fs' →
  weighted_sum pred forRow index n fs' = weighted_sum pred forRow index n fs.
Proof.
  intros Hpred [_ Hf]. unfold weighted_sum.
  induction (seq 0 n) as [|i l IH]; [done|]. simpl. rewrite IH. f_equal.
  specialize (Hf (line_key forRow index i)).
  destruct Hf as [f f' Hs|]; [|done]. by rewrite (Hpred f f').
Qed.

Lemma isActive_same_state f f' : same_state f f' → isActive f' = isActive f.
Proof. unfold same_state, isActive. by intros ->. Qed.

Lemma isSolution_same_state f f' : same_state f f' → isSolution f' = isSolution f.
Proof. unfold same_state, isSolution. by intros ->. Qed.

(** The sum of a line, for either predicate. *)
Lemma line_sum (pred : KakurasuField → bool) forRow index g :
  (∀ f f', same_state f f' → pred f' = pred f) →
  line_complete forRow index g →
  ∃ g',
    (fields <- _getFieldsInRowColumn forRow index ;;
     foldM (λ value field,
              weight <- _getWeightForField forRow field ;;
              f <- deref field ;;
              if pred f then ret (number_add value weight) else ret value)
           (Some 0) fields) g
    = Ok (Some (weighted_sum pred forRow index (_getAmountRowColumns forRow g) (fields g))) g'
    ∧ only_stamps g g'
    ∧ (∀ k, stamped g k → stamped g' k).
Proof.
  intros Hpred Hc.
  destruct (mapM_getField_line forRow index (seq 0 (_getAmountRowColumns forRow g)) g)
    as (g' & E & Hos & Hst & Hkeep).
  { intros i Hi. apply Hc. apply elem_of_seq in Hi. lia. }
  exists g'. split; [|done].
  unfold bind at 1, _getFieldsInRowColumn, bind at 1, gets. rewrite E.
  rewrite sum_loop by done. simpl. do 2 f_equal.
  apply (weighted_sum_related pred); [done | apply Hos].
Qed.

Lemma forallb_pointwise {A} (p q : A → bool) (l : list A) :
  (∀ x, p x = q x) → forallb p l = forallb q l.
Proof. intros H. induction l as [|x l IH]; simpl; [done|]. by rewrite H, IH. Qed.

Lemma only_stamps_line_complete forRow index g g' :
  only_stamps g g' → line_complete forRow index g → line_complete forRow index g'.
Proof.
  intros Hos Hc i Hi. eapply only_stamps_bound; [exact Hos|]. apply Hc.
  destruct Hos as (_ & _ & Hm & _).
  unfold _getAmountRowColumns, getAmountRows, getAmountColumns in *.
  by rewrite Hm in Hi.
Qed.

Lemma only_stamps_row_check g g' i : only_stamps g g' → row_check g' i = row_check g i.
Proof.
  intros (_ & _ & Hm & Hf). unfold row_check, getConstraintValueForRow,
    _getConstraintValue, getAmountRows. rewrite Hm.
  by rewrite (weighted_sum_related isActive _ _ _ (fields g) (fields g'))
    by (done || apply isActive_same_state).
Qed.

Lemma only_stamps_column_check g g' i :
  only_stamps g g' → column_check g' i = column_check g i.
Proof.
  intros (_ & _ & Hm & Hf). unfold column_check, getConstraintValueForColumn,
    _getConstraintValue, getAmountColumns. rewrite Hm.
  by rewrite (weighted_sum_related isActive _ _ _ (fields g) (fields g'))
    by (done || apply isActive_same_state).
Qed.

Lemma _isRowColumnConstraintSatisfied_complete forRow index g :
  line_complete forRow index g →
  ∃ g',
    _isRowColumnConstraintSatisfied forRow index g
    = Ok (if forRow then row_check g index else column_check g index) g'
    ∧ only_stamps g g'.
Proof.
  intros Hc.
  destruct (line_sum isActive forRow index g isActive_same_state Hc)
    as (g' & E & Hos & _).
  exists g'. split; [|done].
  unfold _isRowColumnConstraintSatisfied, bind at 1, gets.
  unfold _getRowColumnSumValue. unfold bind at 1. rewrite E.
  unfold ret. by destruct forRow.
Qed.

Lemma _isRowColumnConstraintSatisfied_missing forRow index g i :
  i < _getAmountRowColumns forRow g →
  store_get (line_key forRow index i) (fields g) = None →
  returned (_isRowColumnConstraintSatisfied forRow index g) = None.
Proof.
  intros Hi Hnone.
  unfold _isRowColumnConstraintSatisfied, bind at 1, gets.
  unfold _getRowColumnSumValue. unfold bind at 1, bind at 1.
  unfold _getFieldsInRowColumn, bind at 1, gets.
  pose proof (mapM_getField_line_missing forRow index
                (seq 0 (_getAmountRowColumns forRow g)) g i) as H.
  destruct (mapM _ _ g) as [ys g'|g']; [|done].
  exfalso. enough (returned (Ok ys g') = None) by done.
  apply H; [|done]. apply elem_of_seq. lia.
Qed.

(** ** The single checks *)

(** X3. [isRowConstraintSatisfied(row)] walks the first [amountRows]
    fields of the row.  When they all exist it returns whether the cached
    row target equals the sum of the weights [c + 1] of the Active ones;
    when one of them is missing it raises. *)
Theorem isRowConstraintSatisfied_value row g :
  (line_complete true row g →
   returned (isRowConstraintSatisfied row g) = Some (row_check g row))
  ∧ (∀ c, c < getAmountRows g →
          store_get (_getFieldKey row c) (fields g) = None →
          returned (isRowConstraintSatisfied row g) = None).
Proof.
  split.
  - intros Hc.
    destruct (_isRowColumnConstraintSatisfied_complete true row g Hc) as (g' & E & _).
    unfold isRowConstraintSatisfied. by rewrite E.
  - intros c Hc Hnone.
    by apply (_isRowColumnConstraintSatisfied_missing true row g c).
Qed.

(** X4. [isColumnConstraintSatisfied(column)] walks the first
    [amountColumns] fields of the column.  When they all exist it returns
    whether the cached column target equals the sum of the weights [r + 1]
    of the Active ones; when one of them is missing it raises. *)
Theorem isColumnConstraintSatisfied_value column g :
  (line_complete false column g →
   returned (isColumnConstraintSatisfied column g) = Some (column_check g column))
  ∧ (∀ r, r < getAmountColumns g →
          store_get (_getFieldKey r column) (fields g) = None →
          returned (isColumnConstraintSatisfied column g) = None).
Proof.
  split.
  - intros Hc.
    destruct (_isRowColumnConstraintSatisfied_complete false column g Hc) as (g' & E & _).
    unfold isColumnConstraintSatisfied. by rewrite E.
  - intros r Hr Hnone.
    by apply (_isRowColumnConstraintSatisfied_missing false column g r).
Qed.

(** ** The win check in general *)

Lemma _areAll_loop_value (l : list nat) g :
  (∀ i, i ∈ l → line_complete true i g) →
  ∃ g', _areAll_loop l g = Ok (forallb (row_check g) l) g' ∧ only_stamps g g'.
Proof.
  revert g. induction l as [|i l IH]; intros g Hl.
  - exists g. split; [done | reflexivity].
  - destruct (_isRowColumnConstraintSatisfied_complete true i g) as (g1 & E & H1).
    { apply Hl. by left. }
    cbn [_areAll_loop forallb]. unfold bind at 1. rewrite E.
    destruct (row_check g i); simpl.
    + destruct (IH g1) as (g' & E' & H2).
      { intros j Hj. eapply only_stamps_line_complete; [exact H1|]. apply Hl. by right. }
      exists g'. rewrite E'. split; [|by etrans].
      f_equal. apply forallb_pointwise. intros j. by apply only_stamps_row_check.
    + by exists g1.
Qed.

Lemma isGameWon_returned g :
  (∀ i, i < getAmountRows g `max` getAmountColumns g → line_complete true i g) →
  returned (isGameWon g)
  = Some (forallb (row_check g) (seq 0 (getAmountRows g))
          && forallb (row_check g) (seq 0 (getAmountColumns g))).
Proof.
  intros Hc.
  destruct (_areAll_loop_value (seq 0 (getAmountRows g)) g) as (g1 & E1 & H1).
  { intros i Hi%elem_of_seq. apply Hc. lia. }
  unfold isGameWon, bind at 1, _areAllRowColumnContraintsSatisfied, bind at 1, gets.
  simpl. rewrite E1.
  destruct (forallb (row_check g) (seq 0 (getAmountRows g))); simpl; [|done].
  destruct (_areAll_loop_value (seq 0 (getAmountColumns g1)) g1) as (g2 & E2 & H2).
  { intros i Hi%elem_of_seq. eapply only_stamps_line_complete; [exact H1|].
    apply Hc. destruct H1 as (_ & _ & Hm & _).
    unfold getAmountColumns in *. rewrite Hm in Hi. lia. }
  unfold bind at 1, bind at 1, gets. simpl. rewrite E2.
  assert (Ha : getAmountColumns g1 = getAmountColumns g).
  { destruct H1 as (_ & _ & Hm & _). unfold getAmountColumns. by rewrite Hm. }
  rewrite Ha.
  rewrite (forallb_pointwise (row_check g1) (row_check g))
    by (intros j; by apply only_stamps_row_check).
  by destruct (forallb (row_check g) (seq 0 (getAmountColumns g))).
Qed.

(** X5. When the rows [isGameWon()] walks are complete, its result is
    the conjunction of the row checks for the indices below [amountRows] and
    of the row checks, again, for the indices below [amountColumns]: no
    column target and no column sum enters the result. *)
Theorem isGameWon_value g :
  (∀ i, i < getAmountRows g `max` getAmountColumns g → line_complete true i g) →
  returned (isGameWon g)
  = Some (forallb (row_check g) (seq 0 (getAmountRows g))
          && forallb (row_check g) (seq 0 (getAmountColumns g))).
Proof. apply isGameWon_returned. Qed.

(** ** Loading the constraint cache *)

Lemma bind_assoc_at {A B C} (c : M A) (k : A → M B) (h : B → M C) g :
  bind (bind c k) h g = bind c (λ a, bind (k a) h) g.
Proof. unfold bind. by destruct (c g). Qed.

Lemma line_complete_dec forRow index g :
  line_complete forRow index g
  ∨ ∃ i, i < _getAmountRowColumns forRow g
         ∧ store_get (line_key forRow index i) (fields g) = None.
Proof.
  unfold line_complete. induction (_getAmountRowColumns forRow g) as [|n IH].
  - left. lia.
  - destruct IH as [IH|(i & Hi & Hn)]; [|right; exists i; split; [lia|done]].
    destruct (store_get (line_key forRow index n) (fields g)) as [f|] eqn:Hf.
    + left. intros i Hi. destruct (decide (i = n)) as [->|]; [eauto | apply IH; lia].
    + right. exists n. split; [lia | done].
Qed.

(** Loading the constraint of one complete line. *)
Lemma load_line forRow index g :
  line_complete forRow index g →
  ∃ g',
    _loadFieldMetaInformationsContraintsForFields forRow index g
    = Ok tt (set_meta
               (set_contraint forRow index
                  (Some (weighted_sum isSolution forRow index
                           (_getAmountRowColumns forRow g) (fields g)))
                  (meta g')) g')
    ∧ only_stamps g g'.
Proof.
  intros Hc.
  destruct (line_sum isSolution forRow index g isSolution_same_state Hc)
    as (g' & E & Hos & _).
  exists g'. split; [|done].
  unfold _loadFieldMetaInformationsContraintsForFields.
  unfold bind at 1 in E. unfold bind at 1.
  destruct (_getFieldsInRowColumn forRow index g) as [fs g1|g1]; [|done].
  unfold bind at 1. by rewrite E.
Qed.

Lemma load_line_missing forRow index g i :
  i < _getAmountRowColumns forRow g →
  store_get (line_key forRow index i) (fields g) = None →
  returned (_loadFieldMetaInformationsContraintsForFields forRow index g) = None.
Proof.
  intros Hi Hnone. unfold _loadFieldMetaInformationsContraintsForFields.
  unfold bind at 1, _getFieldsInRowColumn, bind at 1, gets.
  pose proof (mapM_getField_line_missing forRow index
                (seq 0 (_getAmountRowColumns forRow g)) g i) as H.
  destruct (mapM _ _ g) as [ys g'|g']; [|done].
  exfalso. enough (returned (Ok ys g') = None) by done.
  apply H; [|done]. apply elem_of_seq. lia.
Qed.

Lemma set_contraint_amounts forRow index v m :
  amountRows (set_contraint forRow index v m) = amountRows m
  ∧ amountColumns (set_contraint forRow index v m) = amountColumns m.
Proof. by destruct forRow. Qed.

Lemma set_contraint_lookup forRow index v m forRow' i :
  contraints_of forRow' (set_contraint forRow index v m) !! i
  = if decide (forRow' = forRow ∧ i = index) then Some v
    else contraints_of forRow' m !! i.
Proof.
  destruct (decide (forRow' = forRow ∧ i = index)) as [[-> ->]|Hne].
  - destruct forRow; simpl; apply lookup_insert_eq.
  - destruct forRow, forRow'; simpl; try done;
      apply lookup_insert_ne; naive_solver.
Qed.

(** What a loading loop has done when it returns: the object it started
    from, the lines it loaded, the object it returned. *)
Lemma load_lines forRow (l : list nat) g g' :
  forEach l (λ i, _loadFieldMetaInformationsContraintsForFields forRow i) g = Ok tt g' →
  moveHistory g' = moveHistory g
  ∧ currentMoveIndex g' = currentMoveIndex g
  ∧ amountRows (meta g') = amountRows (meta g)
  ∧ amountColumns (meta g') = amountColumns (meta g)
  ∧ fields_related same_state (fields g) (fields g')
  ∧ (∀ i, i ∈ l → line_complete forRow i g)
  ∧ (∀ forRow' i,
       contraints_of forRow' (meta g') !! i
       = if decide (forRow' = forRow ∧ i ∈ l)
         then Some (Some (weighted_sum isSolution forRow i
                            (_getAmountRowColumns forRow g) (fields g)))
         else contraints_of forRow' (meta g) !! i).
Proof.
  revert g. induction l as [|index l IH]; intros g.
  - simpl. intros [= <-]. repeat split; try reflexivity.
    + by intros i ?%elem_of_nil.
    + intros forRow' i. rewrite decide_False; [done|]. by intros [_ ?%elem_of_nil].
  - cbn [forEach]. unfold bind at 1.
    destruct (line_complete_dec forRow index g) as [Hc|(i & Hi & Hnone)].
    2:{ pose proof (load_line_missing forRow index g i Hi Hnone) as Hm.
        destruct (_loadFieldMetaInformationsContraintsForFields forRow index g); done. }
    destruct (load_line forRow index g Hc) as (g1 & E & Hos). rewrite E. clear E.
    set (v := Some (weighted_sum isSolution forRow index
                      (_getAmountRowColumns forRow g) (fields g))).
    set (g2 := set_meta _ g1).
    intros H. apply IH in H as (Hh & Hcu & HaR & HaC & Hf & Hl & Hcs).
    destruct Hos as (Hh1 & Hcu1 & Hm1 & Hf1).
    destruct (set_contraint_amounts forRow index v (meta g1)) as [HaR2 HaC2].
    assert (Hn : _getAmountRowColumns forRow g2 = _getAmountRowColumns forRow g).
    { unfold _getAmountRowColumns, getAmountRows, getAmountColumns. simpl.
      rewrite HaR2, HaC2, Hm1. done. }
    split; [by rewrite Hh|]. split; [by rewrite Hcu|].
    split; [rewrite HaR; simpl; by rewrite HaR2, Hm1|].
    split; [rewrite HaC; simpl; by rewrite HaC2, Hm1|].
    split; [by etrans|]. split.
    + intros i [->|Hi]%elem_of_cons; [done|].
      specialize (Hl i Hi). intros j Hj. rewrite <- Hn in Hj.
      specialize (Hl j Hj). simpl in Hl.
      destruct Hf1 as [_ Hf1]. specialize (Hf1 (line_key forRow i j)).
      destruct Hl as [f' Hf']. rewrite Hf' in Hf1. inversion Hf1. eauto.
    + intros forRow' i. rewrite Hcs. simpl. rewrite Hn.
      rewrite (weighted_sum_related isSolution _ _ _ (fields g) (fields g1))
        by (done || apply isSolution_same_state).
      rewrite set_contraint_lookup, Hm1.
      destruct (decide (forRow' = forRow ∧ i ∈ l)) as [[-> Hi]|Hn1].
      * rewrite decide_True; [done|]. split; [done | by right].
      * destruct (decide (forRow' = forRow ∧ i = index)) as [[-> ->]|Hn2].
        -- rewrite decide_True; [done|]. split; [done | by left].
        -- rewrite decide_False; [done|].
           intros [-> [->|Hi]%elem_of_cons]; [apply Hn2 | apply Hn1]; by split.
Qed.

(** ** The scan of the keys *)

Lemma scan_column_mono (ks : list Key) (x : nat) :
  ∃ y, foldl (λ h k, Some (match h with
                           | Some m => m `max` split_0 k
                           | None => split_0 k
                           end)) (Some x) ks = Some y ∧ x ≤ y.
Proof.
  revert x. induction ks as [|k ks IH]; intros x; simpl; [eauto|].
  destruct (IH (x `max` split_0 k)) as (y & -> & Hy). exists y. split; [done | lia].
Qed.

Lemma scan_column_bound (ks : list Key) hr hc k :
  k ∈ ks →
  ∃ m, (foldl highest_step (hr, hc) ks).2 = Some m ∧ split_0 k ≤ m.
Proof.
  rewrite highest_keys_column. revert hc.
  induction ks as [|k0 ks IH]; intros hc Hk; [by apply elem_of_nil in Hk|].
  apply elem_of_cons in Hk as [->|Hk]; simpl; [|by apply IH].
  destruct hc as [m|].
  - destruct (scan_column_mono ks (m `max` split_0 k0)) as (y & -> & Hy).
    exists y. split; [done | lia].
  - destruct (scan_column_mono ks (split_0 k0)) as (y & -> & Hy). eauto.
Qed.

Lemma scan_row_ge (ks : list Key) hr hc M :
  (∀ k, k ∈ ks → split_0 k ≤ M) →
  (_getFieldKey M M ∈ ks ∨ ∃ x, hr = Some x ∧ M ≤ x) →
  ∃ y, (foldl highest_step (hr, hc) ks).1 = Some y ∧ M ≤ y.
Proof.
  revert hr hc. induction ks as [|k ks IH]; intros hr hc Hle Hin.
  - destruct Hin as [?%elem_of_nil|(x & -> & Hx)]; [done | eauto].
  - cbn [foldl]. destruct (highest_step (hr, hc) k) as [hr' hc'] eqn:E.
    apply IH; [intros k' Hk'; apply Hle; by right|].
    assert (Hk : split_0 k ≤ M) by (apply Hle; by left).
    unfold highest_step in E. injection E as <- _.
    destruct Hin as [[<-|Hin]%elem_of_cons|(x & -> & Hx)].
    + right. unfold split_0, split_1, _getFieldKey; simpl.
      destruct hr as [x|]; simpl; [|eauto].
      unfold falsy, less_than.
      repeat case_bool_decide; simpl; eexists; (split; [reflexivity | lia]).
    + by left.
    + right. unfold falsy, less_than.
      repeat case_bool_decide; simpl; eexists; (split; [reflexivity | lia]).
Qed.

(** ** What the loader establishes *)

Lemma _loadFieldMetaInformations_returns g0 g :
  _loadFieldMetaInformations g0 = Ok tt g →
  well_loaded g
  ∧ moveHistory g = moveHistory g0
  ∧ currentMoveIndex g = currentMoveIndex g0
  ∧ fields_related same_state (fields g0) (fields g).
Proof.
  unfold _loadFieldMetaInformations.
  unfold bind at 1, modify at 1. unfold bind at 1.
  unfold _loadFiledMetaInformationsAmountRowsAndColumns, bind at 1, gets at 1.
  simpl. unfold highest_keys.
  destruct (foldl highest_step (None, None) (Object_keys (fields g0)))
    as [hr hc] eqn:Escan.
  unfold modify at 1.
  unfold _loadFieldMetaInformationsContraints, bind at 1, modify at 1. simpl.
  set (aR := match hr with Some h => h + 1 | None => 0 end).
  set (aC := match hc with Some h => h + 1 | None => 0 end).
  set (g3 := set_meta _ _).
  unfold bind at 1, _loadFieldMetaInformationsConstraintsForRowColumn at 1,
    bind at 1, gets at 1.
  change (getAmountRows g3) with aR.
  destruct (forEach (seq 0 aR) _ g3) as [[] g4|g4] eqn:Erows; [|done].
  unfold _loadFieldMetaInformationsConstraintsForRowColumn, bind at 1, gets at 1.
  intros Ecols.
  apply load_lines in Erows as (Hh4 & Hc4 & HaR4 & HaC4 & Hf4 & Hl4 & Hcs4).
  assert (HaC : getAmountColumns g4 = aC) by (unfold getAmountColumns; by rewrite HaC4).
  rewrite HaC in Ecols.
  apply load_lines in Ecols as (Hh & Hc & HaR' & HaC' & Hf & Hl & Hcs).
  assert (HgR : getAmountRows g = aR)
    by (unfold getAmountRows; by rewrite HaR', HaR4).
  assert (HgC : getAmountColumns g = aC)
    by (unfold getAmountColumns; by rewrite HaC', HaC4).
  assert (Hf0 : fields_related same_state (fields g0) (fields g)) by by etrans.
  assert (Hin : ∀ k, is_Some (store_get k (fields g3)) → k ∈ Object_keys (fields g0)).
  { intros k Hk. by apply store_get_keys. }
  (* the two squares *)
  assert (HsqR : ∀ r c, r < aR → c < aR → _getFieldKey r c ∈ Object_keys (fields g0)).
  { intros r c Hr Hc'. apply Hin.
    apply (Hl4 r); [apply elem_of_seq; lia | done]. }
  assert (HsqC : ∀ r c, r < aC → c < aC → _getFieldKey r c ∈ Object_keys (fields g0)).
  { intros r c Hr Hc'. apply Hin.
    assert (Hb : is_Some (store_get (line_key false c r) (fields g4))).
    { apply (Hl c); [apply elem_of_seq; lia|].
      unfold _getAmountRowColumns. by rewrite HaC. }
    destruct Hf4 as [_ Hf4]. specialize (Hf4 (_getFieldKey r c)).
    destruct Hb as [f Hb]. simpl in Hb. rewrite Hb in Hf4. inversion Hf4. eauto. }
  (* the amounts agree *)
  assert (Hsq : aR = aC).
  { apply Nat.le_antisymm.
    - destruct hr as [y|]; [|unfold aR; lia].
      assert (Hy : _getFieldKey y 0 ∈ Object_keys (fields g0))
        by (apply HsqR; unfold aR; lia).
      destruct (scan_column_bound _ None None _ Hy) as (m & Hm & Hle).
      rewrite Escan in Hm. simpl in Hm. subst hc. unfold aR, aC.
      unfold split_0, _getFieldKey in Hle; simpl in Hle. lia.
    - destruct hc as [m|]; [|unfold aC; lia].
      assert (Hm : _getFieldKey m m ∈ Object_keys (fields g0))
        by (apply HsqC; unfold aC; lia).
      destruct (scan_row_ge (Object_keys (fields g0)) None None m) as (y & Hy & Hle).
      + intros k Hk. destruct (scan_column_bound _ None None _ Hk) as (m' & Hm' & Hle).
        rewrite Escan in Hm'. simpl in Hm'. by injection Hm' as ->.
      + by left.
      + rewrite Escan in Hy. simpl in Hy. subst hr. unfold aR, aC. lia. }
  split; [|split; [by rewrite Hh, Hh4|split; [by rewrite Hc, Hc4 | done]]].
  split; [by rewrite HgR, HgC|]. split.
  - intros r c Hr Hc'. rewrite HgR in Hr, Hc'.
    assert (Hb : is_Some (store_get (_getFieldKey r c) (fields g0)))
      by (apply store_get_keys; by apply HsqR).
    destruct Hf0 as [_ Hf0]. specialize (Hf0 (_getFieldKey r c)).
    destruct Hb as [f Hb]. rewrite Hb in Hf0. inversion Hf0. eauto.
  - split.
    + intros r Hr. rewrite HgR in *.
      unfold getConstraintValueForRow, _getConstraintValue.
      change (contraints_rows (meta g)) with (contraints_of true (meta g)).
      rewrite Hcs, decide_False by (by intros [? _]).
      rewrite Hcs4, decide_True by (split; [done | apply elem_of_seq; lia]).
      do 2 f_equal. unfold _getAmountRowColumns. change (getAmountRows g3) with aR.
      symmetry. apply (weighted_sum_related isSolution);
        [apply isSolution_same_state | by etrans].
    + intros c Hc'. rewrite HgC in *.
      unfold getConstraintValueForColumn, _getConstraintValue.
      change (contraints_columns (meta g)) with (contraints_of false (meta g)).
      rewrite Hcs, decide_True by (split; [done | apply elem_of_seq; lia]).
      do 2 f_equal. unfold _getAmountRowColumns. rewrite HaC.
      symmetry. by apply (weighted_sum_related isSolution);
        [apply isSolution_same_state|].
Qed.

Lemma bind_Ok_inv {A B} (c : M A) (k : A → M B) g b g' :
  bind c k g = Ok b g' → ∃ a g1, c g = Ok a g1 ∧ k a g1 = Ok b g'.
Proof. unfold bind. destruct (c g) as [a g1|g1]; [eauto | done]. Qed.

Lemma constructor_fields_returns st tape g0 g :
  constructor_fields st tape g0 = Ok tt g →
  ∃ g1, moveHistory g1 = moveHistory g0
        ∧ currentMoveIndex g1 = currentMoveIndex g0
        ∧ _loadFieldMetaInformations g1 = Ok tt g.
Proof.
  unfold constructor_fields.
  intros (fieldsJSON & g1 & E1 & H)%bind_Ok_inv.
  apply bind_Ok_inv in H as ([] & g2 & E2 & H).
  apply bind_Ok_inv in H as ([] & g3 & E3 & H).
  exists g3. split; [|split; [|done]].
  - pose proof (keeps_forEach moveHistory (Object_keys fieldsJSON)
      (λ fieldKey,
         match store_get fieldKey fieldsJSON with
         | Some fieldJSON =>
             modify (λ g, set_fields
                            (store_put fieldKey (new_KakurasuField fieldJSON) (fields g)) g)
         | None => throw
         end)) as Hk.
    unfold keeps in Hk. specialize (Hk ltac:(intros k; by destruct (store_get k fieldsJSON)) g2).
    rewrite E3 in Hk. simpl in Hk. rewrite Hk.
    injection E2 as <-. simpl.
    destruct (s_fields st); [by injection E1 as _ <-|].
    destruct (generateLevel _ _ _) as [[? ?]|]; [by injection E1 as _ <-|done].
  - pose proof (keeps_forEach currentMoveIndex (Object_keys fieldsJSON)
      (λ fieldKey,
         match store_get fieldKey fieldsJSON with
         | Some fieldJSON =>
             modify (λ g, set_fields
                            (store_put fieldKey (new_KakurasuField fieldJSON) (fields g)) g)
         | None => throw
         end)) as Hk.
    unfold keeps in Hk. specialize (Hk ltac:(intros k; by destruct (store_get k fieldsJSON)) g2).
    rewrite E3 in Hk. simpl in Hk. rewrite Hk.
    injection E2 as <-. simpl.
    destruct (s_fields st); [by injection E1 as _ <-|].
    destruct (generateLevel _ _ _) as [[? ?]|]; [by injection E1 as _ <-|done].
Qed.

(** ** Constructed games *)

Lemma new_Kakurasu_well_loaded st tape g :
  new_Kakurasu st tape = Ok tt g → well_loaded g.
Proof.
  unfold new_Kakurasu. destruct (constructor_eq st tape blank) as [g0 ->].
  intros (g1 & _ & _ & H)%constructor_fields_returns.
  by apply _loadFieldMetaInformations_returns in H as [H _].
Qed.

(** X6. Whenever the constructor returns a game, the game is square, its
    square is complete and its cache is right: [getAmountRows()] equals
    [getAmountColumns()], every coordinate below that amount has a field,
    and each cached row (column) target is the sum of the weights of the
    solution fields of that row (column). *)
Theorem constructed_game_well_loaded st tape g :
  new_Kakurasu st tape = Ok tt g → well_loaded g.
Proof. apply new_Kakurasu_well_loaded. Qed.

Lemma constructed_game_well_loaded_witness :
  new_Kakurasu (mkSnapshot None None (Some fields_3x3)) tape_zero = Ok tt game_3x3
  ∧ well_loaded game_3x3.
Proof.
  assert (H : new_Kakurasu (mkSnapshot None None (Some fields_3x3)) tape_zero
              = Ok tt game_3x3) by (vm_compute; reflexivity).
  split; [exact H|].
  exact (constructed_game_well_loaded _ _ _ H).
Defined.

(** ** Commands keep a game well loaded *)

Lemma weighted_sum_related_flags forRow index n fs fs' :
  fields_related same_flags fs fs' →
  weighted_sum isSolution forRow index n fs' = weighted_sum isSolution forRow index n fs.
Proof.
  intros [_ Hf]. unfold weighted_sum.
  induction (seq 0 n) as [|i l IH]; [done|]. simpl. rewrite IH. f_equal.
  specialize (Hf (line_key forRow index i)).
  destruct Hf as [f f' [_ Hs]|]; [|done]. by rewrite Hs.
Qed.

Lemma same_puzzle_well_loaded g g' : same_puzzle g g' → well_loaded g → well_loaded g'.
Proof.
  intros [Hm Hf] (Hsq & Hcomp & [HcR HcC]).
  assert (HaR : getAmountRows g' = getAmountRows g) by (unfold getAmountRows; by rewrite Hm).
  assert (HaC : getAmountColumns g' = getAmountColumns g)
    by (unfold getAmountColumns; by rewrite Hm).
  split; [by rewrite HaR, HaC|]. split.
  - intros r c Hr Hc. rewrite HaR in Hr, Hc.
    destruct (Hcomp r c Hr Hc) as [f Hb].
    destruct Hf as [_ Hf]. specialize (Hf (_getFieldKey r c)).
    rewrite Hb in Hf. inversion Hf. eauto.
  - split.
    + intros r Hr. rewrite HaR in *.
      unfold getConstraintValueForRow, _getConstraintValue in *. rewrite Hm.
      by rewrite HcR, (weighted_sum_related_flags _ _ _ (fields g) (fields g')).
    + intros c Hc. rewrite HaC in *.
      unfold getConstraintValueForColumn, _getConstraintValue in *. rewrite Hm.
      by rewrite HcC, (weighted_sum_related_flags _ _ _ (fields g) (fields g')).
Qed.

Lemma reachable_is_well_loaded g : reachable g → well_loaded g.
Proof.
  induction 1 as [st tape g _ Hnew | c g _ IH].
  - by eapply new_Kakurasu_well_loaded.
  - eapply same_puzzle_well_loaded; [|exact IH]. apply execute_same_puzzle.
Qed.



(** ** The checks in a well-loaded game *)

Lemma forallb_pointwise_in {A} (p q : A → bool) (l : list A) :
  (∀ x, x ∈ l → p x = q x) → forallb p l = forallb q l.
Proof.
  intros H. induction l as [|x l IH]; simpl; [done|].
  rewrite H by by left. rewrite IH; [done|]. intros y Hy. apply H. by right.
Qed.

Lemma well_loaded_line_complete forRow index g :
  well_loaded g → index < getAmountRows g → line_complete forRow index g.
Proof.
  intros (Hsq & Hcomp & _) Hi j Hj.
  assert (j < getAmountRows g).
  { unfold _getAmountRowColumns in Hj. destruct forRow; lia. }
  destruct forRow; simpl; by apply Hcomp.
Qed.

Lemma well_loaded_row_check g r :
  well_loaded g → r < getAmountRows g → row_check g r = row_solved g r.
Proof.
  intros (_ & _ & [HcR _]) Hr. unfold row_check, row_solved. by rewrite HcR.
Qed.

Lemma well_loaded_column_check g c :
  well_loaded g → c < getAmountColumns g → column_check g c = column_solved g c.
Proof.
  intros (_ & _ & [_ HcC]) Hc. unfold column_check, column_solved. by rewrite HcC.
Qed.

Lemma well_loaded_checks g :
  well_loaded g →
  (∀ r, r < getAmountRows g →
        returned (isRowConstraintSatisfied r g) = Some (row_solved g r))
  ∧ (∀ c, c < getAmountColumns g →
          returned (isColumnConstraintSatisfied c g) = Some (column_solved g c))
  ∧ returned (isGameWon g) = Some (forallb (row_solved g) (seq 0 (getAmountRows g))).
Proof.
  intros Hw. pose proof Hw as (Hsq & _ & _). split; [|split].
  - intros r Hr.
    destruct (_isRowColumnConstraintSatisfied_complete true r g) as (g' & E & _).
    { by apply well_loaded_line_complete. }
    unfold isRowConstraintSatisfied. rewrite E. simpl.
    by rewrite well_loaded_row_check.
  - intros c Hc.
    destruct (_isRowColumnConstraintSatisfied_complete false c g) as (g' & E & _).
    { apply well_loaded_line_complete; [done | lia]. }
    unfold isColumnConstraintSatisfied. rewrite E. simpl.
    by rewrite well_loaded_column_check.
  - rewrite isGameWon_returned.
    + rewrite <- Hsq.
      rewrite (forallb_pointwise_in (row_check g) (row_solved g)).
      * by destruct (forallb _ _).
      * intros r Hr%elem_of_seq. apply well_loaded_row_check; [done | lia].
    + intros i Hi. apply well_loaded_line_complete; [done | lia].
Qed.



(** ** The checks on the sample games *)

Lemma game_3x3_well_loaded : well_loaded game_3x3.
Proof.
  apply (new_Kakurasu_well_loaded (mkSnapshot None None (Some fields_3x3)) tape_zero).
  vm_compute; reflexivity.
Qed.

Lemma isRowConstraintSatisfied_value_witness :
  returned (isRowConstraintSatisfied 0 game_3x3) = Some (row_check game_3x3 0)
  ∧ returned (isRowConstraintSatisfied 5 game_3x3) = None.
Proof.
  split.
  - apply (proj1 (isRowConstraintSatisfied_value 0 game_3x3)).
    apply well_loaded_line_complete; [apply game_3x3_well_loaded|].
    vm_compute; lia.
  - apply (proj2 (isRowConstraintSatisfied_value 5 game_3x3) 0).
    + vm_compute; lia.
    + vm_compute; reflexivity.
Defined.

Lemma isColumnConstraintSatisfied_value_witness :
  returned (isColumnConstraintSatisfied 0 game_3x3) = Some (column_check game_3x3 0)
  ∧ returned (isColumnConstraintSatisfied 5 game_3x3) = None.
Proof.
  split.
  - apply (proj1 (isColumnConstraintSatisfied_value 0 game_3x3)).
    apply well_loaded_line_complete; [apply game_3x3_well_loaded|].
    vm_compute; lia.
  - apply (proj2 (isColumnConstraintSatisfied_value 5 game_3x3) 0).
    + vm_compute; lia.
    + vm_compute; reflexivity.
Defined.

Lemma isGameWon_value_witness :
  returned (isGameWon game_3x3)
  = Some (forallb (row_check game_3x3) (seq 0 (getAmountRows game_3x3))
          && forallb (row_check game_3x3) (seq 0 (getAmountColumns game_3x3))).
Proof.
  apply (isGameWon_value game_3x3).
  intros i Hi. apply well_loaded_line_complete; [apply game_3x3_well_loaded|].
  vm_compute in Hi. vm_compute. lia.
Defined.

(** ** The highest constraint *)

Lemma highest_loop (forRow : bool) (g : Kakurasu) (t : nat → nat) (idx : list nat) (m : nat) :
  (∀ i : nat, i ∈ idx →
        (if forRow then getConstraintValueForRow i g
         else getConstraintValueForColumn i g) = Some (Some (t i))) →
  foldl (λ maxValue i,
           let value :=
             constraint_value (if forRow then getConstraintValueForRow i g
                               else getConstraintValueForColumn i g) in
           if is_null maxValue || js_lt maxValue value then value else maxValue)
        (js_number (Some m)) idx
  = js_number (Some (m `max` max_list (t <$> idx))).
Proof.
  revert m. induction idx as [|i idx IH]; intros m H; csimpl.
  - f_equal. f_equal. lia.
  - rewrite (H i) by by left. simpl. unfold js_lt. simpl.
    assert (His : ∀ j : nat, j ∈ idx →
        (if forRow then getConstraintValueForRow j g
         else getConstraintValueForColumn j g) = Some (Some (t j))).
    { intros j Hj. apply H. by right. }
    case_bool_decide; rewrite IH by done; do 2 f_equal; lia.
Qed.

Lemma highest_line (forRow : bool) (g : Kakurasu) :
  well_loaded g →
  getHighestConstraintForColumnRow forRow g
  = if decide (getAmountRows g = 0) then js_null
    else js_number (Some (max_list (targets forRow g))).
Proof.
  intros (Hsq & _ & [HcR HcC]).
  unfold getHighestConstraintForColumnRow, targets.
  assert (Hn : _getAmountRowColumns forRow g = getAmountRows g).
  { unfold _getAmountRowColumns. by destruct forRow. }
  destruct (decide (getAmountRows g = 0)) as [E|E].
  - rewrite Hn, E. done.
  - destruct (_getAmountRowColumns forRow g) as [|n] eqn:En; [lia|].
    rewrite <- cons_seq. cbn [foldl]. csimpl.
    assert (H : ∀ i, i < S n →
        (if forRow then getConstraintValueForRow i g
         else getConstraintValueForColumn i g)
        = Some (Some (weighted_sum isSolution forRow i (S n) (fields g)))).
    { intros i Hi. rewrite <- En. unfold _getAmountRowColumns.
      destruct forRow; [apply HcR | apply HcC];
        unfold _getAmountRowColumns in En; lia. }
    rewrite (H 0) by lia. cbn [constraint_value].
    rewrite (highest_loop forRow g (λ i, weighted_sum isSolution forRow i (S n) (fields g))).
    + done.
    + intros i Hi%elem_of_seq. apply H. lia.
Qed.

Lemma max_list_append (l k : list nat) :
  max_list (l ++ k) = max_list l `max` max_list k.
Proof. induction l as [|x l IH]; simpl; [done|]. rewrite IH. lia. Qed.

Lemma getHighestConstraintValue_well_loaded g :
  well_loaded g →
  getHighestConstraintValue g
  = if decide (getAmountRows g = 0) then js_null
    else js_number (Some (max_list (targets true g ++ targets false g))).
Proof.
  intros Hw. unfold getHighestConstraintValue. cbv zeta.
  rewrite !highest_line by done.
  destruct (decide (getAmountRows g = 0)); [done|].
  unfold js_lt. simpl. rewrite max_list_append.
  case_bool_decide; do 2 f_equal; lia.
Qed.

(** X9. In a well-loaded game (every reachable game is one)
    [getHighestConstraintValue()] returns the largest of all row and column
    targets, and [null] when the game has no rows. *)
Theorem getHighestConstraintValue_is_maximum g :
  well_loaded g →
  getHighestConstraintValue g
  = if decide (getAmountRows g = 0) then js_null
    else js_number (Some (max_list (targets true g ++ targets false g))).
Proof. apply getHighestConstraintValue_well_loaded. Qed.

Lemma getHighestConstraintValue_is_maximum_witness :
  well_loaded game_3x3
  ∧ getHighestConstraintValue game_3x3
    = if decide (getAmountRows game_3x3 = 0) then js_null
      else js_number (Some (max_list (targets true game_3x3 ++ targets false game_3x3))).
Proof.
  split; [exact game_3x3_well_loaded|].
  exact (getHighestConstraintValue_is_maximum game_3x3 game_3x3_well_loaded).
Defined.

(** ** A move and its undo *)

Lemma kept_history_length g :
  cursor_consistent g →
  Z.of_nat (length (kept_history g))
  = match currentMoveIndex g with Some i => (i + 1)%Z | None => 0%Z end.
Proof.
  unfold cursor_consistent, kept_history.
  destruct (currentMoveIndex g) as [i|]; [|done].
  intros Hi. rewrite slice_0_nonneg by lia. rewrite length_take. lia.
Qed.

Lemma _calcNextCurrentMoveIndex_1 g :
  cursor_consistent g →
  _calcNextCurrentMoveIndex 1 g
  = Some (match currentMoveIndex g with Some i => (i + 1)%Z | None => 0%Z end).
Proof.
  unfold cursor_consistent, _calcNextCurrentMoveIndex.
  destruct (currentMoveIndex g) as [i|]; [|done].
  intros Hi. simpl. destruct (Z.ltb_spec (i + 1) 0); [lia | done].
Qed.

Lemma stamp_moved_back row column s f :
  moved row column (getStatus f) (moved row column s f) = stamp row column f.
Proof. by destruct f as [[s0 ro sol] r c]. Qed.

Lemma setField_then_undoMove cmd row column g :
  cursor_consistent g →
  is_movable (fields g) row column = true →
  ∃ f g1,
    store_get (_getFieldKey row column) (fields g) = Some f
    ∧ setField cmd row column g = Ok true g1
    ∧ undoMove g1
      = Ok true (mkKakurasu
                   (kept_history g ++ [mkMove row column (getStatus f) (status_of cmd)])
                   (currentMoveIndex g)
                   (store_put (_getFieldKey row column) (stamp row column f) (fields g))
                   (meta g)).
Proof.
  intros Hc Hm.
  destruct (setField_movable cmd row column g Hm) as (f & Hf & Hro & E).
  eexists f, _. split; [done|]. split; [exact E|].
  pose proof (kept_history_length g Hc) as Hlen.
  set (j := match currentMoveIndex g with Some i => (i + 1)%Z | None => 0%Z end) in *.
  assert (Hj : (0 ≤ j)%Z).
  { unfold j. unfold cursor_consistent in Hc.
    destruct (currentMoveIndex g); lia. }
  rewrite (_calcNextCurrentMoveIndex_1 g Hc). fold j.
  erewrite (undoMove_at _ j (mkMove row column (getStatus f) (status_of cmd))
              (moved row column (status_of cmd) f)); simpl.
  - f_equal. f_equal.
    + unfold j. unfold cursor_consistent in Hc.
      destruct (currentMoveIndex g) as [i|]; [|done].
      destruct (Z.ltb_spec (i + 1 - 1) 0); [lia|]. f_equal. lia.
    + rewrite store_put_put. by rewrite stamp_moved_back.
  - done.
  - done.
  - rewrite lookup_app_r by lia.
    replace (Z.to_nat j - length (kept_history g)) with 0 by lia. done.
  - by rewrite store_get_put_eq.
  - done.
Qed.

(** X10. In a game whose cursor is consistent (every reachable game), a
    status-setting move on a field that is not read-only, followed by
    [undoMove()]: both return true; afterwards the cursor is where it was
    before the move, every field has the state it had, the constraint
    cache is unchanged, the move is still in the history and can be
    redone. *)
Theorem move_then_undo_restores cmd row column g :
  cursor_consistent g →
  is_movable (fields g) row column = true →
  ∃ f g1 g2,
    store_get (_getFieldKey row column) (fields g) = Some f
    ∧ setField cmd row column g = Ok true g1
    ∧ undoMove g1 = Ok true g2
    ∧ currentMoveIndex g2 = currentMoveIndex g
    ∧ fields_related same_state (fields g) (fields g2)
    ∧ meta g2 = meta g
    ∧ moveHistory g2
      = kept_history g ++ [mkMove row column (getStatus f) (status_of cmd)]
    ∧ isPossibleToRedoMove g2 = true.
Proof.
  intros Hc Hm.
  destruct (setField_then_undoMove cmd row column g Hc Hm) as (f & g1 & Hf & E1 & E2).
  eexists f, g1, _. split; [done|]. split; [done|]. split; [exact E2|].
  simpl. split; [done|]. split; [|split; [done|split; [done|]]].
  - by apply (fields_related_put same_state _ _ f).
  - unfold isPossibleToRedoMove. apply bool_decide_eq_true.
    pose proof (kept_history_length g Hc) as Hlen.
    unfold _calcNextCurrentMoveIndex, getMoveFromHistoryAsCopy; simpl.
    unfold cursor_consistent in Hc.
    destruct (currentMoveIndex g) as [i|]; simpl.
    + destruct (Z.ltb_spec (i + 1) 0); [lia|]. simpl.
      destruct (Z.ltb_spec (i + 1) 0); [lia|].
      rewrite lookup_app_r by lia.
      replace (Z.to_nat (i + 1) - length (kept_history g)) with 0 by lia. by eexists.
    + rewrite lookup_app_r by lia.
      replace (Z.to_nat 0 - length (kept_history g)) with 0 by lia. by eexists.
Qed.

Lemma move_then_undo_restores_witness :
  cursor_consistent game_2x2
  ∧ is_movable (fields game_2x2) 0 1 = true
  ∧ ∃ f g1 g2,
      store_get (_getFieldKey 0 1) (fields game_2x2) = Some f
      ∧ setField SetFieldFlagged 0 1 game_2x2 = Ok true g1
      ∧ undoMove g1 = Ok true g2
      ∧ currentMoveIndex g2 = currentMoveIndex game_2x2
      ∧ fields_related same_state (fields game_2x2) (fields g2)
      ∧ meta g2 = meta game_2x2
      ∧ moveHistory g2
        = kept_history game_2x2 ++ [mkMove 0 1 (getStatus f) (status_of SetFieldFlagged)]
      ∧ isPossibleToRedoMove g2 = true.
Proof.
  assert (Hc : cursor_consistent game_2x2) by exact I.
  assert (Hm : is_movable (fields game_2x2) 0 1 = true) by (vm_compute; reflexivity).
  split; [exact Hc|]. split; [exact Hm|].
  exact (move_then_undo_restores SetFieldFlagged 0 1 game_2x2 Hc Hm).
Defined.

(** ** The toggles *)

Lemma toggle_bound (on : FieldCommand) row column f g :
  store_get (_getFieldKey row column) (fields g) = Some f →
  (field <- getField row column ;;
   f <- deref field ;;
   if isClear f then setField on row column else setFieldClear row column) g
  = if isReadOnly f
    then Ok false (set_fields (store_put (_getFieldKey row column)
                     (stamp row column f) (fields g)) g)
    else Ok true (mkKakurasu
                    (kept_history g ++ [mkMove row column (getStatus f)
                                          (toggled (status_of on) f)])
                    (_calcNextCurrentMoveIndex 1 g)
                    (store_put (_getFieldKey row column)
                       (moved row column (toggled (status_of on) f) f) (fields g))
                    (meta g)).
Proof.
  intros Hf. unfold bind at 1. unfold getField at 1. rewrite Hf.
  unfold bind at 1. rewrite deref_put.
  assert (Hclear : isClear (stamp row column f) = isClear f) by done.
  rewrite Hclear. unfold toggled.
  set (g1 := set_fields _ g).
  assert (Hf1 : store_get (_getFieldKey row column) (fields g1)
                = Some (stamp row column f)).
  { unfold g1; simpl. by rewrite store_get_put_eq. }
  destruct (isClear f).
  - rewrite setField_eq, (_setFieldStatus_bound _ _ _ _ _ Hf1).
    change (isReadOnly (stamp row column f)) with (isReadOnly f).
    destruct (isReadOnly f); unfold g1; simpl; rewrite store_put_put; done.
  - unfold setFieldClear. rewrite (_setFieldStatus_bound _ _ _ _ _ Hf1).
    change (isReadOnly (stamp row column f)) with (isReadOnly f).
    destruct (isReadOnly f); unfold g1; simpl; rewrite store_put_put; done.
Qed.

Lemma toggle_status (on : FieldCommand) (c : nat → nat → M bool) row column g f :
  (∀ g, c row column g
        = (field <- getField row column ;;
           f <- deref field ;;
           if isClear f then setField on row column else setFieldClear row column) g) →
  store_get (_getFieldKey row column) (fields g) = Some f →
  returned (c row column g) = Some (negb (isReadOnly f))
  ∧ status_at (final (c row column g)) row column
    = Some (if isReadOnly f then getStatus f else toggled (status_of on) f).
Proof.
  intros Hc Hf. rewrite Hc, (toggle_bound on row column f g Hf).
  unfold status_at.
  destruct (isReadOnly f); simpl; rewrite store_get_put_eq; done.
Qed.

(** X11. The toggles on a coordinate that has a field.
    [changeActiveStatus] makes a Clear field Active and any other field
    (Active or Flagged) Clear; [changeFlagStatus] makes a Clear field
    Flagged and any other field Clear.  Both return true, unless the field
    is read-only: then they return false and the status stays.  On a
    coordinate without a field both raise. *)
Theorem toggles_flip_status row column g :
  (∀ f, store_get (_getFieldKey row column) (fields g) = Some f →
        (returned (changeActiveStatus row column g) = Some (negb (isReadOnly f))
         ∧ status_at (final (changeActiveStatus row column g)) row column
           = Some (if isReadOnly f then getStatus f else toggled STATUS_ACTIVE f))
        ∧ (returned (changeFlagStatus row column g) = Some (negb (isReadOnly f))
           ∧ status_at (final (changeFlagStatus row column g)) row column
             = Some (if isReadOnly f then getStatus f else toggled STATUS_FLAGGED f)))
  ∧ (store_get (_getFieldKey row column) (fields g) = None →
     changeActiveStatus row column g = Throw g
     ∧ changeFlagStatus row column g = Throw g).
Proof.
  split.
  - intros f Hf. split.
    + by apply (toggle_status SetFieldActive changeActiveStatus).
    + by apply (toggle_status SetFieldFlagged changeFlagStatus).
  - intros Hf. unfold changeActiveStatus, changeFlagStatus, bind, getField.
    by rewrite Hf.
Qed.

Lemma toggles_flip_status_witness :
  ((returned (changeActiveStatus 0 1 game_2x2_given) = Some false
    ∧ status_at (final (changeActiveStatus 0 1 game_2x2_given)) 0 1 = Some STATUS_FLAGGED)
   ∧ (returned (changeFlagStatus 0 1 game_2x2_given) = Some false
      ∧ status_at (final (changeFlagStatus 0 1 game_2x2_given)) 0 1 = Some STATUS_FLAGGED))
  ∧ (changeActiveStatus 0 5 game_2x2 = Throw game_2x2
     ∧ changeFlagStatus 0 5 game_2x2 = Throw game_2x2).
Proof.
  split.
  - apply (proj1 (toggles_flip_status 0 1 game_2x2_given)
             (mkField (cell STATUS_FLAGGED true false) (Some 0) (Some 1))).
    vm_compute; reflexivity.
  - apply (proj2 (toggles_flip_status 0 5 game_2x2)).
    vm_compute; reflexivity.
Defined.

(** ** The field of the current move *)

Lemma getFieldOfCurrentMove_at g i m f :
  currentMoveIndex g = Some i → (0 ≤ i)%Z →
  moveHistory g !! Z.to_nat i = Some m →
  store_get (_getFieldKey (row m) (column m)) (fields g) = Some f →
  getFieldOfCurrentMove g
  = Ok (Some (_getFieldKey (row m) (column m)))
       (set_fields (store_put (_getFieldKey (row m) (column m))
                      (stamp (row m) (column m) f) (fields g)) g).
Proof.
  intros Hi Hpos Hm Hf.
  unfold getFieldOfCurrentMove, bind, gets, _calcNextCurrentMoveIndex,
    getMoveFromHistoryAsCopy.
  rewrite Hi. replace (i + 0)%Z with i by lia.
  assert (Hlt : (i <? 0)%Z = false) by lia.
  rewrite Hlt. cbv iota beta. rewrite Hlt, Hm.
  unfold _getFieldFromMove, getField, bind. cbv beta. by rewrite Hf.
Qed.

Lemma getFieldOfCurrentMove_after_move cmd row column g :
  cursor_consistent g →
  is_movable (fields g) row column = true →
  ∃ g1, setField cmd row column g = Ok true g1
        ∧ returned (getFieldOfCurrentMove g1) = Some (Some (_getFieldKey row column))
        ∧ status_at (final (getFieldOfCurrentMove g1)) row column
          = Some (status_of cmd).
Proof.
  intros Hc Hm.
  destruct (setField_movable cmd row column g Hm) as (f & Hf & Hro & E).
  eexists. split; [exact E|].
  pose proof (kept_history_length g Hc) as Hlen.
  set (j := match currentMoveIndex g with Some i => (i + 1)%Z | None => 0%Z end) in *.
  assert (Hj : (0 ≤ j)%Z).
  { unfold j. unfold cursor_consistent in Hc. destruct (currentMoveIndex g); lia. }
  rewrite (_calcNextCurrentMoveIndex_1 g Hc). fold j.
  erewrite (getFieldOfCurrentMove_at _ j
              (mkMove row column (getStatus f) (status_of cmd))
              (moved row column (status_of cmd) f)); simpl.
  - split; [done|]. unfold status_at; simpl. by rewrite store_get_put_eq.
  - done.
  - done.
  - rewrite lookup_app_r by lia.
    replace (Z.to_nat j - length (kept_history g)) with 0 by lia. done.
  - by rewrite store_get_put_eq.
Qed.

(** X12. [getFieldOfCurrentMove()] returns [null], changing nothing, while
    the cursor is Empty (a new game, a reset game, a game with every move
    undone).  Right after a successful status-setting move on
    [(row, column)], in a game whose cursor is consistent, it returns the
    field at [(row, column)], and that field has the status the move
    set. *)
Theorem getFieldOfCurrentMove_is_last_moved g :
  (currentMoveIndex g = None → getFieldOfCurrentMove g = Ok None g)
  ∧ (∀ cmd row column,
       cursor_consistent g →
       is_movable (fields g) row column = true →
       ∃ g1, setField cmd row column g = Ok true g1
             ∧ returned (getFieldOfCurrentMove g1)
               = Some (Some (_getFieldKey row column))
             ∧ status_at (final (getFieldOfCurrentMove g1)) row column
               = Some (status_of cmd)).
Proof.
  split.
  - intros Hn. unfold getFieldOfCurrentMove, bind, gets, _calcNextCurrentMoveIndex.
    by rewrite Hn.
  - intros cmd row column. apply getFieldOfCurrentMove_after_move.
Qed.

Lemma getFieldOfCurrentMove_is_last_moved_witness :
  getFieldOfCurrentMove game_2x2 = Ok None game_2x2
  ∧ ∃ g1, setField SetFieldActive 1 1 game_2x2 = Ok true g1
          ∧ returned (getFieldOfCurrentMove g1) = Some (Some (_getFieldKey 1 1))
          ∧ status_at (final (getFieldOfCurrentMove g1)) 1 1
            = Some (status_of SetFieldActive).
Proof.
  split.
  - apply (proj1 (getFieldOfCurrentMove_is_last_moved game_2x2)).
    vm_compute; reflexivity.
  - apply (proj2 (getFieldOfCurrentMove_is_last_moved game_2x2) SetFieldActive 1 1).
    + exact I.
    + vm_compute; reflexivity.
Defined.

(** ** What a command leaves alone *)

Lemma _applyMove_frame move g k :
  k ≠ _getFieldKey (row move) (column move) →
  store_get k (fields (final (_applyMove move g))) = store_get k (fields g).
Proof.
  intros Hk.
  destruct (store_get (_getFieldKey (row move) (column move)) (fields g)) as [f|] eqn:Hf.
  - rewrite (_applyMove_bound move f g Hf).
    destruct (isReadOnly f); simpl; by rewrite store_get_put_ne.
  - by rewrite (_applyMove_unbound move g Hf).
Qed.

Lemma _setFieldStatus_frame row column s g k :
  k ≠ _getFieldKey row column →
  store_get k (fields (final (_setFieldStatus row column s g))) = store_get k (fields g).
Proof.
  intros Hk.
  destruct (store_get (_getFieldKey row column) (fields g)) as [f|] eqn:Hf.
  - rewrite (_setFieldStatus_bound row column s f g Hf).
    destruct (isReadOnly f); simpl; by rewrite store_get_put_ne.
  - by rewrite (_setFieldStatus_unbound row column s g Hf).
Qed.

Lemma toggle_frame (on : FieldCommand) row column g k :
  k ≠ _getFieldKey row column →
  store_get k (fields (final
    ((field <- getField row column ;;
      f <- deref field ;;
      if isClear f then setField on row column else setFieldClear row column) g)))
  = store_get k (fields g).
Proof.
  intros Hk.
  destruct (store_get (_getFieldKey row column) (fields g)) as [f|] eqn:Hf.
  - rewrite (toggle_bound on row column f g Hf).
    destruct (isReadOnly f); simpl; by rewrite store_get_put_ne.
  - unfold bind, getField. by rewrite Hf.
Qed.

Lemma execute_frame c g k :
  c ≠ ResetGame → target c g ≠ Some k →
  store_get k (fields (execute c g)) = store_get k (fields g).
Proof.
  intros Hc Hk. destruct c as [cmd row column|row column|row column| | |]; simpl in *.
  - rewrite setField_eq. apply _setFieldStatus_frame. congruence.
  - apply (toggle_frame SetFieldActive). congruence.
  - apply (toggle_frame SetFieldFlagged). congruence.
  - rewrite undoMove_eq.
    destruct (getMoveFromHistoryAsCopy _ g) as [m|]; [|done].
    rewrite _applyMove_frame; [done|]. simpl in Hk. simpl. congruence.
  - rewrite redoMove_eq.
    destruct (getMoveFromHistoryAsCopy _ g) as [m|]; [|done].
    rewrite _applyMove_frame; [done|]. simpl in Hk. congruence.
  - done.
Qed.

(** X13. Every command other than a reset leaves every field object but
    the one it addresses exactly as it is, whether the method returns or
    raises: a move or a toggle addresses the coordinate it is given, an
    undo the field of the move at the cursor, a redo the field of the move
    after the cursor. *)
Theorem commands_touch_one_field c g k :
  c ≠ ResetGame → target c g ≠ Some k →
  store_get k (fields (execute c g)) = store_get k (fields g).
Proof. apply execute_frame. Qed.

Lemma commands_touch_one_field_witness :
  UndoMove ≠ ResetGame
  ∧ target UndoMove game_2x2_moved ≠ Some (_getFieldKey 1 1)
  ∧ store_get (_getFieldKey 1 1) (fields (execute UndoMove game_2x2_moved))
    = store_get (_getFieldKey 1 1) (fields game_2x2_moved).
Proof.
  assert (H1 : UndoMove ≠ ResetGame) by discriminate.
  assert (H2 : target UndoMove game_2x2_moved ≠ Some (_getFieldKey 1 1))
    by (vm_compute; discriminate).
  split; [exact H1|]. split; [exact H2|].
  exact (commands_touch_one_field UndoMove game_2x2_moved (_getFieldKey 1 1) H1 H2).
Defined.

(** ** The random source *)

Lemma floor_random_times_range d n :
  (0 < n)%Z → (0 ≤ floor_random_times d n < n)%Z.
Proof.
  intros Hn. unfold floor_random_times.
  set (D := Z.of_nat (numer d + slack d + 1)).
  assert (HD : (0 < D)%Z) by (unfold D; lia).
  split.
  - apply Z.div_pos; [nia | done].
  - apply Z.div_lt_upper_bound; [done|]. unfold D. nia.
Qed.

Lemma floor_random_times_0 d : floor_random_times d 0 = 0%Z.
Proof. unfold floor_random_times. by rewrite Z.mul_0_r. Qed.

Lemma _getRandomInt_eq lo hi tape pos :
  _getRandomInt lo hi tape pos
  = Some ((floor_random_times (tape pos) (Qfloor hi - Qceiling lo + 1)
           + Qceiling lo)%Z, S pos).
Proof. done. Qed.

Lemma _getRandomInt_between lo hi tape pos :
  (Qceiling lo ≤ Qfloor hi)%Z →
  ∃ r, _getRandomInt lo hi tape pos = Some (r, S pos)
       ∧ (Qceiling lo ≤ r ≤ Qfloor hi)%Z
       ∧ (lo <= inject_Z r)%Q ∧ (inject_Z r <= hi)%Q.
Proof.
  intros H. rewrite _getRandomInt_eq. eexists. split; [done|].
  pose proof (floor_random_times_range (tape pos) (Qfloor hi - Qceiling lo + 1)) as Hr.
  assert (Hb : (Qceiling lo
                ≤ floor_random_times (tape pos) (Qfloor hi - Qceiling lo + 1) + Qceiling lo
                ≤ Qfloor hi)%Z) by lia.
  split; [exact Hb|]. split.
  - eapply Qle_trans; [apply Qle_ceiling|]. rewrite <- Zle_Qle. lia.
  - eapply Qle_trans; [|apply Qfloor_le]. rewrite <- Zle_Qle. lia.
Qed.

(** X14. [_getRandomInt(min, max)] reads one draw and, when the integers
    from [ceil(min)] to [floor(max)] are not empty, returns one of them: an
    integer that is not below [min] and not above [max]. *)
Theorem _getRandomInt_in_range lo hi tape pos :
  (Qceiling lo ≤ Qfloor hi)%Z →
  ∃ r, _getRandomInt lo hi tape pos = Some (r, S pos)
       ∧ (Qceiling lo ≤ r ≤ Qfloor hi)%Z
       ∧ (lo <= inject_Z r)%Q ∧ (inject_Z r <= hi)%Q.
Proof. apply _getRandomInt_between. Qed.

Lemma _getRandomInt_in_range_witness :
  (Qceiling (3 # 2) ≤ Qfloor (7 # 2))%Z
  ∧ ∃ r, _getRandomInt (3 # 2) (7 # 2) tape_zero 0 = Some (r, 1)
         ∧ (Qceiling (3 # 2) ≤ r ≤ Qfloor (7 # 2))%Z
         ∧ (3 # 2 <= inject_Z r)%Q ∧ (inject_Z r <= 7 # 2)%Q.
Proof.
  assert (H : (Qceiling (3 # 2) ≤ Qfloor (7 # 2))%Z) by (vm_compute; discriminate).
  split; [exact H|].
  exact (_getRandomInt_in_range (3 # 2) (7 # 2) tape_zero 0 H).
Defined.

(** ** The shuffle *)

Lemma insert_head_Permutation (t : list nat) j y h :
  t !! j = Some y → y :: <[j := h]> t ≡ₚ h :: t.
Proof.
  revert j. induction t as [|z t IH]; intros [|j] Hj; simplify_eq/=.
  - apply perm_swap.
  - rewrite perm_swap. rewrite (IH j Hj). apply perm_swap.
Qed.

Lemma swap_Permutation i j (a : list nat) : swap i j a ≡ₚ a.
Proof.
  unfold swap.
  destruct (a !! i) as [x|] eqn:Hi; [|done].
  destruct (a !! j) as [y|] eqn:Hj; [|done].
  revert i j Hi Hj. induction a as [|h t IH]; intros [|i] [|j] Hi Hj; simplify_eq/=.
  - done.
  - by apply insert_head_Permutation.
  - by apply insert_head_Permutation.
  - by rewrite (IH i j).
Qed.

Lemma shuffle_loop (idx : list nat) (a : list nat) tape pos :
  ∃ a', gfoldM (λ a i,
                  j <~ random_below (Z.of_nat i + 1)%Z ;;
                  gret (swap i (Z.to_nat j) a))
               a idx tape pos
        = Some (a', pos + length idx)
        ∧ a' ≡ₚ a.
Proof.
  revert a pos. induction idx as [|i idx IH]; intros a pos; simpl.
  - exists a. split; [|done]. unfold gret. do 2 f_equal. lia.
  - unfold gbind at 1. unfold gbind at 1. unfold random_below, gret.
    destruct (IH (swap i (Z.to_nat (floor_random_times (tape pos) (Z.of_nat i + 1))) a)
                (S pos)) as (a' & E & Hp).
    exists a'. split; [|by rewrite Hp, swap_Permutation].
    etrans; [exact E|]. do 2 f_equal; lia.
Qed.

Lemma _shuffle_permutes a tape pos :
  ∃ a', _shuffle a tape pos = Some (a', pos + (length a - 1)) ∧ a' ≡ₚ a.
Proof.
  unfold _shuffle.
  destruct (shuffle_loop (reverse (seq 1 (length a - 1))) a tape pos) as (a' & E & Hp).
  exists a'. rewrite E. split; [|done].
  by rewrite length_reverse, length_seq.
Qed.

(** X15. [_shuffle(a)] always returns, reads [a.length - 1] draws (none
    for the empty array), and returns a rearrangement of [a]: the same
    elements, each as often as before. *)
Theorem _shuffle_is_permutation a tape pos :
  ∃ a', _shuffle a tape pos = Some (a', pos + (length a - 1)) ∧ a' ≡ₚ a.
Proof. apply _shuffle_permutes. Qed.

(** ** The generator *)

Global Instance marks_only_preorder : PreOrder marks_only.
Proof.
  split.
  - by intros f.
  - intros f1 f2 f3 (? & ? & ?) (? & ? & ?). repeat split; [congruence.. | auto].
Qed.

Lemma gfoldM_progress_from {A B} (P : list A → B → Prop) (body : B → A → Gen B)
  (l rest done : list A) :
  (∀ done x acc tape pos,
     P done acc → x ∈ l →
     ∃ acc' pos', body acc x tape pos = Some (acc', pos') ∧ P (done ++ [x]) acc') →
  l = done ++ rest →
  ∀ acc tape pos,
    P done acc →
    ∃ acc' pos', gfoldM body acc rest tape pos = Some (acc', pos') ∧ P l acc'.
Proof.
  intros Hstep. revert done.
  induction rest as [|x rest IH]; intros done Hl acc tape pos HP.
  - rewrite app_nil_r in Hl. subst. by exists acc, pos.
  - destruct (Hstep done x acc tape pos HP) as (acc1 & pos1 & E1 & HP1).
    { rewrite Hl. set_solver. }
    destruct (IH (done ++ [x])) with (acc := acc1) (tape := tape) (pos := pos1)
      as (acc' & pos' & E & HP'); [by rewrite <- app_assoc | done |].
    exists acc', pos'. split; [|done].
    simpl. unfold gbind. by rewrite E1.
Qed.

Lemma gfoldM_progress {A B} (P : list A → B → Prop) (body : B → A → Gen B)
  (l : list A) :
  (∀ done x acc tape pos,
     P done acc → x ∈ l →
     ∃ acc' pos', body acc x tape pos = Some (acc', pos') ∧ P (done ++ [x]) acc') →
  ∀ acc tape pos,
    P [] acc →
    ∃ acc' pos', gfoldM body acc l tape pos = Some (acc', pos') ∧ P l acc'.
Proof. intros Hstep. by apply (gfoldM_progress_from P body l l []). Qed.

Lemma lookups_take {A} (l : list A) k :
  k ≤ length l → (λ i, l !! i) <$> seq 0 k = Some <$> take k l.
Proof.
  intros Hk. apply list_eq. intros i.
  rewrite !list_lookup_fmap.
  destruct (decide (i < k)) as [Hi|Hi].
  - rewrite lookup_seq_lt by done. rewrite lookup_take_lt by done. simpl.
    destruct (lookup_lt_is_Some_2 l i) as [x Hx]; [lia|]. by rewrite Hx.
  - rewrite lookup_seq_ge by lia. rewrite lookup_take_ge by lia. done.
Qed.

Lemma amount_bounds (lo hi : Q) (n : nat) d :
  (0 <= lo)%Q → (lo <= hi)%Q → (hi <= nat_to_Q n)%Q →
  (0 ≤ Qceiling lo
   ≤ floor_random_times d (Qfloor hi - Qceiling lo + 1) + Qceiling lo
   ≤ Z.of_nat n)%Z.
Proof.
  intros H0 Hlh Hn.
  assert (Hc0 : (0 ≤ Qceiling lo)%Z).
  { change 0%Z with (Qceiling 0). by apply Qceiling_resp_le. }
  assert (Hfn : (Qfloor hi ≤ Z.of_nat n)%Z).
  { rewrite <- (Qfloor_Z (Z.of_nat n)). by apply Qfloor_resp_le. }
  assert (Hcn : (Qceiling lo ≤ Z.of_nat n)%Z).
  { rewrite <- (Qceiling_Z (Z.of_nat n)). apply Qceiling_resp_le.
    by eapply Qle_trans. }
  assert (Hcf : (Qceiling lo - 1 ≤ Qfloor hi)%Z).
  { assert (H : (Qceiling lo - 1 < Qfloor hi + 1)%Z); [|lia].
    rewrite Zlt_Qlt.
    eapply Qlt_le_trans; [apply Qceiling_lt|].
    eapply Qle_trans; [exact Hlh|]. apply Qlt_le_weak, Qlt_floor. }
  destruct (decide (Qfloor hi - Qceiling lo + 1 = 0)%Z) as [E|E].
  - rewrite E, floor_random_times_0. lia.
  - pose proof (floor_random_times_range d (Qfloor hi - Qceiling lo + 1)). lia.
Qed.

Lemma _selectRandomAmountIndexes_selects maxAmount lo hi tape pos :
  (0 <= lo)%Q → (lo <= hi)%Q → (hi <= nat_to_Q maxAmount)%Q →
  ∃ sel pos',
    _selectRandomAmountIndexes maxAmount lo hi tape pos = Some (Some <$> sel, pos')
    ∧ NoDup sel
    ∧ (∀ i, i ∈ sel → i < maxAmount)
    ∧ (Qceiling lo ≤ Z.of_nat (length sel))%Z
    ∧ ((Qceiling lo ≤ Qfloor hi)%Z → (Z.of_nat (length sel) ≤ Qfloor hi)%Z).
Proof.
  intros H0 Hlh Hn.
  pose proof (amount_bounds lo hi maxAmount (tape pos) H0 Hlh Hn) as Hk.
  set (k := (floor_random_times (tape pos) (Qfloor hi - Qceiling lo + 1)
             + Qceiling lo)%Z) in *.
  destruct (_shuffle_permutes (seq 0 maxAmount) tape (S pos)) as (sh & E & Hp).
  assert (Hlen : length sh = maxAmount).
  { by rewrite Hp, length_seq. }
  exists (take (Z.to_nat k) sh), (S pos + (length (seq 0 maxAmount) - 1)).
  split; [|split; [|split; [|split]]].
  - unfold _selectRandomAmountIndexes. unfold gbind at 1.
    rewrite _getRandomInt_eq. fold k. unfold gbind. rewrite E. unfold gret.
    rewrite lookups_take by lia. done.
  - assert (Hnd : NoDup sh) by (rewrite Hp; apply NoDup_seq).
    rewrite <- (take_drop (Z.to_nat k) sh) in Hnd.
    by apply NoDup_app in Hnd as (? & _).
  - intros i Hi. assert (Hin : i ∈ sh).
    { rewrite <- (take_drop (Z.to_nat k) sh). apply elem_of_app. by left. }
    rewrite Hp in Hin. apply elem_of_seq in Hin. lia.
  - rewrite length_take. lia.
  - intros Hcf. rewrite length_take.
    pose proof (floor_random_times_range (tape pos) (Qfloor hi - Qceiling lo + 1)).
    unfold k. lia.
Qed.

(** X16. With bounds [0 <= min <= max <= maxAmount] (the normalized
    configuration gives such bounds) [_selectRandomAmountIndexes] returns
    indices below [maxAmount], no two of them equal and none of them
    [undefined]; there are at least [ceil(min)] of them, and at most
    [floor(max)] when [ceil(min) <= floor(max)]. *)
Theorem _selectRandomAmountIndexes_distinct maxAmount lo hi tape pos :
  (0 <= lo)%Q → (lo <= hi)%Q → (hi <= nat_to_Q maxAmount)%Q →
  ∃ sel pos',
    _selectRandomAmountIndexes maxAmount lo hi tape pos = Some (Some <$> sel, pos')
    ∧ NoDup sel
    ∧ (∀ i, i ∈ sel → i < maxAmount)
    ∧ (Qceiling lo ≤ Z.of_nat (length sel))%Z
    ∧ ((Qceiling lo ≤ Qfloor hi)%Z → (Z.of_nat (length sel) ≤ Qfloor hi)%Z).
Proof. apply _selectRandomAmountIndexes_selects. Qed.

Lemma _selectRandomAmountIndexes_distinct_witness :
  (0 <= 1)%Q ∧ (1 <= 5 # 2)%Q ∧ (5 # 2 <= nat_to_Q 5)%Q
  ∧ ∃ sel pos',
      _selectRandomAmountIndexes 5 1 (5 # 2) tape_zero 0 = Some (Some <$> sel, pos')
      ∧ NoDup sel
      ∧ (∀ i, i ∈ sel → i < 5)
      ∧ (Qceiling 1 ≤ Z.of_nat (length sel))%Z
      ∧ ((Qceiling 1 ≤ Qfloor (5 # 2))%Z → (Z.of_nat (length sel) ≤ Qfloor (5 # 2))%Z).
Proof.
  assert (H1 : (0 <= 1)%Q) by (vm_compute; discriminate).
  assert (H2 : (1 <= 5 # 2)%Q) by (vm_compute; discriminate).
  assert (H3 : (5 # 2 <= nat_to_Q 5)%Q) by (vm_compute; discriminate).
  split; [exact H1|]. split; [exact H2|]. split; [exact H3|].
  exact (_selectRandomAmountIndexes_distinct 5 1 (5 # 2) tape_zero 0 H1 H2 H3).
Defined.

(** *** Marking the selected fields *)

Lemma mark_key (forRow : bool) (outerIndex solutionIndex : nat) :
  _getFieldKey (if forRow then outerIndex else solutionIndex)
               (if forRow then solutionIndex else outerIndex)
  = line_key forRow outerIndex solutionIndex.
Proof. by destruct forRow. Qed.

Lemma fields_related_is_Some ok (fs fs' : list (Key * KakurasuField)) k :
  fields_related ok fs fs' → is_Some (store_get k fs) → is_Some (store_get k fs').
Proof.
  intros [_ H] [f Hf]. specialize (H k). rewrite Hf in H. inversion H. by eexists.
Qed.

Lemma marks_only_marked fs fs' k :
  fields_related marks_only fs fs' →
  isSolution <$> store_get k fs = Some true →
  isSolution <$> store_get k fs' = Some true.
Proof.
  intros [_ H] Hk. specialize (H k).
  destruct (store_get k fs) as [f|]; [|done].
  inversion H as [? f' (_ & _ & Hs)|]; subst. simpl in *.
  f_equal. apply Hs. by injection Hk.
Qed.

Lemma mark_line (forRow : bool) (outerIndex : nat) (sel : list nat) fs tape pos :
  (∀ i, i ∈ sel → is_Some (store_get (line_key forRow outerIndex i) fs)) →
  ∃ fs',
    gfoldM (mark_solution forRow outerIndex) fs (Some <$> sel) tape pos = Some (fs', pos)
    ∧ fields_related marks_only fs fs'
    ∧ ∀ i, i ∈ sel →
           isSolution <$> store_get (line_key forRow outerIndex i) fs' = Some true.
Proof.
  revert fs. induction sel as [|i sel IH]; intros fs Hsel.
  - exists fs. split; [done|]. split; [done|]. intros i Hi. by apply elem_of_nil in Hi.
  - destruct (Hsel i) as [f Hf]; [by left|].
    set (fs1 := store_put (line_key forRow outerIndex i) (setIsSolution true f) fs).
    assert (Hrel : fields_related marks_only fs fs1).
    { apply (fields_related_put marks_only _ _ f); [done|]. by repeat split. }
    destruct (IH fs1) as (fs' & E & Hrel' & Hmarked).
    { intros j Hj. apply (fields_related_is_Some marks_only fs); [done|].
      apply Hsel. by right. }
    exists fs'. split; [|split].
    + csimpl. unfold gbind. unfold mark_solution at 1.
      rewrite mark_key, Hf. unfold gret at 1. exact E.
    + by etrans.
    + intros j [->|Hj]%elem_of_cons; [|by apply Hmarked].
      apply (marks_only_marked fs1); [done|].
      unfold fs1. by rewrite store_get_put_eq.
Qed.

Lemma filter_length_mono {A} (P Q : A → Prop)
  `{!∀ x, Decision (P x)} `{!∀ x, Decision (Q x)} (l : list A) :
  (∀ x, P x → Q x) → length (filter P l) ≤ length (filter Q l).
Proof.
  intros HPQ. induction l as [|x l IH]; [done|].
  rewrite !filter_cons.
  destruct (decide (P x)) as [HP|HP].
  - rewrite decide_True by auto. simpl. lia.
  - destruct (decide (Q x)); simpl; lia.
Qed.

Lemma solutions_in_line_mono forRow index n fs fs' :
  fields_related marks_only fs fs' →
  solutions_in_line isSolution forRow index n fs
  ≤ solutions_in_line isSolution forRow index n fs'.
Proof.
  intros Hrel. unfold solutions_in_line. apply filter_length_mono.
  intros i. by apply marks_only_marked.
Qed.

Lemma solutions_in_line_selected forRow index n fs (sel : list nat) :
  NoDup sel →
  (∀ i, i ∈ sel → i < n) →
  (∀ i, i ∈ sel → isSolution <$> store_get (line_key forRow index i) fs = Some true) →
  length sel ≤ solutions_in_line isSolution forRow index n fs.
Proof.
  intros Hnd Hn Hm. unfold solutions_in_line.
  apply submseteq_length, NoDup_submseteq; [done|].
  intros i Hi. apply list_elem_of_filter. split; [by apply Hm|].
  apply elem_of_seq. specialize (Hn i Hi). lia.
Qed.

Lemma grid_line_is_Some (forRow : bool) (config : Config)
  (fs : list (Key * KakurasuField)) outerIndex i :
  Object_keys fs = grid_keys (rows config) (columns config) →
  outerIndex < (if forRow then rows config else columns config) →
  i < (if forRow then columns config else rows config) →
  is_Some (store_get (line_key forRow outerIndex i) fs).
Proof.
  intros Hkeys Ho Hi. apply store_get_keys. rewrite Hkeys.
  destruct forRow; simpl; by apply elem_of_grid_keys.
Qed.

Lemma _setSolutionFieldsForRowColumn_marks (forRow : bool) fs (config : Config) tape pos :
  Object_keys fs = grid_keys (rows config) (columns config) →
  (0 <= (if forRow then amountMinimumInColumn config
         else amountMinimumInRow config))%Q →
  ((if forRow then amountMinimumInColumn config else amountMinimumInRow config)
   <= (if forRow then amountMaximumInColumn config else amountMaximumInRow config))%Q →
  ((if forRow then amountMaximumInColumn config else amountMaximumInRow config)
   <= nat_to_Q (if forRow then columns config else rows config))%Q →
  ∃ fs' pos',
    _setSolutionFieldsForRowColumn forRow fs config tape pos = Some (fs', pos')
    ∧ fields_related marks_only fs fs'
    ∧ ∀ index, index < (if forRow then rows config else columns config) →
        (Qceiling (if forRow then amountMinimumInColumn config
                   else amountMinimumInRow config)
         ≤ Z.of_nat (solutions_in_line isSolution forRow index
                       (if forRow then columns config else rows config) fs'))%Z.
Proof.
  intros Hkeys H0 Hlh Hn.
  set (lo := if forRow then amountMinimumInColumn config
             else amountMinimumInRow config) in *.
  set (hi := if forRow then amountMaximumInColumn config
             else amountMaximumInRow config) in *.
  set (n := if forRow then columns config else rows config) in *.
  set (outerLength := if forRow then rows config else columns config).
  unfold _setSolutionFieldsForRowColumn. fold outerLength.
  destruct (gfoldM_progress
              (λ done acc,
                 fields_related marks_only fs acc
                 ∧ ∀ index, index ∈ done →
                     (Qceiling lo
                      ≤ Z.of_nat (solutions_in_line isSolution forRow index n acc))%Z)
              (λ fields outerIndex,
                 solutionIndexes <~
                   (if forRow
                    then _selectRandomAmountIndexes (columns config)
                           (amountMinimumInColumn config) (amountMaximumInColumn config)
                    else _selectRandomAmountIndexes (rows config)
                           (amountMinimumInRow config) (amountMaximumInRow config)) ;;
                 gfoldM (mark_solution forRow outerIndex) fields solutionIndexes)
              (seq 0 outerLength)) with (acc := fs) (tape := tape) (pos := pos)
    as (fs' & pos' & E & Hrel & Hcount).
  - intros done x acc tape0 pos0 [Hrel Hdone] Hx%elem_of_seq.
    destruct (_selectRandomAmountIndexes_selects n lo hi tape0 pos0 H0 Hlh Hn)
      as (sel & pos1 & Esel & Hnd & Hrange & Hmin & _).
    destruct (mark_line forRow x sel acc tape0 pos1) as (acc' & Emark & Hrel' & Hmarked).
    { intros i Hi. apply (grid_line_is_Some forRow config).
      - destruct Hrel as [Hk _]. by rewrite Hk.
      - fold outerLength. lia.
      - fold n. by apply Hrange. }
    exists acc', pos1. split; [|split].
    + unfold gbind.
      assert (Esel' :
        (if forRow
         then _selectRandomAmountIndexes (columns config)
                (amountMinimumInColumn config) (amountMaximumInColumn config)
         else _selectRandomAmountIndexes (rows config)
                (amountMinimumInRow config) (amountMaximumInRow config)) tape0 pos0
        = Some (Some <$> sel, pos1)).
      { unfold n, lo, hi in Esel. by destruct forRow. }
      by rewrite Esel'.
    + by etrans.
    + intros index [Hin| ->%list_elem_of_singleton]%elem_of_app.
      * pose proof (solutions_in_line_mono forRow index n acc acc' Hrel').
        specialize (Hdone index Hin). lia.
      * pose proof (solutions_in_line_selected forRow x n acc' sel Hnd Hrange Hmarked).
        lia.
  - split; [done|]. intros index Hin. by apply elem_of_nil in Hin.
  - exists fs', pos'. split; [exact E|]. split; [done|].
    intros index Hi. apply Hcount. apply elem_of_seq. lia.
Qed.

(** *** The exported grid *)

Lemma export_loop_lookup (fs : list (Key * KakurasuField)) (ks : list Key)
  (acc : list (Key * FieldState)) k :
  store_get k
    (foldl (λ fieldsCopy fieldKey,
              match store_get fieldKey fs with
              | Some field => store_put fieldKey (getState field) fieldsCopy
              | None => fieldsCopy
              end) acc ks)
  = match (if decide (k ∈ ks) then store_get k fs else None) with
    | Some f => Some (getState f)
    | None => store_get k acc
    end.
Proof.
  revert acc. induction ks as [|k0 ks IH]; intros acc; cbn [foldl].
  - destruct (decide (k ∈ [])) as [Hin|_]; [by apply elem_of_nil in Hin | done].
  - rewrite IH. destruct (decide (k ∈ ks)) as [Hin|Hin].
    + destruct (decide (k ∈ k0 :: ks)) as [_|Hn]; [|exfalso; apply Hn; by right].
      destruct (store_get k fs) as [f|] eqn:Hf; [done|].
      destruct (decide (k = k0)) as [->|Hne]; [by rewrite Hf|].
      destruct (store_get k0 fs); [by rewrite store_get_put_ne | done].
    + destruct (decide (k = k0)) as [->|Hne].
      * destruct (decide (k0 ∈ k0 :: ks)) as [_|Hn]; [|exfalso; apply Hn; by left].
        destruct (store_get k0 fs) as [f|]; [|done].
        by rewrite store_get_put_eq.
      * destruct (decide (k ∈ k0 :: ks)) as [[?|?]%elem_of_cons|_]; [done..|].
        destruct (store_get k0 fs) as [f|]; [|done].
        by rewrite store_get_put_ne.
Qed.

Lemma _fieldsAsJSON_lookup fs k :
  store_get k (_fieldsAsJSON fs) = getState <$> store_get k fs.
Proof.
  unfold _fieldsAsJSON. rewrite export_loop_lookup.
  destruct (decide (k ∈ Object_keys fs)) as [Hin|Hin].
  - by destruct (store_get k fs).
  - destruct (store_get k fs) as [f|] eqn:Hf; [|done].
    exfalso. apply Hin. apply store_get_keys. by eexists.
Qed.

Lemma solutions_in_line_export forRow index n fs :
  solutions_in_line solution forRow index n (_fieldsAsJSON fs)
  = solutions_in_line isSolution forRow index n fs.
Proof.
  unfold solutions_in_line. f_equal. apply list_filter_iff. intros i.
  rewrite _fieldsAsJSON_lookup.
  by destruct (store_get (line_key forRow index i) fs).
Qed.

Lemma _initEmptyField_lookup rows columns k f :
  store_get k (_initEmptyField rows columns) = Some f →
  f = new_KakurasuField default_FieldState.
Proof.
  unfold _initEmptyField.
  assert (Hgen : ∀ (l : list nat) (body : list (Key * KakurasuField) → nat
                                          → list (Key * KakurasuField)) acc,
    (∀ acc x, (∀ k f, store_get k acc = Some f → f = new_KakurasuField default_FieldState)
              → ∀ k f, store_get k (body acc x) = Some f
                       → f = new_KakurasuField default_FieldState) →
    (∀ k f, store_get k acc = Some f → f = new_KakurasuField default_FieldState) →
    ∀ k f, store_get k (foldl body acc l) = Some f
           → f = new_KakurasuField default_FieldState).
  { intros l body. induction l as [|x l IH]; intros acc Hbody Hacc; simpl; [done|].
    apply IH; [done|]. by apply Hbody. }
  revert k f. apply Hgen; [|done].
  intros acc y Hacc. apply Hgen; [|done].
  intros acc' x Hacc' k f.
  destruct (decide (k = _getFieldKey y x)) as [->|Hne].
  - rewrite store_get_put_eq. congruence.
  - rewrite store_get_put_ne by done. apply Hacc'.
Qed.

Lemma generateLevel_returns config tape pos :
  ∃ fieldsJSON pos',
    generateLevel config tape pos = Some (fieldsJSON, pos')
    ∧ Object_keys fieldsJSON
      = grid_keys (rows (normalizeConfig config)) (columns (normalizeConfig config))
    ∧ (∀ k s, store_get k fieldsJSON = Some s →
              status s = STATUS_CLEAR ∧ readOnly s = false)
    ∧ (∀ r, r < rows (normalizeConfig config) →
         (Qceiling (amountMinimumInColumn (normalizeConfig config))
          ≤ Z.of_nat (solutions_in_line solution true r
                        (columns (normalizeConfig config)) fieldsJSON))%Z)
    ∧ (∀ c, c < columns (normalizeConfig config) →
         (Qceiling (amountMinimumInRow (normalizeConfig config))
          ≤ Z.of_nat (solutions_in_line solution false c
                        (rows (normalizeConfig config)) fieldsJSON))%Z).
Proof.
  pose proof (normalizeConfig_bounds config) as (Hr0 & Hrlh & Hrn & Hc0 & Hclh & Hcn).
  cbv zeta in *. set (c := normalizeConfig config) in *.
  destruct (_setSolutionFieldsForRowColumn_marks true
              (_initEmptyField (rows c) (columns c)) c tape pos)
    as (fs1 & pos1 & E1 & Hrel1 & Hrows); [apply _initEmptyField_keys | done..|].
  destruct (_setSolutionFieldsForRowColumn_marks false fs1 c tape pos1)
    as (fs2 & pos2 & E2 & Hrel2 & Hcols); [|done..|].
  { destruct Hrel1 as [-> _]. apply _initEmptyField_keys. }
  assert (Hkeys : Object_keys fs2 = grid_keys (rows c) (columns c)).
  { destruct Hrel2 as [-> _]. destruct Hrel1 as [-> _]. apply _initEmptyField_keys. }
  assert (Hrel : fields_related marks_only (_initEmptyField (rows c) (columns c)) fs2)
    by by etrans.
  exists (_fieldsAsJSON fs2), pos2. split; [|split; [|split; [|split]]].
  - unfold generateLevel. fold c. unfold gbind. by rewrite E1, E2.
  - rewrite _fieldsAsJSON_keys; [done|]. rewrite Hkeys. apply NoDup_grid_keys.
  - intros k s. rewrite _fieldsAsJSON_lookup.
    destruct Hrel as [_ Hk]. specialize (Hk k).
    destruct (store_get k fs2) as [f2|]; [|done]. intros [= <-].
    inversion Hk as [f0 ? (Hs & Hro & _) Hf0|]; subst.
    symmetry in Hf0. apply _initEmptyField_lookup in Hf0. subst f0.
    done.
  - intros r Hr. rewrite solutions_in_line_export.
    pose proof (solutions_in_line_mono true r (columns c) fs1 fs2 Hrel2).
    specialize (Hrows r Hr). cbv iota in Hrows. lia.
  - intros col Hcol. rewrite solutions_in_line_export.
    specialize (Hcols col Hcol). cbv iota in Hcols. lia.
Qed.

(** X17. [generateLevel(config)] returns for every configuration and all
    draws.  The generated grid has exactly the coordinates of the
    [rows] x [columns] rectangle of the normalized configuration; every
    field is Clear and not read-only; every row has at least
    [ceil(amountMinimumInColumn)] solution fields and every column at least
    [ceil(amountMinimumInRow)]: the row pass draws its amounts from the
    bounds named ...InColumn, the column pass from those named ...InRow. *)
Theorem generateLevel_total_and_minimum config tape pos :
  ∃ fieldsJSON pos',
    generateLevel config tape pos = Some (fieldsJSON, pos')
    ∧ Object_keys fieldsJSON
      = grid_keys (rows (normalizeConfig config)) (columns (normalizeConfig config))
    ∧ (∀ k s, store_get k fieldsJSON = Some s →
              status s = STATUS_CLEAR ∧ readOnly s = false)
    ∧ (∀ r, r < rows (normalizeConfig config) →
         (Qceiling (amountMinimumInColumn (normalizeConfig config))
          ≤ Z.of_nat (solutions_in_line solution true r
                        (columns (normalizeConfig config)) fieldsJSON))%Z)
    ∧ (∀ c, c < columns (normalizeConfig config) →
         (Qceiling (amountMinimumInRow (normalizeConfig config))
          ≤ Z.of_nat (solutions_in_line solution false c
                        (rows (normalizeConfig config)) fieldsJSON))%Z).
Proof. apply generateLevel_returns. Qed.

(** ** When the loader returns *)

Lemma _loadFieldMetaInformations_amountRows g :
  getAmountRows (final (_loadFieldMetaInformations g))
  = (amounts_of (Object_keys (fields g))).1.
Proof.
  unfold _loadFieldMetaInformations, amounts_of.
  unfold bind at 1, modify at 1. unfold bind at 1.
  unfold _loadFiledMetaInformationsAmountRowsAndColumns, bind at 1, gets at 1.
  simpl. destruct (highest_keys (Object_keys (fields g))) as [hr hc]. simpl.
  by rewrite (keeps__loadContraints getAmountRows).
Qed.

Lemma _loadFieldMetaInformations_amounts g0 g :
  _loadFieldMetaInformations g0 = Ok tt g →
  (getAmountRows g, getAmountColumns g) = amounts_of (Object_keys (fields g0)).
Proof.
  intros E.
  pose proof (_loadFieldMetaInformations_amountRows g0) as HR.
  pose proof (_loadFieldMetaInformations_amountColumns g0) as HC.
  rewrite E in HR, HC. simpl in HR, HC. unfold amounts_of in *. by rewrite HR, HC.
Qed.

Lemma load_lines_total forRow (l : list nat) g :
  (∀ i, i ∈ l → line_complete forRow i g) →
  ∃ g', forEach l (λ i, _loadFieldMetaInformationsContraintsForFields forRow i) g
        = Ok tt g'.
Proof.
  revert g. induction l as [|index l IH]; intros g Hl.
  - by exists g.
  - destruct (load_line forRow index g) as (g1 & E & Hos); [apply Hl; by left|].
    cbn [forEach]. unfold bind at 1. rewrite E.
    apply IH. intros i Hi.
    assert (Hc : line_complete forRow i g1).
    { apply (only_stamps_line_complete forRow i g); [done|]. apply Hl. by right. }
    intros j Hj. apply Hc.
    destruct (set_contraint_amounts forRow index
                (Some (weighted_sum isSolution forRow index
                         (_getAmountRowColumns forRow g) (fields g)))
                (meta g1)) as [HaR HaC].
    unfold _getAmountRowColumns, getAmountRows, getAmountColumns in *.
    simpl in Hj. by rewrite HaR, HaC in Hj.
Qed.

Lemma _loadFieldMetaInformations_total g0 :
  loadable (Object_keys (fields g0)) → ∃ g, _loadFieldMetaInformations g0 = Ok tt g.
Proof.
  intros Hload.
  assert (Hload' : ∀ n,
    (n = (amounts_of (Object_keys (fields g0))).1
     ∨ n = (amounts_of (Object_keys (fields g0))).2) →
    ∀ r c, r < n → c < n → is_Some (store_get (_getFieldKey r c) (fields g0))).
  { intros n Hn r c Hr Hc. apply store_get_keys. by apply (Hload n). }
  clear Hload. rename Hload' into Hload. unfold amounts_of in Hload.
  unfold _loadFieldMetaInformations.
  unfold bind at 1, modify at 1. unfold bind at 1.
  unfold _loadFiledMetaInformationsAmountRowsAndColumns, bind at 1, gets at 1.
  simpl.
  destruct (highest_keys (Object_keys (fields g0))) as [hr hc] eqn:Escan.
  simpl in Hload.
  unfold modify at 1.
  unfold _loadFieldMetaInformationsContraints, bind at 1, modify at 1. simpl.
  set (aR := match hr with Some h => h + 1 | None => 0 end) in *.
  set (aC := match hc with Some h => h + 1 | None => 0 end) in *.
  set (g3 := set_meta _ _).
  unfold bind at 1, _loadFieldMetaInformationsConstraintsForRowColumn at 1,
    bind at 1, gets at 1.
  change (getAmountRows g3) with aR.
  destruct (load_lines_total true (seq 0 aR) g3) as (g4 & Erows).
  { intros i Hi%elem_of_seq j Hj. simpl.
    change (_getAmountRowColumns true g3) with aR in Hj.
    apply (Hload aR); [by left | lia | done]. }
  rewrite Erows.
  unfold _loadFieldMetaInformationsConstraintsForRowColumn, bind at 1, gets at 1.
  apply load_lines in Erows as (_ & _ & _ & HaC4 & Hf4 & _ & _).
  assert (HaC : getAmountColumns g4 = aC) by (unfold getAmountColumns; by rewrite HaC4).
  rewrite HaC.
  apply load_lines_total.
  intros i Hi%elem_of_seq j Hj. simpl.
  assert (Hj' : j < aC).
  { unfold _getAmountRowColumns in Hj. by rewrite HaC in Hj. }
  apply (fields_related_is_Some same_state (fields g0)); [done|].
  apply (Hload aC); [by right | done | lia].
Qed.

Lemma _loadFieldMetaInformations_returns_iff g0 :
  (∃ g, _loadFieldMetaInformations g0 = Ok tt g) ↔ loadable (Object_keys (fields g0)).
Proof.
  split.
  - intros [g E].
    pose proof (_loadFieldMetaInformations_amounts g0 g E) as Ha.
    apply _loadFieldMetaInformations_returns in E as ((Hsq & Hcomp & _) & _ & _ & Hrel).
    intros n Hn r c Hr Hc.
    rewrite <- Ha in Hn. simpl in Hn.
    assert (n = getAmountRows g) as -> by (destruct Hn; congruence).
    specialize (Hcomp r c Hr Hc).
    destruct Hrel as [Hkeys _]. rewrite <- Hkeys. by apply store_get_keys.
  - apply _loadFieldMetaInformations_total.
Qed.

Lemma loadable_square ks :
  loadable ks → (amounts_of ks).1 = (amounts_of ks).2.
Proof.
  intros Hl.
  destruct (_loadFieldMetaInformations_total
              (mkKakurasu [] None ((λ k, (k, new_KakurasuField default_FieldState)) <$> ks)
                          empty_meta)) as [g E].
  { simpl. unfold Object_keys. rewrite <- list_fmap_compose.
    by rewrite list_fmap_id. }
  pose proof (_loadFieldMetaInformations_amounts _ g E) as Ha.
  apply _loadFieldMetaInformations_returns in E as ((Hsq & _) & _).
  simpl in Ha. unfold Object_keys in Ha. rewrite <- list_fmap_compose in Ha.
  rewrite list_fmap_id in Ha. rewrite <- Ha. done.
Qed.

(** *** The constructor *)

Lemma constructor_returns_iff st tape fieldsJSON :
  s_fields st = Some fieldsJSON →
  NoDup (Object_keys fieldsJSON) →
  (∃ g, new_Kakurasu st tape = Ok tt g) ↔ loadable (Object_keys fieldsJSON).
Proof.
  intros Hst Hnd. unfold new_Kakurasu.
  destruct (constructor_eq st tape blank) as [g0 ->].
  unfold constructor_fields. rewrite Hst.
  unfold bind at 1, ret at 1. unfold bind at 1, modify at 1.
  unfold bind at 1.
  destruct (constructor_loop_keys fieldsJSON g0 Hnd) as (g1 & E & Hkeys & _).
  rewrite E. rewrite <- Hkeys. apply _loadFieldMetaInformations_returns_iff.
Qed.

(** ** The key scan on a rectangular grid *)

Lemma highest_keys_row ks hr hc :
  (foldl highest_step (hr, hc) ks).1 = foldl row_step hr ks.
Proof.
  revert hr hc. induction ks as [|k ks IH]; intros hr hc; [done|].
  cbn [foldl]. destruct (highest_step (hr, hc) k) as [hr' hc'] eqn:E.
  rewrite IH. f_equal. unfold highest_step in E. by injection E as <- _.
Qed.

Lemma row_step_key h r c :
  row_step (Some h) (_getFieldKey r c)
  = if bool_decide (h = 0) || bool_decide (h < r) then Some c else Some h.
Proof. done. Qed.

Lemma row_scan_stays r h (l : list nat) :
  h ≠ 0 → r ≤ h →
  foldl row_step (Some h) ((λ c, _getFieldKey r c) <$> l) = Some h.
Proof.
  intros H0 Hr. induction l as [|c l IH]; [done|]. csimpl.
  rewrite row_step_key.
  rewrite bool_decide_eq_false_2 by done.
  rewrite bool_decide_eq_false_2 by lia. apply IH.
Qed.

Lemma row_scan_climbs r c k :
  1 ≤ r →
  foldl row_step (Some (c `min` r)) ((λ x, _getFieldKey r x) <$> seq (S c) k)
  = Some ((c + k) `min` r).
Proof.
  intros Hr. revert c. induction k as [|k IH]; intros c.
  - simpl. f_equal. lia.
  - csimpl. rewrite row_step_key.
    destruct (decide (c < r)) as [Hc|Hc].
    + replace (bool_decide (c `min` r = 0) || bool_decide (c `min` r < r)) with true.
      2:{ symmetry. apply orb_true_iff. right. apply bool_decide_eq_true. lia. }
      replace (S c) with (S c `min` r) at 1 by lia.
      rewrite IH. f_equal. lia.
    + rewrite bool_decide_eq_false_2 by lia.
      rewrite bool_decide_eq_false_2 by lia. simpl.
      replace (c `min` r) with (S c `min` r) by lia.
      rewrite IH. f_equal. lia.
Qed.

Lemma row_scan_first C :
  0 < C →
  foldl row_step None ((λ c, _getFieldKey 0 c) <$> seq 0 C) = Some (1 `min` (C - 1)).
Proof.
  intros HC. destruct C as [|[|C]]; [lia | done |].
  change (seq 0 (S (S C))) with (0 :: 1 :: seq 2 C). csimpl.
  change (row_step None (_getFieldKey 0 0)) with (Some 0).
  rewrite row_step_key. simpl.
  rewrite row_scan_stays by lia. f_equal.
Qed.

Lemma row_scan_next r C h :
  1 ≤ r → 0 < C → h ≤ r → h ≤ C - 1 →
  foldl row_step (Some h) ((λ c, _getFieldKey r c) <$> seq 0 C)
  = Some (r `min` (C - 1)).
Proof.
  intros Hr HC Hh HhC.
  destruct (decide (h = 0 ∨ h < r)) as [Hlow|Hhigh].
  - destruct C as [|C]; [lia|].
    change (seq 0 (S C)) with (0 :: seq 1 C). csimpl.
    rewrite row_step_key.
    replace (bool_decide (h = 0) || bool_decide (h < r)) with true.
    2:{ symmetry. apply orb_true_iff.
        destruct Hlow; [left | right]; by apply bool_decide_eq_true. }
    change (Some 0) with (Some (0 `min` r)).
    rewrite row_scan_climbs by done. f_equal. lia.
  - rewrite row_scan_stays by lia. f_equal. lia.
Qed.

Lemma highest_row_grid R C :
  0 < R → 0 < C →
  (highest_keys (grid_keys R C)).1 = Some (((R - 1) `max` 1) `min` (C - 1)).
Proof.
  intros HR HC. unfold highest_keys. rewrite highest_keys_row.
  destruct R as [|R]; [lia|]. clear HR.
  induction R as [|R IH].
  - rewrite grid_keys_S. simpl. by rewrite row_scan_first.
  - rewrite grid_keys_S, foldl_app, IH.
    rewrite row_scan_next by lia. f_equal. lia.
Qed.

Lemma amounts_of_grid R C :
  0 < R → 0 < C →
  amounts_of (grid_keys R C) = (((R - 1) `max` 1) `min` (C - 1) + 1, R).
Proof.
  intros HR HC. unfold amounts_of.
  rewrite highest_row_grid, highest_column_grid by done.
  destruct R; [lia|]. f_equal. lia.
Qed.

Lemma loadable_grid R C :
  0 < R → 0 < C →
  loadable (grid_keys R C) ↔ R = C ∨ 2 ≤ R ≤ C.
Proof.
  intros HR HC. split.
  - intros Hsq%loadable_square. rewrite amounts_of_grid in Hsq by done.
    simpl in Hsq. lia.
  - intros Hcond n Hn r c Hr Hc. rewrite amounts_of_grid in Hn by done.
    simpl in Hn. apply elem_of_grid_keys. lia.
Qed.

(** ** The game the constructor builds *)

Lemma foldl_put_lookup {V} (value : Key → V) (ks : list Key) (o : list (Key * V)) k :
  store_get k (foldl (λ o k', store_put k' (value k') o) o ks)
  = if decide (k ∈ ks) then Some (value k) else store_get k o.
Proof.
  revert o. induction ks as [|k0 ks IH]; intros o; cbn [foldl].
  - destruct (decide (k ∈ [])) as [Hin|_]; [by apply elem_of_nil in Hin | done].
  - rewrite IH. destruct (decide (k ∈ ks)) as [Hin|Hin].
    + destruct (decide (k ∈ k0 :: ks)) as [_|Hn]; [done|]. exfalso. apply Hn. by right.
    + destruct (decide (k = k0)) as [->|Hne].
      * destruct (decide (k0 ∈ k0 :: ks)) as [_|Hn]; [|exfalso; apply Hn; by left].
        by rewrite store_get_put_eq.
      * destruct (decide (k ∈ k0 :: ks)) as [[?|?]%elem_of_cons|_]; [done..|].
        by rewrite store_get_put_ne.
Qed.

Lemma constructor_loop_eq (fieldsJSON : list (Key * FieldState)) ks g0 :
  (∀ k, k ∈ ks → is_Some (store_get k fieldsJSON)) →
  forEach ks
    (λ fieldKey,
       match store_get fieldKey fieldsJSON with
       | Some fieldJSON =>
           modify (λ g, set_fields
                          (store_put fieldKey (new_KakurasuField fieldJSON) (fields g)) g)
       | None => throw
       end) g0
  = Ok tt (set_fields
             (foldl (λ o k, store_put k
                       (new_KakurasuField
                          (default default_FieldState (store_get k fieldsJSON))) o)
                    (fields g0) ks) g0).
Proof.
  revert g0. induction ks as [|k ks IH]; intros g0 Hks.
  - by destruct g0.
  - cbn [forEach]. destruct (Hks k) as [f Hf]; [by left|].
    unfold bind. rewrite Hf. unfold modify. rewrite IH.
    + simpl. by rewrite Hf.
    + intros k' Hk'. apply Hks. by right.
Qed.

Lemma constructor_fields_outcome st tape fieldsJSON g0 g :
  s_fields st = Some fieldsJSON →
  NoDup (Object_keys fieldsJSON) →
  constructor_fields st tape g0 = Ok tt g →
  Object_keys (fields g) = Object_keys fieldsJSON
  ∧ (∀ k, state <$> store_get k (fields g) = store_get k fieldsJSON)
  ∧ well_loaded g
  ∧ (getAmountRows g, getAmountColumns g) = amounts_of (Object_keys fieldsJSON)
  ∧ moveHistory g = moveHistory g0
  ∧ currentMoveIndex g = currentMoveIndex g0.
Proof.
  intros Hst Hnd. unfold constructor_fields. rewrite Hst.
  unfold bind at 1, ret at 1. unfold bind at 1, modify at 1.
  unfold bind at 1.
  rewrite constructor_loop_eq by (intros k Hk; by apply store_get_keys).
  set (g1 := set_fields _ _). intros E.
  assert (Hkeys1 : Object_keys (fields g1) = Object_keys fieldsJSON).
  { unfold g1. simpl.
    rewrite (keys_foldl_put
               (λ k, new_KakurasuField (default default_FieldState (store_get k fieldsJSON))));
      [done | done | intros k _; apply not_elem_of_nil]. }
  assert (Hget1 : ∀ k, state <$> store_get k (fields g1) = store_get k fieldsJSON).
  { intros k. unfold g1. simpl.
    rewrite (foldl_put_lookup
               (λ k, new_KakurasuField (default default_FieldState (store_get k fieldsJSON)))).
    destruct (decide (k ∈ Object_keys fieldsJSON)) as [Hin|Hin].
    - apply store_get_keys in Hin as [s Hs]. by rewrite Hs.
    - simpl. destruct (store_get k fieldsJSON) as [s|] eqn:Hs; [|done].
      exfalso. apply Hin. apply store_get_keys. by eexists. }
  pose proof (_loadFieldMetaInformations_amounts g1 g E) as Ha.
  apply _loadFieldMetaInformations_returns in E as (Hw & Hh & Hc & Hrel).
  split; [|split; [|split; [done|split; [by rewrite Ha, Hkeys1|by split]]]].
  - destruct Hrel as [-> _]. done.
  - intros k. rewrite <- Hget1. destruct Hrel as [_ Hrel]. specialize (Hrel k).
    destruct Hrel as [f f' Hs|]; [|done]. simpl. by rewrite Hs.
Qed.

Lemma constructor_outcome st tape fieldsJSON g :
  s_fields st = Some fieldsJSON →
  NoDup (Object_keys fieldsJSON) →
  new_Kakurasu st tape = Ok tt g →
  Object_keys (fields g) = Object_keys fieldsJSON
  ∧ (∀ k, state <$> store_get k (fields g) = store_get k fieldsJSON)
  ∧ well_loaded g
  ∧ (getAmountRows g, getAmountColumns g) = amounts_of (Object_keys fieldsJSON).
Proof.
  intros Hst Hnd. unfold new_Kakurasu.
  destruct (constructor_eq st tape blank) as [g0 ->]. intros E.
  by destruct (constructor_fields_outcome st tape fieldsJSON g0 g Hst Hnd E)
    as (? & ? & ? & ? & _).
Qed.

(** X18. Let the snapshot have fields (under distinct keys), and let [n]
    range over the two amounts the loader derives from the keys.  The
    constructor returns a game if and only if every coordinate of the
    [n] x [n] squares has a field; otherwise it raises. *)
Theorem constructor_returns_iff_loadable st tape fieldsJSON :
  s_fields st = Some fieldsJSON →
  NoDup (Object_keys fieldsJSON) →
  (∃ g, new_Kakurasu st tape = Ok tt g) ↔ loadable (Object_keys fieldsJSON).
Proof. apply constructor_returns_iff. Qed.

Lemma constructor_returns_iff_loadable_witness :
  s_fields (mkSnapshot None None (Some fields_3x3)) = Some fields_3x3
  ∧ NoDup (Object_keys fields_3x3)
  ∧ ((∃ g, new_Kakurasu (mkSnapshot None None (Some fields_3x3)) tape_zero = Ok tt g)
     ↔ loadable (Object_keys fields_3x3)).
Proof.
  assert (H1 : s_fields (mkSnapshot None None (Some fields_3x3)) = Some fields_3x3)
    by reflexivity.
  assert (H2 : NoDup (Object_keys fields_3x3)) by apply (NoDup_grid_keys 3 3).
  split; [exact H1|]. split; [exact H2|].
  exact (constructor_returns_iff_loadable _ tape_zero fields_3x3 H1 H2).
Defined.

Lemma generated_loads_iff config tape pos :
  ∃ fieldsJSON pos',
    generateLevel config tape pos = Some (fieldsJSON, pos')
    ∧ ∀ st tape',
        s_fields st = Some fieldsJSON →
        (∃ g, new_Kakurasu st tape' = Ok tt g)
        ↔ (rows (normalizeConfig config) = columns (normalizeConfig config)
           ∨ 2 ≤ rows (normalizeConfig config) ≤ columns (normalizeConfig config)).
Proof.
  destruct (generateLevel_returns config tape pos)
    as (fieldsJSON & pos' & E & Hkeys & _).
  exists fieldsJSON, pos'. split; [done|]. intros st tape' Hst.
  destruct (normalizeConfig_positive config) as [HR HC].
  rewrite (constructor_returns_iff st tape' fieldsJSON Hst).
  - rewrite Hkeys. by apply loadable_grid.
  - rewrite Hkeys. apply NoDup_grid_keys.
Qed.

(** X19. The constructor, given a generated level, returns a game if and
    only if the normalized configuration has [rows = columns] or
    [2 <= rows <= columns]; for every other configuration (more rows than
    columns, or one row and several columns) it raises, whatever the
    draws. *)
Theorem generated_level_loads_iff config tape pos :
  ∃ fieldsJSON pos',
    generateLevel config tape pos = Some (fieldsJSON, pos')
    ∧ ∀ st tape',
        s_fields st = Some fieldsJSON →
        (∃ g, new_Kakurasu st tape' = Ok tt g)
        ↔ (rows (normalizeConfig config) = columns (normalizeConfig config)
           ∨ 2 ≤ rows (normalizeConfig config) ≤ columns (normalizeConfig config)).
Proof. apply generated_loads_iff. Qed.

(** ** A freshly generated game *)

Lemma solutions_le_weighted_sum forRow index n (fs : list (Key * KakurasuField)) :
  solutions_in_line isSolution forRow index n fs
  ≤ weighted_sum isSolution forRow index n fs.
Proof.
  unfold solutions_in_line, weighted_sum.
  induction (seq 0 n) as [|i l IH]; [done|].
  rewrite filter_cons. cbn [sum_list_with].
  destruct (decide (isSolution <$> store_get (line_key forRow index i) fs = Some true))
    as [Hs|Hs]; [|lia].
  destruct (store_get (line_key forRow index i) fs) as [f|]; [|done].
  simpl in Hs. injection Hs as ->. simpl. lia.
Qed.

Lemma solutions_in_line_states forRow index n
  (fs : list (Key * KakurasuField)) (fieldsJSON : list (Key * FieldState)) :
  (∀ k, state <$> store_get k fs = store_get k fieldsJSON) →
  solutions_in_line isSolution forRow index n fs
  = solutions_in_line solution forRow index n fieldsJSON.
Proof.
  intros H. unfold solutions_in_line. f_equal. apply list_filter_iff. intros i.
  rewrite <- H. by destruct (store_get (line_key forRow index i) fs).
Qed.

Lemma weighted_sum_none pred forRow index n (fs : list (Key * KakurasuField)) :
  (∀ k f, store_get k fs = Some f → pred f = false) →
  weighted_sum pred forRow index n fs = 0.
Proof.
  intros H. unfold weighted_sum.
  induction (seq 0 n) as [|i l IH]; [done|]. simpl. rewrite IH.
  destruct (store_get (line_key forRow index i) fs) as [f|] eqn:Hf; [|done].
  by rewrite (H _ _ Hf).
Qed.

Lemma generated_square_outcome config tape pos fieldsJSON pos' st tape' g :
  rows (normalizeConfig config) = columns (normalizeConfig config) →
  generateLevel config tape pos = Some (fieldsJSON, pos') →
  s_fields st = Some fieldsJSON →
  new_Kakurasu st tape' = Ok tt g →
  getAmountRows g = rows (normalizeConfig config)
  ∧ getAmountColumns g = rows (normalizeConfig config)
  ∧ Object_keys (fields g)
    = grid_keys (rows (normalizeConfig config)) (rows (normalizeConfig config))
  ∧ (∀ k f, store_get k (fields g) = Some f → isClear f = true ∧ isReadOnly f = false)
  ∧ (∀ r, r < rows (normalizeConfig config) →
          ∃ t, getConstraintValueForRow r g = Some (Some t)
               ∧ (Qceiling (amountMinimumInColumn (normalizeConfig config))
                  ≤ Z.of_nat t)%Z)
  ∧ (∀ c, c < rows (normalizeConfig config) →
          ∃ t, getConstraintValueForColumn c g = Some (Some t)
               ∧ (Qceiling (amountMinimumInRow (normalizeConfig config))
                  ≤ Z.of_nat t)%Z)
  ∧ ((1 ≤ Qceiling (amountMinimumInColumn (normalizeConfig config)))%Z →
     returned (isGameWon g) = Some false).
Proof.
  intros Hsq Hgen Hst Hnew.
  destruct (generateLevel_returns config tape pos)
    as (fieldsJSON' & pos'' & E & Hkeys & Hclear & Hrows & Hcols).
  rewrite Hgen in E. injection E as <- <-.
  destruct (normalizeConfig_positive config) as [HR HC].
  set (c := normalizeConfig config) in *. rewrite <- Hsq in *.
  destruct (constructor_outcome st tape' fieldsJSON g Hst) as (Hk & Hget & Hw & Ha);
    [rewrite Hkeys; apply NoDup_grid_keys | done |].
  rewrite Hkeys, amounts_of_grid in Ha by done.
  assert (HaR : getAmountRows g = rows c).
  { pose proof (f_equal fst Ha) as H1. cbn [fst] in H1. lia. }
  assert (HaC : getAmountColumns g = rows c).
  { pose proof (f_equal snd Ha) as H2. cbn [snd] in H2. lia. }
  assert (Hcl : ∀ k f, store_get k (fields g) = Some f
                       → isClear f = true ∧ isReadOnly f = false).
  { intros k f Hf. specialize (Hget k). rewrite Hf in Hget. simpl in Hget.
    destruct (Hclear k (state f)) as [Hs Hro]; [done|].
    split; [by apply bool_decide_eq_true | done]. }
  pose proof Hw as (_ & _ & [HcR HcC]).
  assert (Htr : ∀ r, r < rows c →
    ∃ t, getConstraintValueForRow r g = Some (Some t)
         ∧ (Qceiling (amountMinimumInColumn c) ≤ Z.of_nat t)%Z).
  { intros r Hr. eexists. split; [apply HcR; lia|].
    rewrite HaR.
    pose proof (solutions_le_weighted_sum true r (rows c) (fields g)) as Hle.
    rewrite (solutions_in_line_states true r (rows c) (fields g) fieldsJSON Hget) in Hle.
    specialize (Hrows r Hr). lia. }
  split; [done|]. split; [done|]. split; [by rewrite Hk, Hkeys|].
  split; [done|]. split; [done|]. split.
  - intros col Hcol. eexists. split; [apply HcC; lia|].
    rewrite HaC.
    pose proof (solutions_le_weighted_sum false col (rows c) (fields g)) as Hle.
    rewrite (solutions_in_line_states false col (rows c) (fields g) fieldsJSON Hget) in Hle.
    specialize (Hcols col Hcol). lia.
  - intros Hmin.
    destruct (well_loaded_checks g Hw) as (_ & _ & ->). f_equal.
    assert (Hrow0 : row_solved g 0 = false).
    { unfold row_solved. apply bool_decide_eq_false.
      rewrite (weighted_sum_none isActive).
      2:{ intros k f Hf. destruct (Hcl k f Hf) as [Hc _].
          unfold isClear in Hc. apply bool_decide_eq_true in Hc.
          unfold isActive. apply bool_decide_eq_false. rewrite Hc. done. }
      destruct (Htr 0) as (t & Ht & Hge); [lia|].
      rewrite HcR in Ht by lia. injection Ht as Ht. lia. }
    apply not_true_is_false. intros Hall.
    rewrite forallb_forall in Hall. specialize (Hall 0).
    rewrite Hrow0 in Hall. discriminate Hall. apply in_seq. lia.
Qed.

Lemma generated_square_loads config tape pos :
  rows (normalizeConfig config) = columns (normalizeConfig config) →
  ∃ fieldsJSON pos',
    generateLevel config tape pos = Some (fieldsJSON, pos')
    ∧ ∀ st tape',
        s_fields st = Some fieldsJSON →
        ∃ g, new_Kakurasu st tape' = Ok tt g
             ∧ getAmountRows g = rows (normalizeConfig config)
             ∧ getAmountColumns g = rows (normalizeConfig config)
             ∧ Object_keys (fields g)
               = grid_keys (rows (normalizeConfig config)) (rows (normalizeConfig config))
             ∧ (∀ k f, store_get k (fields g) = Some f
                       → isClear f = true ∧ isReadOnly f = false)
             ∧ (∀ r, r < rows (normalizeConfig config) →
                  ∃ t, getConstraintValueForRow r g = Some (Some t)
                       ∧ (Qceiling (amountMinimumInColumn (normalizeConfig config))
                          ≤ Z.of_nat t)%Z)
             ∧ (∀ c, c < rows (normalizeConfig config) →
                  ∃ t, getConstraintValueForColumn c g = Some (Some t)
                       ∧ (Qceiling (amountMinimumInRow (normalizeConfig config))
                          ≤ Z.of_nat t)%Z)
             ∧ ((1 ≤ Qceiling (amountMinimumInColumn (normalizeConfig config)))%Z →
                returned (isGameWon g) = Some false).
Proof.
  intros Hsq.
  destruct (generated_loads_iff config tape pos) as (fieldsJSON & pos' & E & Hiff).
  exists fieldsJSON, pos'. split; [done|]. intros st tape' Hst.
  destruct (proj2 (Hiff st tape' Hst)) as [g Hg]; [by left|].
  exists g. split; [done|].
  by apply (generated_square_outcome config tape pos fieldsJSON pos' st tape').
Qed.

(** X20. For a configuration whose normalized [rows] and [columns] are
    equal, and all draws: the constructor returns a game from the generated
    level; the game has [rows] rows and columns and exactly the fields of
    the square; every field is Clear and not read-only; every row target is
    at least [ceil(amountMinimumInColumn)] and every column target at least
    [ceil(amountMinimumInRow)]; and when the former is at least 1 the
    fresh game is not won. *)
Theorem generated_square_game config tape pos :
  rows (normalizeConfig config) = columns (normalizeConfig config) →
  ∃ fieldsJSON pos',
    generateLevel config tape pos = Some (fieldsJSON, pos')
    ∧ ∀ st tape',
        s_fields st = Some fieldsJSON →
        ∃ g, new_Kakurasu st tape' = Ok tt g
             ∧ getAmountRows g = rows (normalizeConfig config)
             ∧ getAmountColumns g = rows (normalizeConfig config)
             ∧ Object_keys (fields g)
               = grid_keys (rows (normalizeConfig config)) (rows (normalizeConfig config))
             ∧ (∀ k f, store_get k (fields g) = Some f
                       → isClear f = true ∧ isReadOnly f = false)
             ∧ (∀ r, r < rows (normalizeConfig config) →
                  ∃ t, getConstraintValueForRow r g = Some (Some t)
                       ∧ (Qceiling (amountMinimumInColumn (normalizeConfig config))
                          ≤ Z.of_nat t)%Z)
             ∧ (∀ c, c < rows (normalizeConfig config) →
                  ∃ t, getConstraintValueForColumn c g = Some (Some t)
                       ∧ (Qceiling (amountMinimumInRow (normalizeConfig config))
                          ≤ Z.of_nat t)%Z)
             ∧ ((1 ≤ Qceiling (amountMinimumInColumn (normalizeConfig config)))%Z →
                returned (isGameWon g) = Some false).
Proof. apply generated_square_loads. Qed.

(** *** The default game *)

Lemma constructor_fields_default st tape fieldsJSON pos' :
  s_fields st = None →
  generateLevel empty_config tape 0 = Some (fieldsJSON, pos') →
  constructor_fields st tape
  = constructor_fields
      (mkSnapshot (s_moveHistory st) (s_currentMoveIndex st) (Some fieldsJSON)) tape.
Proof. intros Hst Hgen. unfold constructor_fields. rewrite Hst, Hgen. done. Qed.

Lemma new_Kakurasu_default st tape fieldsJSON pos' :
  s_fields st = None →
  generateLevel empty_config tape 0 = Some (fieldsJSON, pos') →
  new_Kakurasu st tape
  = new_Kakurasu
      (mkSnapshot (s_moveHistory st) (s_currentMoveIndex st) (Some fieldsJSON)) tape.
Proof.
  intros Hst Hgen. unfold new_Kakurasu, constructor.
  by rewrite (constructor_fields_default st tape fieldsJSON pos').
Qed.

Lemma default_game st tape :
  s_fields st = None →
  ∃ g, new_Kakurasu st tape = Ok tt g
       ∧ getAmountRows g = 5
       ∧ getAmountColumns g = 5
       ∧ Object_keys (fields g) = grid_keys 5 5
       ∧ (∀ k f, store_get k (fields g) = Some f → isClear f = true ∧ isReadOnly f = false)
       ∧ (∀ i, i < 5 →
            ∃ t u, getConstraintValueForRow i g = Some (Some t)
                   ∧ getConstraintValueForColumn i g = Some (Some u)
                   ∧ 1 ≤ t ∧ 1 ≤ u)
       ∧ returned (isGameWon g) = Some false.
Proof.
  intros Hst.
  destruct (generated_square_loads empty_config tape 0)
    as (fieldsJSON & pos' & E & H); [done|].
  rewrite (new_Kakurasu_default st tape fieldsJSON pos' Hst E).
  destruct (H (mkSnapshot (s_moveHistory st) (s_currentMoveIndex st) (Some fieldsJSON))
              tape) as (g & Hg & HaR & HaC & Hk & Hcl & Hr & Hc & Hwon); [done|].
  exists g. split; [done|]. split; [done|]. split; [done|]. split; [done|].
  split; [done|]. split.
  - intros i Hi. destruct (Hr i Hi) as (t & Ht & Hget).
    destruct (Hc i Hi) as (u & Hu & Hgeu).
    exists t, u. split; [done|]. split; [done|].
    change (Qceiling (amountMinimumInColumn (normalizeConfig empty_config))) with 1%Z in Hget.
    change (Qceiling (amountMinimumInRow (normalizeConfig empty_config))) with 1%Z in Hgeu.
    lia.
  - apply Hwon. by vm_compute.
Qed.

(** X21. [new Kakurasu()] without fields in the state always returns,
    whatever the draws: a game with 5 rows and 5 columns on exactly the
    fields of the 5 x 5 square, every field Clear and not read-only, every
    row and column target at least 1, and not won. *)
Theorem default_constructor_returns st tape :
  s_fields st = None →
  ∃ g, new_Kakurasu st tape = Ok tt g
       ∧ getAmountRows g = 5
       ∧ getAmountColumns g = 5
       ∧ Object_keys (fields g) = grid_keys 5 5
       ∧ (∀ k f, store_get k (fields g) = Some f → isClear f = true ∧ isReadOnly f = false)
       ∧ (∀ i, i < 5 →
            ∃ t u, getConstraintValueForRow i g = Some (Some t)
                   ∧ getConstraintValueForColumn i g = Some (Some u)
                   ∧ 1 ≤ t ∧ 1 ≤ u)
       ∧ returned (isGameWon g) = Some false.
Proof. apply default_game. Qed.

Lemma generated_square_game_witness :
  rows (normalizeConfig empty_config) = columns (normalizeConfig empty_config)
  ∧ ∃ fieldsJSON pos',
      generateLevel empty_config tape_zero 0 = Some (fieldsJSON, pos')
      ∧ ∀ st tape',
          s_fields st = Some fieldsJSON →
          ∃ g, new_Kakurasu st tape' = Ok tt g
               ∧ getAmountRows g = rows (normalizeConfig empty_config)
               ∧ getAmountColumns g = rows (normalizeConfig empty_config)
               ∧ Object_keys (fields g)
                 = grid_keys (rows (normalizeConfig empty_config))
                             (rows (normalizeConfig empty_config))
               ∧ (∀ k f, store_get k (fields g) = Some f
                         → isClear f = true ∧ isReadOnly f = false)
               ∧ (∀ r, r < rows (normalizeConfig empty_config) →
                    ∃ t, getConstraintValueForRow r g = Some (Some t)
                         ∧ (Qceiling (amountMinimumInColumn (normalizeConfig empty_config))
                            ≤ Z.of_nat t)%Z)
               ∧ (∀ c, c < rows (normalizeConfig empty_config) →
                    ∃ t, getConstraintValueForColumn c g = Some (Some t)
                         ∧ (Qceiling (amountMinimumInRow (normalizeConfig empty_config))
                            ≤ Z.of_nat t)%Z)
               ∧ ((1 ≤ Qceiling (amountMinimumInColumn (normalizeConfig empty_config)))%Z →
                  returned (isGameWon g) = Some false).
Proof.
  assert (H : rows (normalizeConfig empty_config) = columns (normalizeConfig empty_config))
    by reflexivity.
  split; [exact H|].
  exact (generated_square_game empty_config tape_zero 0 H).
Defined.

Lemma default_constructor_returns_witness :
  s_fields (mkSnapshot None None None) = None
  ∧ ∃ g, new_Kakurasu (mkSnapshot None None None) tape_zero = Ok tt g
         ∧ getAmountRows g = 5
         ∧ getAmountColumns g = 5
         ∧ Object_keys (fields g) = grid_keys 5 5
         ∧ (∀ k f, store_get k (fields g) = Some f
                   → isClear f = true ∧ isReadOnly f = false)
         ∧ (∀ i, i < 5 →
              ∃ t u, getConstraintValueForRow i g = Some (Some t)
                     ∧ getConstraintValueForColumn i g = Some (Some u)
                     ∧ 1 ≤ t ∧ 1 ≤ u)
         ∧ returned (isGameWon g) = Some false.
Proof.
  assert (H : s_fields (mkSnapshot None None None) = None) by reflexivity.
  split; [exact H|].
  exact (default_constructor_returns (mkSnapshot None None None) tape_zero H).
Defined.

(** ** Saving and restoring a game *)

Lemma store_put_NoDup {V} k (v : V) o :
  NoDup (Object_keys o) → NoDup (Object_keys (store_put k v o)).
Proof.
  intros Hnd. destruct (decide (k ∈ Object_keys o)) as [Hin|Hin].
  - by rewrite store_put_keys_bound.
  - rewrite store_put_fresh by done. apply NoDup_app. split; [done|]. split.
    + intros k' Hk' ->%list_elem_of_singleton. done.
    + apply NoDup_singleton.
Qed.

Lemma foldl_put_NoDup {V} (value : Key → V) ks (o : list (Key * V)) :
  NoDup (Object_keys o) →
  NoDup (Object_keys (foldl (λ o k, store_put k (value k) o) o ks)).
Proof.
  revert o. induction ks as [|k ks IH]; intros o Hnd; [done|].
  cbn [foldl]. apply IH. by apply store_put_NoDup.
Qed.

Lemma constructor_fields_built st tape g0 g :
  constructor_fields st tape g0 = Ok tt g →
  ∃ g3, NoDup (Object_keys (fields g3)) ∧ _loadFieldMetaInformations g3 = Ok tt g.
Proof.
  unfold constructor_fields.
  intros (fieldsJSON & g1 & E1 & H)%bind_Ok_inv.
  apply bind_Ok_inv in H as ([] & g2 & E2 & H).
  apply bind_Ok_inv in H as ([] & g3 & E3 & H).
  exists g3. split; [|done].
  rewrite constructor_loop_eq in E3 by (intros k Hk; by apply store_get_keys).
  injection E3 as <-. simpl. apply foldl_put_NoDup.
  injection E2 as <-. simpl. apply NoDup_nil_2.
Qed.

Lemma new_Kakurasu_keys st tape g :
  new_Kakurasu st tape = Ok tt g →
  NoDup (Object_keys (fields g))
  ∧ loadable (Object_keys (fields g))
  ∧ (getAmountRows g, getAmountColumns g) = amounts_of (Object_keys (fields g)).
Proof.
  unfold new_Kakurasu. destruct (constructor_eq st tape blank) as [g0 ->].
  intros (g3 & Hnd & E)%constructor_fields_built.
  pose proof (_loadFieldMetaInformations_amounts g3 g E) as Ha.
  pose proof (proj1 (_loadFieldMetaInformations_returns_iff g3) (ex_intro _ g E)) as Hl.
  apply _loadFieldMetaInformations_returns in E as (_ & _ & _ & [Hk _]).
  by rewrite Hk.
Qed.

Lemma reachable_keys g :
  reachable g →
  NoDup (Object_keys (fields g))
  ∧ loadable (Object_keys (fields g))
  ∧ (getAmountRows g, getAmountColumns g) = amounts_of (Object_keys (fields g)).
Proof.
  induction 1 as [st tape g _ Hnew | c g _ IH].
  - by eapply new_Kakurasu_keys.
  - destruct (execute_same_puzzle c g) as [Hm [Hk _]].
    unfold getAmountRows, getAmountColumns in *. by rewrite Hk, Hm.
Qed.

Lemma restored_game g tape :
  reachable g →
  ∃ g', new_Kakurasu (asJSON g) tape = Ok tt g'
        ∧ moveHistory g' = moveHistory g
        ∧ currentMoveIndex g'
          = (if no_index (currentMoveIndex g)
                && bool_decide (0 < length (moveHistory g))
             then Some (Z.of_nat (length (moveHistory g)) - 1)%Z
             else currentMoveIndex g)
        ∧ fields_related same_state (fields g) (fields g')
        ∧ getAmountRows g' = getAmountRows g
        ∧ getAmountColumns g' = getAmountColumns g
        ∧ (∀ i, i < getAmountRows g →
                getConstraintValueForRow i g' = getConstraintValueForRow i g
                ∧ getConstraintValueForColumn i g' = getConstraintValueForColumn i g).
Proof.
  intros Hreach.
  destruct (reachable_keys g Hreach) as (Hnd & Hload & Ha).
  pose proof (reachable_is_well_loaded g Hreach) as Hw.
  pose proof (reachable_cursor_consistent g Hreach) as Hcur.
  assert (Hkeys : Object_keys (_fieldsAsJSON (fields g)) = Object_keys (fields g))
    by by apply _fieldsAsJSON_keys.
  destruct (proj2 (constructor_returns_iff (asJSON g) tape (_fieldsAsJSON (fields g))
                     eq_refl ltac:(by rewrite Hkeys))) as [g' Hg'].
  { by rewrite Hkeys. }
  exists g'. split; [done|].
  destruct (constructor_outcome (asJSON g) tape (_fieldsAsJSON (fields g)) g' eq_refl)
    as (Hk' & Hget & Hw' & Ha'); [by rewrite Hkeys | done |].
  pose proof (constructor_history (asJSON g) tape) as Hh.
  rewrite Hg' in Hh. unfold history in Hh. simpl in Hh.
  injection Hh as Hh Hc.
  assert (Hrel : fields_related same_state (fields g) (fields g')).
  { split; [by rewrite Hk'|]. intros k. specialize (Hget k).
    rewrite _fieldsAsJSON_lookup in Hget.
    destruct (store_get k (fields g)) as [f|], (store_get k (fields g')) as [f'|];
      simplify_eq/=; by constructor. }
  rewrite Hkeys, <- Ha in Ha'.
  assert (HaR : getAmountRows g' = getAmountRows g) by congruence.
  assert (HaC : getAmountColumns g' = getAmountColumns g) by congruence.
  split; [done|]. split.
  - rewrite Hc. unfold cursor_consistent in Hcur.
    destruct (currentMoveIndex g) as [i|]; [|done].
    unfold or_null, no_index. destruct (decide (i = 0%Z)) as [->|Hi].
    + rewrite (bool_decide_eq_true_2 (0%Z = 0%Z)) by done. simpl.
      by rewrite bool_decide_eq_true_2 by lia.
    + by rewrite !(bool_decide_eq_false_2 (i = 0%Z)) by done.
  - split; [done|]. split; [done|]. split; [done|].
    intros i Hi.
    destruct Hw as (Hsq & _ & [HcR HcC]). destruct Hw' as (_ & _ & [HcR' HcC']).
    rewrite HcR', HcC', HcR, HcC by lia.
    rewrite HaR, HaC.
    by rewrite !(weighted_sum_related isSolution _ _ _ (fields g) (fields g'))
      by (done || apply isSolution_same_state).
Qed.

(** X22. For every reachable game [g], [new Kakurasu(g.asJSON())] returns
    a game with the same move history, the same field states under the
    same coordinates, the same amounts of rows and columns and the same
    targets.  Its cursor is the cursor of [g], except when that is Empty or
    0 while the history has moves: then the restored cursor is the index of
    the last move, although the fields are as [g] has them. *)
Theorem save_and_restore g tape :
  reachable g →
  ∃ g', new_Kakurasu (asJSON g) tape = Ok tt g'
        ∧ moveHistory g' = moveHistory g
        ∧ currentMoveIndex g'
          = (if no_index (currentMoveIndex g)
                && bool_decide (0 < length (moveHistory g))
             then Some (Z.of_nat (length (moveHistory g)) - 1)%Z
             else currentMoveIndex g)
        ∧ fields_related same_state (fields g) (fields g')
        ∧ getAmountRows g' = getAmountRows g
        ∧ getAmountColumns g' = getAmountColumns g
        ∧ (∀ i, i < getAmountRows g →
                getConstraintValueForRow i g' = getConstraintValueForRow i g
                ∧ getConstraintValueForColumn i g' = getConstraintValueForColumn i g).
Proof. apply restored_game. Qed.

Lemma save_and_restore_witness :
  reachable game_2x2
  ∧ ∃ g', new_Kakurasu (asJSON game_2x2) tape_zero = Ok tt g'
          ∧ moveHistory g' = moveHistory game_2x2
          ∧ currentMoveIndex g'
            = (if no_index (currentMoveIndex game_2x2)
                  && bool_decide (0 < length (moveHistory game_2x2))
               then Some (Z.of_nat (length (moveHistory game_2x2)) - 1)%Z
               else currentMoveIndex game_2x2)
          ∧ fields_related same_state (fields game_2x2) (fields g')
          ∧ getAmountRows g' = getAmountRows game_2x2
          ∧ getAmountColumns g' = getAmountColumns game_2x2
          ∧ (∀ i, i < getAmountRows game_2x2 →
                  getConstraintValueForRow i g' = getConstraintValueForRow i game_2x2
                  ∧ getConstraintValueForColumn i g'
                    = getConstraintValueForColumn i game_2x2).
Proof.
  split; [exact reachable_game_2x2|].
  exact (save_and_restore game_2x2 tape_zero reachable_game_2x2).
Defined.

(** ** Read-only fields *)

Lemma _applyMove_readOnly move g k f :
  store_get k (fields g) = Some f → isReadOnly f = true →
  state <$> store_get k (fields (final (_applyMove move g))) = Some (state f).
Proof.
  intros Hf Hro.
  destruct (decide (k = _getFieldKey (row move) (column move))) as [->|Hne].
  - rewrite (_applyMove_bound move f g Hf), Hro. simpl.
    by rewrite store_get_put_eq.
  - rewrite _applyMove_frame by done. by rewrite Hf.
Qed.

Lemma execute_readOnly c g k f :
  store_get k (fields g) = Some f → isReadOnly f = true →
  state <$> store_get k (fields (execute c g)) = Some (state f).
Proof.
  intros Hf Hro.
  destruct c as [cmd row column|row column|row column| | |]; cbn [execute].
  - destruct (decide (k = _getFieldKey row column)) as [->|Hne].
    + rewrite setField_eq, (_setFieldStatus_bound _ _ _ f g Hf), Hro. simpl.
      by rewrite store_get_put_eq.
    + rewrite setField_eq, _setFieldStatus_frame by done. by rewrite Hf.
  - destruct (decide (k = _getFieldKey row column)) as [->|Hne].
    + etrans; [apply (f_equal (λ o, state <$> store_get _ (fields (final o))));
               exact (toggle_bound SetFieldActive row column f g Hf)|].
      rewrite Hro. simpl. by rewrite store_get_put_eq.
    + etrans; [apply (f_equal (fmap state));
               exact (toggle_frame SetFieldActive row column g k Hne)|].
      by rewrite Hf.
  - destruct (decide (k = _getFieldKey row column)) as [->|Hne].
    + etrans; [apply (f_equal (λ o, state <$> store_get _ (fields (final o))));
               exact (toggle_bound SetFieldFlagged row column f g Hf)|].
      rewrite Hro. simpl. by rewrite store_get_put_eq.
    + etrans; [apply (f_equal (fmap state));
               exact (toggle_frame SetFieldFlagged row column g k Hne)|].
      by rewrite Hf.
  - rewrite undoMove_eq.
    destruct (getMoveFromHistoryAsCopy _ g) as [m|]; [|simpl; by rewrite Hf].
    by apply _applyMove_readOnly.
  - rewrite redoMove_eq.
    destruct (getMoveFromHistoryAsCopy _ g) as [m|]; [|simpl; by rewrite Hf].
    by apply _applyMove_readOnly.
  - rewrite resetGame_eq. simpl. rewrite reset_all_lookup, Hf. simpl.
    unfold _reset. by rewrite Hro.
Qed.

Lemma run_readOnly cs g k f :
  store_get k (fields g) = Some f → isReadOnly f = true →
  state <$> store_get k (fields (run cs g)) = Some (state f).
Proof.
  revert g f. induction cs as [|c cs IH]; intros g f Hf Hro.
  - simpl. by rewrite Hf.
  - unfold run. cbn [foldl]. fold (run cs (execute c g)).
    pose proof (execute_readOnly c g k f Hf Hro) as H.
    destruct (store_get k (fields (execute c g))) as [f'|] eqn:Hf'; [|done].
    injection H as H. rewrite <- H. apply IH; [done|].
    unfold isReadOnly in *. by rewrite H.
Qed.

(** X23. No sequence of commands (moves, toggles, undo, redo, reset)
    changes a read-only field: the field stays where it is, with the status
    and flags it had.  This holds also for an undo or redo of a move of the
    history that addresses the field. *)
Theorem readOnly_fields_never_change cs g k f :
  store_get k (fields g) = Some f → isReadOnly f = true →
  state <$> store_get k (fields (run cs g)) = Some (state f).
Proof. apply run_readOnly. Qed.

Lemma readOnly_fields_never_change_witness :
  store_get (_getFieldKey 0 1) (fields game_2x2_given)
  = Some (stamp 0 1 (new_KakurasuField (cell STATUS_FLAGGED true false)))
  ∧ isReadOnly (stamp 0 1 (new_KakurasuField (cell STATUS_FLAGGED true false))) = true
  ∧ state <$> store_get (_getFieldKey 0 1)
                (fields (run [ChangeActiveStatus 0 1; ResetGame] game_2x2_given))
    = Some (cell STATUS_FLAGGED true false).
Proof.
  assert (H1 : store_get (_getFieldKey 0 1) (fields game_2x2_given)
               = Some (stamp 0 1 (new_KakurasuField (cell STATUS_FLAGGED true false))))
    by (vm_compute; reflexivity).
  assert (H2 : isReadOnly (stamp 0 1 (new_KakurasuField (cell STATUS_FLAGGED true false)))
               = true) by reflexivity.
  split; [exact H1|]. split; [exact H2|].
  exact (readOnly_fields_never_change [ChangeActiveStatus 0 1; ResetGame]
           game_2x2_given (_getFieldKey 0 1) _ H1 H2).
Defined.

(** ** Winning *)

Lemma weighted_sum_ext (p q : KakurasuField → bool) forRow index n
  (fs : list (Key * KakurasuField)) :
  (∀ k f, store_get k fs = Some f → p f = q f) →
  weighted_sum p forRow index n fs = weighted_sum q forRow index n fs.
Proof.
  intros H. unfold weighted_sum.
  induction (seq 0 n) as [|i l IH]; [done|]. simpl. rewrite IH. f_equal.
  destruct (store_get (line_key forRow index i) fs) as [f|] eqn:Hf; [|done].
  by rewrite (H _ _ Hf).
Qed.

Lemma solved_is_won g :
  well_loaded g →
  (∀ k f, store_get k (fields g) = Some f → isActive f = isSolution f) →
  returned (isGameWon g) = Some true
  ∧ ∀ i, i < getAmountRows g →
         returned (isRowConstraintSatisfied i g) = Some true
         ∧ returned (isColumnConstraintSatisfied i g) = Some true.
Proof.
  intros Hw Hsol.
  destruct (well_loaded_checks g Hw) as (Hr & Hc & Hwon).
  pose proof Hw as (Hsq & _).
  assert (HR : ∀ i, row_solved g i = true).
  { intros i. unfold row_solved. apply bool_decide_eq_true.
    symmetry. by apply weighted_sum_ext. }
  assert (HC : ∀ i, column_solved g i = true).
  { intros i. unfold column_solved. apply bool_decide_eq_true.
    symmetry. by apply weighted_sum_ext. }
  split.
  - rewrite Hwon. f_equal. apply forallb_forall. intros i _. apply HR.
  - intros i Hi. rewrite Hr, Hc by lia. by rewrite HR, HC.
Qed.

Lemma store_get_elem_of {V} k (v : V) o : store_get k o = Some v → (k, v) ∈ o.
Proof.
  induction o as [|[k0 v0] o IH]; simpl; [done|].
  destruct (decide (k = k0)) as [->|Hne].
  - intros [= ->]. by left.
  - intros H. right. by apply IH.
Qed.

(** X24. In a well-loaded game (every reachable game is one) in which
    exactly the solution fields are Active, every row check and every
    column check returns true, and [isGameWon()] returns true. *)
Theorem solved_game_is_won g :
  well_loaded g →
  (∀ k f, store_get k (fields g) = Some f → isActive f = isSolution f) →
  returned (isGameWon g) = Some true
  ∧ ∀ i, i < getAmountRows g →
         returned (isRowConstraintSatisfied i g) = Some true
         ∧ returned (isColumnConstraintSatisfied i g) = Some true.
Proof. apply solved_is_won. Qed.

Lemma run_well_loaded cs g : well_loaded g → well_loaded (run cs g).
Proof.
  revert g. induction cs as [|c cs IH]; intros g Hw; [done|].
  unfold run. cbn [foldl]. apply IH.
  apply (same_puzzle_well_loaded g); [apply execute_same_puzzle | done].
Qed.

Lemma solved_game_is_won_witness :
  well_loaded game_2x2_solved
  ∧ (∀ k f, store_get k (fields game_2x2_solved) = Some f → isActive f = isSolution f)
  ∧ returned (isGameWon game_2x2_solved) = Some true
  ∧ ∀ i, i < getAmountRows game_2x2_solved →
         returned (isRowConstraintSatisfied i game_2x2_solved) = Some true
         ∧ returned (isColumnConstraintSatisfied i game_2x2_solved) = Some true.
Proof.
  assert (H1 : well_loaded game_2x2_solved).
  { apply run_well_loaded.
    apply (new_Kakurasu_well_loaded (mkSnapshot None None (Some fields_2x2)) tape_zero).
    vm_compute; reflexivity. }
  assert (H2 : ∀ k f, store_get k (fields game_2x2_solved) = Some f
                      → isActive f = isSolution f).
  { intros k f Hf%store_get_elem_of. revert k f Hf.
    assert (H : Forall (λ kf, isActive kf.2 = isSolution kf.2) (fields game_2x2_solved)).
    { vm_compute. repeat constructor. }
    intros k f Hf. by apply (proj1 (Forall_forall _ _) H (k, f)). }
  split; [exact H1|]. split; [exact H2|].
  exact (solved_game_is_won game_2x2_solved H1 H2).
Defined.

(** ** The fields of a line *)

Lemma _getFieldsInRowColumn_line forRow index g :
  (line_complete forRow index g →
   ∃ g', _getFieldsInRowColumn forRow index g
         = Ok (line_key forRow index <$> seq 0 (_getAmountRowColumns forRow g)) g'
         ∧ only_stamps g g'
         ∧ ∀ i, i < _getAmountRowColumns forRow g →
                stamped g' (line_key forRow index i))
  ∧ (∀ i, i < _getAmountRowColumns forRow g →
          store_get (line_key forRow index i) (fields g) = None →
          returned (_getFieldsInRowColumn forRow index g) = None).
Proof.
  split.
  - intros Hc.
    destruct (mapM_getField_line forRow index (seq 0 (_getAmountRowColumns forRow g)) g)
      as (g' & E & Hos & Hst & _).
    { intros i Hi%elem_of_seq. apply Hc. lia. }
    exists g'. split; [exact E|]. split; [done|].
    intros i Hi. apply Hst. apply elem_of_seq. lia.
  - intros i Hi Hnone.
    apply (mapM_getField_line_missing forRow index
             (seq 0 (_getAmountRowColumns forRow g)) g i); [|done].
    apply elem_of_seq. lia.
Qed.

(** X25. [getFieldsInRow(row)] returns the fields at
    [(row, 0) .. (row, amountRows - 1)], in this order, each carrying its
    coordinates, and changes nothing else; [getFieldsInColumn(column)]
    likewise returns the fields at [(0, column) .. (amountColumns - 1,
    column)].  When one of these coordinates has no field the method
    raises. *)
Theorem getFields_of_line g :
  (∀ row,
     (line_complete true row g →
      ∃ g', getFieldsInRow row g
            = Ok ((λ c, _getFieldKey row c) <$> seq 0 (getAmountRows g)) g'
            ∧ only_stamps g g'
            ∧ ∀ c, c < getAmountRows g → stamped g' (_getFieldKey row c))
     ∧ (∀ c, c < getAmountRows g →
             store_get (_getFieldKey row c) (fields g) = None →
             returned (getFieldsInRow row g) = None))
  ∧ (∀ column,
       (line_complete false column g →
        ∃ g', getFieldsInColumn column g
              = Ok ((λ r, _getFieldKey r column) <$> seq 0 (getAmountColumns g)) g'
              ∧ only_stamps g g'
              ∧ ∀ r, r < getAmountColumns g → stamped g' (_getFieldKey r column))
       ∧ (∀ r, r < getAmountColumns g →
               store_get (_getFieldKey r column) (fields g) = None →
               returned (getFieldsInColumn column g) = None)).
Proof.
  split.
  - intros row. apply (_getFieldsInRowColumn_line true row g).
  - intros column. apply (_getFieldsInRowColumn_line false column g).
Qed.

Lemma getFields_of_line_witness :
  (∃ g', getFieldsInRow 1 game_3x3
         = Ok ((λ c, _getFieldKey 1 c) <$> seq 0 (getAmountRows game_3x3)) g'
         ∧ only_stamps game_3x3 g'
         ∧ ∀ c, c < getAmountRows game_3x3 → stamped g' (_getFieldKey 1 c))
  ∧ returned (getFieldsInColumn 7 game_3x3) = None.
Proof.
  split.
  - apply (proj1 (proj1 (getFields_of_line game_3x3) 1)).
    apply well_loaded_line_complete; [apply game_3x3_well_loaded|].
    vm_compute; lia.
  - apply (proj2 (proj2 (getFields_of_line game_3x3) 7) 0).
    + vm_compute; lia.
    + vm_compute; reflexivity.
Defined.

(** ** The normalized bounds *)

(** X26. After the normalization in [generateLevel], for every
    configuration: [0 <= amountMinimumInRow <= amountMaximumInRow <= rows]
    and [0 <= amountMinimumInColumn <= amountMaximumInColumn <= columns],
    with [rows] and [columns] at least 1. *)
Theorem normalized_bounds_are_ordered (config : ConfigIn) :
  0 < rows (normalizeConfig config)
  ∧ 0 < columns (normalizeConfig config)
  ∧ (0 <= amountMinimumInRow (normalizeConfig config))%Q
  ∧ (amountMinimumInRow (normalizeConfig config)
     <= amountMaximumInRow (normalizeConfig config))%Q
  ∧ (amountMaximumInRow (normalizeConfig config)
     <= nat_to_Q (rows (normalizeConfig config)))%Q
  ∧ (0 <= amountMinimumInColumn (normalizeConfig config))%Q
  ∧ (amountMinimumInColumn (normalizeConfig config)
     <= amountMaximumInColumn (normalizeConfig config))%Q
  ∧ (amountMaximumInColumn (normalizeConfig config)
     <= nat_to_Q (columns (normalizeConfig config)))%Q.
Proof.
  destruct (normalizeConfig_positive config) as [HR HC].
  pose proof (normalizeConfig_bounds config) as H. cbv zeta in H.
  split; [done|]. split; [done|]. exact H.
Qed.

(** ** Undoing every move *)

Lemma fields_related_put_both ok (fs fs' : list (Key * KakurasuField)) k v v' :
  fields_related ok fs fs' → ok v v' → is_Some (store_get k fs) →
  fields_related ok (store_put k v fs) (store_put k v' fs').
Proof.
  intros [Hk Hf] Hv [f Hb].
  pose proof (Hf k) as Hfk. rewrite Hb in Hfk.
  destruct (store_get k fs') as [f'|] eqn:Hb'; [|inversion Hfk]. split.
  - by rewrite (store_put_keys _ _ _ _ Hb), (store_put_keys _ _ _ _ Hb').
  - intros k0. destruct (decide (k = k0)) as [->|Hne].
    + rewrite !store_get_put_eq. by constructor.
    + rewrite !store_get_put_ne by done. apply Hf.
Qed.

Global Instance agree_preorder : PreOrder agree.
Proof.
  split.
  - intros g. repeat split; reflexivity.
  - intros g1 g2 g3 (Hc & Hm & Hf & Hh) (Hc' & Hm' & Hf' & Hh').
    split; [congruence|]. split; [congruence|]. split; [by etrans|].
    intros i j Hi Hj. rewrite (Hh' i j) by (congruence || done). by apply (Hh i j).
Qed.

Lemma _applyMove_agree move g g' :
  agree g g' → agree (final (_applyMove move g)) (final (_applyMove move g')).
Proof.
  intros (Hc & Hm & Hf & Hh).
  destruct Hf as [Hk Hf0]. pose proof (Hf0 (_getFieldKey (row move) (column move))) as Hfk.
  destruct (store_get (_getFieldKey (row move) (column move)) (fields g)) as [f|] eqn:Hb;
    destruct (store_get (_getFieldKey (row move) (column move)) (fields g'))
      as [f'|] eqn:Hb'; try (by inversion Hfk).
  - assert (Hs : same_state f f') by (by inversion Hfk).
    rewrite (_applyMove_bound move f g Hb), (_applyMove_bound move f' g' Hb').
    assert (Hro : isReadOnly f' = isReadOnly f) by (unfold isReadOnly; by rewrite Hs).
    rewrite Hro.
    destruct (isReadOnly f); simpl; (split; [done|]; split; [done|]; split; [|done]);
      apply fields_related_put_both; try done; try by eexists.
    unfold same_state in *. simpl. by rewrite Hs.
  - rewrite (_applyMove_unbound move g Hb), (_applyMove_unbound move g' Hb'). simpl.
    by repeat split.
Qed.

Lemma undoMove_agree g g' :
  cursor_consistent g → agree g g' →
  agree (final (undoMove g)) (final (undoMove g')).
Proof.
  intros Hcons Hag. pose proof Hag as (Hc & Hm & Hf & Hh).
  rewrite !undoMove_eq.
  unfold _calcNextCurrentMoveIndex, getMoveFromHistoryAsCopy. rewrite Hc.
  unfold cursor_consistent in Hcons.
  destruct (currentMoveIndex g) as [i|] eqn:Hi; [|done].
  replace (i + 0)%Z with i by lia.
  assert (Hlt : (i <? 0)%Z = false) by lia. rewrite Hlt. cbv iota beta. rewrite Hlt.
  rewrite (Hh i i) by (done || lia).
  destruct (moveHistory g !! Z.to_nat i) as [m|]; [|done].
  apply _applyMove_agree. split; [done|]. split; [done|]. split; [done|].
  simpl. intros i' j. destruct (i + -1 <? 0)%Z eqn:E; [done|].
  intros [= <-] Hj. apply (Hh i j); [done | lia].
Qed.

Lemma undo_times_consistent k g :
  cursor_consistent g → cursor_consistent (undo_times k g).
Proof.
  intros H. induction k as [|k IH]; [done|]. simpl. by apply preserves_undoMove.
Qed.

Lemma undo_times_agree k g g' :
  cursor_consistent g → agree g g' → agree (undo_times k g) (undo_times k g').
Proof.
  intros Hcons Hag. induction k as [|k IH]; [done|]. simpl.
  apply undoMove_agree; [by apply undo_times_consistent | done].
Qed.

Lemma is_movable_related fs fs' row column :
  fields_related same_flags fs fs' →
  is_movable fs' row column = is_movable fs row column.
Proof.
  intros [_ Hf]. unfold is_movable. specialize (Hf (_getFieldKey row column)).
  destruct Hf as [f f' [Hro _]|]; [|done]. by rewrite Hro.
Qed.

Lemma kept_history_lookup g i j :
  currentMoveIndex g = Some i → (0 ≤ j ≤ i)%Z →
  kept_history g !! Z.to_nat j = moveHistory g !! Z.to_nat j.
Proof.
  intros Hi Hj. unfold kept_history. rewrite Hi.
  rewrite slice_0_nonneg by lia. apply lookup_take_lt. lia.
Qed.

Lemma moves_then_undos ms g :
  cursor_consistent g →
  (∀ m, m ∈ ms → is_movable (fields g) m.1.2 m.2 = true) →
  agree g (undo_times (length ms) (run (move_command <$> ms) g)).
Proof.
  revert g. induction ms as [|m ms IH]; intros g Hcons Hmov; [done|].
  csimpl. unfold run. cbn [foldl]. fold (run (move_command <$> ms) (execute (move_command m) g)).
  set (g1 := execute (move_command m) g).
  assert (Hcons1 : cursor_consistent g1) by by apply preserves_execute.
  assert (Hag1 : agree g1 (undo_times (length ms) (run (move_command <$> ms) g1))).
  { apply IH; [done|]. intros m' Hm'.
    rewrite (is_movable_related (fields g) (fields g1)).
    - apply Hmov. by right.
    - apply execute_same_puzzle. }
  apply (undoMove_agree g1 _ Hcons1) in Hag1.
  etrans; [|exact Hag1].
  destruct m as [[cmd row] column]. unfold g1, move_command. cbn [execute fst snd].
  destruct (setField_then_undoMove cmd row column g Hcons) as (f & g2 & Hf & E1 & E2).
  { apply (Hmov (cmd, row, column)). by left. }
  rewrite E1. cbn [final]. rewrite E2. cbn [final].
  split; [done|]. split; [done|]. split.
  - by apply (fields_related_put same_state _ _ f).
  - intros i j Hi Hj. cbn [moveHistory].
    rewrite lookup_app_l.
    + by apply (kept_history_lookup g i j).
    + pose proof (kept_history_length g Hcons) as Hlen. rewrite Hi in Hlen. lia.
Qed.

(** X27. From a game whose cursor is Empty or an index into the history
    (every reachable game), after any sequence of status-setting moves on
    fields that are not read-only, followed by as many [undoMove()] calls
    as there were moves: the cursor is what it was at the start, every
    field has the state it had at the start, and the meta information is
    unchanged. *)
Theorem undo_all_moves ms g :
  cursor_consistent g →
  (∀ m, m ∈ ms → is_movable (fields g) m.1.2 m.2 = true) →
  currentMoveIndex (undo_times (length ms) (run (move_command <$> ms) g))
  = currentMoveIndex g
  ∧ meta (undo_times (length ms) (run (move_command <$> ms) g)) = meta g
  ∧ fields_related same_state (fields g)
      (fields (undo_times (length ms) (run (move_command <$> ms) g))).
Proof.
  intros Hcons Hmov.
  by destruct (moves_then_undos ms g Hcons Hmov) as (? & ? & ? & _).
Qed.

Lemma undo_all_moves_witness :
  cursor_consistent game_2x2
  ∧ (∀ m, m ∈ [(SetFieldActive, 0, 0); (SetFieldFlagged, 0, 0); (SetFieldActive, 1, 0)] →
          is_movable (fields game_2x2) m.1.2 m.2 = true)
  ∧ currentMoveIndex
      (undo_times 3
         (run (move_command
                 <$> [(SetFieldActive, 0, 0); (SetFieldFlagged, 0, 0);
                      (SetFieldActive, 1, 0)]) game_2x2))
    = currentMoveIndex game_2x2
  ∧ meta (undo_times 3
            (run (move_command
                    <$> [(SetFieldActive, 0, 0); (SetFieldFlagged, 0, 0);
                         (SetFieldActive, 1, 0)]) game_2x2))
    = meta game_2x2
  ∧ fields_related same_state (fields game_2x2)
      (fields (undo_times 3
                 (run (move_command
                         <$> [(SetFieldActive, 0, 0); (SetFieldFlagged, 0, 0);
                              (SetFieldActive, 1, 0)]) game_2x2))).
Proof.
  assert (H1 : cursor_consistent game_2x2) by exact I.
  assert (H2 : ∀ m, m ∈ [(SetFieldActive, 0, 0); (SetFieldFlagged, 0, 0);
                         (SetFieldActive, 1, 0)] →
                    is_movable (fields game_2x2) m.1.2 m.2 = true).
  { intros m Hm. repeat (apply elem_of_cons in Hm as [->|Hm]; [vm_compute; reflexivity|]).
    by apply elem_of_nil in Hm. }
  split; [exact H1|]. split; [exact H2|].
  exact (undo_all_moves [(SetFieldActive, 0, 0); (SetFieldFlagged, 0, 0);
                         (SetFieldActive, 1, 0)] game_2x2 H1 H2).
Defined.
